(** * Vintage Story container scripts: configuration generator and release versioning

    A shallow embedding of [generate-config.py] and [semver.py].

    - [Py] holds the Python primitives both scripts rely on: exceptions,
      [str] methods, [int()] and [str()] on integers, a regular-expression
      matcher for [re.match], and JSON-like values with insertion-ordered
      dictionaries.
    - [GenerateConfig] embeds the class [VintageStoryConfig].
    - [Semver] embeds the functions of the release script.

    Conventions.  A Python [str] is a [string] of bytes; only ASCII letters
    change case and only ASCII digits are digits (non-ASCII case pairs never
    produce one of the ASCII tokens the scripts compare with).  Printing is
    left out: every [print] of the scripts formats strings that are already
    computed, except the summary of [run], whose dictionary lookups are
    kept.  The two library functions the generator calls on file contents,
    [yaml.safe_load] and [json.dump], are parameters of its methods; the
    outcome of each [git] command and of each [zf.write] is a parameter of
    the release functions.

    The definitions come first; the facts and the theorems follow them. *)

From Stdlib Require Import ZArith Lia Ascii String DecimalString DecimalPos Sorted.
From stdpp Require Import base option list gmap strings.

Module Py.

(** ** Exceptions and results *)

Inductive exn :=
| KeyError (key : string)
| TypeError
| AttributeError
| ValueError
| FileNotFoundError
| FileExistsError
| IsADirectoryError
| NotADirectoryError
| OSError
| CalledProcessError
| YAMLError.

Inductive result (A : Type) :=
| Ok (a : A)
| Raise (e : exn).
Arguments Ok {A} a.
Arguments Raise {A} e.

#[global] Instance result_ret : MRet result := λ A a, Ok a.
#[global] Instance result_bind : MBind result := λ A B f r,
  match r with
  | Ok a => f a
  | Raise e => Raise e
  end.

(** ** [str] methods *)

Definition is_upper (c : ascii) : bool :=
  (65 <=? nat_of_ascii c)%nat && (nat_of_ascii c <=? 90)%nat.

Definition lower_char (c : ascii) : ascii :=
  if is_upper c then ascii_of_nat (nat_of_ascii c + 32) else c.

(** [s.lower()] *)
Fixpoint lower (s : string) : string :=
  match s with
  | EmptyString => EmptyString
  | String c s' => String (lower_char c) (lower s')
  end.

(** [s.startswith(pre)] *)
Definition startswith (pre s : string) : bool := String.prefix pre s.

(** [sub in s] *)
Fixpoint contains (sub s : string) : bool :=
  String.prefix sub s ||
  match s with
  | EmptyString => false
  | String _ s' => contains sub s'
  end.

(** Every character of [s] passes the test [p]. *)
Fixpoint all_chars (p : ascii → bool) (s : string) : bool :=
  match s with
  | EmptyString => true
  | String c s' => p c && all_chars p s'
  end.

(** The test "is not the separator", for the parts [split] returns. *)
Definition no_sep (sep : ascii) (c : ascii) : bool := negb (Ascii.eqb c sep).

(** [x in (t1, t2, ...)] on strings *)
Definition str_in (x : string) (ts : list string) : bool :=
  existsb (String.eqb x) ts.

(** [s.split(sep)] for a one-character separator: never empty. *)
Fixpoint split (sep : ascii) (s : string) : list string :=
  match s with
  | EmptyString => [EmptyString]
  | String c s' =>
      if Ascii.eqb c sep then EmptyString :: split sep s'
      else match split sep s' with
           | w :: ws => String c w :: ws
           | [] => [String c EmptyString]
           end
  end.

(** [s.split(sep, 1)]: at most one cut. *)
Fixpoint split1 (sep : ascii) (s : string) : list string :=
  match s with
  | EmptyString => [EmptyString]
  | String c s' =>
      if Ascii.eqb c sep then [EmptyString; s']
      else match split1 sep s' with
           | w :: ws => String c w :: ws
           | [] => [String c EmptyString]
           end
  end.

(** ASCII white space as [str.isspace] sees it: TAB..CR, FS..US, space. *)
Definition is_space (c : ascii) : bool :=
  let n := nat_of_ascii c in
  ((9 <=? n)%nat && (n <=? 13)%nat) || ((28 <=? n)%nat && (n <=? 32)%nat).

Fixpoint lstrip (s : string) : string :=
  match s with
  | EmptyString => EmptyString
  | String c s' => if is_space c then lstrip s' else s
  end.

Fixpoint rstrip (s : string) : string :=
  match s with
  | EmptyString => EmptyString
  | String c s' =>
      match rstrip s' with
      | EmptyString => if is_space c then EmptyString else String c EmptyString
      | r => String c r
      end
  end.

(** [s.strip()] *)
Definition strip (s : string) : string := lstrip (rstrip s).

(** ** Integers: [int(s)] and [str(n)] *)

Definition is_digit (c : ascii) : bool :=
  (48 <=? nat_of_ascii c)%nat && (nat_of_ascii c <=? 57)%nat.

Definition digit_val (c : ascii) : Z := Z.of_nat (nat_of_ascii c) - 48.

(** Digits with single underscores between them, as [int] accepts;
    [prev] tells whether the previous character was a digit. *)
Fixpoint int_digits (acc : Z) (prev : bool) (s : string) : option Z :=
  match s with
  | EmptyString => if prev then Some acc else None
  | String c s' =>
      if is_digit c then int_digits (10 * acc + digit_val c) true s'
      else if Ascii.eqb c "_" then
        if prev then int_digits acc false s' else None
      else None
  end.

(** [int(s)], base ten: surrounding white space, an optional sign, digits.
    The limit on the number of digits of recent interpreters is not
    modelled. *)
Definition int (s : string) : result Z :=
  let t := strip s in
  let r :=
    match t with
    | String "+" d => int_digits 0 false d
    | String "-" d => Z.opp <$> int_digits 0 false d
    | _ => int_digits 0 false t
    end in
  match r with
  | Some z => Ok z
  | None => Raise ValueError
  end.

(** [str(n)] *)
Definition str_of_int (z : Z) : string := NilZero.string_of_int (Z.to_int z).

(** ** Regular expressions and [re.match]

    Patterns are kept as data and matched with Brzozowski derivatives.
    [re.match] anchors at the start of the subject, so a leading [^] adds
    nothing; a trailing [$] holds at the end of the subject and also just
    before a final line feed. *)

Inductive regex :=
| Void
| Eps
| Class (p : ascii → bool)
| Seq (r1 r2 : regex)
| Alt (r1 r2 : regex)
| Star (r : regex).

Definition Plus (r : regex) : regex := Seq r (Star r).
Definition Lit (c : ascii) : regex := Class (Ascii.eqb c).

Fixpoint Str (s : string) : regex :=
  match s with
  | EmptyString => Eps
  | String c s' => Seq (Lit c) (Str s')
  end.

Fixpoint nullable (r : regex) : bool :=
  match r with
  | Void => false
  | Eps => true
  | Class _ => false
  | Seq r1 r2 => nullable r1 && nullable r2
  | Alt r1 r2 => nullable r1 || nullable r2
  | Star _ => true
  end.

Fixpoint deriv (c : ascii) (r : regex) : regex :=
  match r with
  | Void => Void
  | Eps => Void
  | Class p => if p c then Eps else Void
  | Seq r1 r2 =>
      if nullable r1 then Alt (Seq (deriv c r1) r2) (deriv c r2)
      else Seq (deriv c r1) r2
  | Alt r1 r2 => Alt (deriv c r1) (deriv c r2)
  | Star r1 => Seq (deriv c r1) (Star r1)
  end.

(** The whole subject is a word of [r]. *)
Fixpoint fullmatch (r : regex) (s : string) : bool :=
  match s with
  | EmptyString => nullable r
  | String c s' => fullmatch (deriv c r) s'
  end.

(** Some prefix of the subject is a word of [r]: [re.match(r, s)]. *)
Fixpoint match_prefix (r : regex) (s : string) : bool :=
  nullable r ||
  match s with
  | EmptyString => false
  | String c s' => match_prefix (deriv c r) s'
  end.

Definition LF : ascii := "010".

(** A word of [r] followed by the end of the subject or by one final line
    feed: [re.match(r + '$', s)]. *)
Fixpoint match_dollar (r : regex) (s : string) : bool :=
  match s with
  | EmptyString => nullable r
  | String c s' =>
      (nullable r && Ascii.eqb c LF && String.eqb s' EmptyString)
      || match_dollar (deriv c r) s'
  end.

Record pattern := { body : regex; dollar : bool }.

Definition re_match (p : pattern) (s : string) : bool :=
  if dollar p then match_dollar (body p) s else match_prefix (body p) s.

(** The words of a regular expression. *)
Inductive matches : regex → string → Prop :=
| MEps : matches Eps EmptyString
| MClass p c : p c = true → matches (Class p) (String c EmptyString)
| MSeq r1 r2 s1 s2 :
    matches r1 s1 → matches r2 s2 → matches (Seq r1 r2) (s1 +:+ s2)
| MAltL r1 r2 s : matches r1 s → matches (Alt r1 r2) s
| MAltR r1 r2 s : matches r2 s → matches (Alt r1 r2) s
| MStar0 r : matches (Star r) EmptyString
| MStarS r s1 s2 :
    matches r s1 → matches (Star r) s2 → matches (Star r) (s1 +:+ s2).

(** ** Values and insertion-ordered dictionaries

    The objects a YAML document without aliases loads to and [json.dump]
    writes: a tree of [None], booleans, integers, strings, lists and
    dictionaries with string keys.  A dictionary keeps its keys in
    insertion order, as Python's does. *)

Definition odict (A : Type) := list (string * A).

(** [d.get(k)] *)
Fixpoint dict_get {A} (k : string) (d : odict A) : option A :=
  match d with
  | [] => None
  | (k', v) :: d' => if String.eqb k k' then Some v else dict_get k d'
  end.

(** [d[k] = v]: in place for a key that is present, at the end otherwise. *)
Fixpoint dict_set {A} (k : string) (v : A) (d : odict A) : odict A :=
  match d with
  | [] => [(k, v)]
  | (k', v') :: d' =>
      if String.eqb k k' then (k, v) :: d' else (k', v') :: dict_set k v d'
  end.

(** [del d[k]]: a dictionary holds a key once; every entry with the key
    goes. *)
Fixpoint dict_del {A} (k : string) (d : odict A) : odict A :=
  match d with
  | [] => []
  | (k', v') :: d' =>
      if String.eqb k k' then dict_del k d' else (k', v') :: dict_del k d'
  end.

(** [d.update(o)] *)
Definition dict_update {A} (d o : odict A) : odict A :=
  fold_left (λ acc kv, dict_set kv.1 kv.2 acc) o d.

#[local] Unset Elimination Schemes.
Inductive value :=
| VNone
| VBool (b : bool)
| VInt (n : Z)
| VStr (s : string)
| VList (l : list value)
| VDict (d : odict value).
#[local] Set Elimination Schemes.

(** [v[k]] for a string key *)
Definition getitem (v : value) (k : string) : result value :=
  match v with
  | VDict d =>
      match dict_get k d with
      | Some x => Ok x
      | None => Raise (KeyError k)
      end
  | _ => Raise TypeError
  end.

(** [v[k] = x] for a string key: the object [v] after the assignment. *)
Definition setitem (v : value) (k : string) (x : value) : result value :=
  match v with
  | VDict d => Ok (VDict (dict_set k x d))
  | _ => Raise TypeError
  end.

(** [v.update(o)]: only a dictionary has the method. *)
Definition update (v : value) (o : odict value) : result value :=
  match v with
  | VDict d => Ok (VDict (dict_update d o))
  | _ => Raise AttributeError
  end.

End Py.

Module GenerateConfig.
Import Py.

(** ** Paths and the file system

    A [pathlib.Path] is the list of its components, innermost first, so
    that the name is the head and the parent is the tail.  The working
    directory is taken to be the root, [..] is not interpreted, and there
    are no symbolic links or permissions. *)

Definition Path (s : string) : list string :=
  rev (filter (λ c, c ≠ EmptyString ∧ c ≠ ".") (split "/" s)).

(** [p / name] *)
Definition joinpath (p : list string) (name : string) : list string :=
  name :: p.

(** [name.rfind(c)] *)
Fixpoint rfind (c : ascii) (s : string) : option nat :=
  match s with
  | EmptyString => None
  | String a s' =>
      match rfind c s' with
      | Some i => Some (S i)
      | None => if Ascii.eqb a c then Some 0 else None
      end
  end.

(** [PurePath.suffix] of a name: from the last dot on, unless that dot is
    the first or the last character. *)
Definition suffix (name : string) : string :=
  match rfind "." name with
  | Some i =>
      if (0 <? i)%nat && (i <? String.length name - 1)%nat
      then substring i (String.length name - i) name
      else EmptyString
  | None => EmptyString
  end.

(** [p.with_suffix(suf)] for a [suf] that starts with a dot and holds no
    separator: the old suffix is replaced, not kept. *)
Definition with_suffix (p : list string) (suf : string) : result (list string) :=
  match p with
  | [] => Raise ValueError
  | name :: parent =>
      if String.eqb name EmptyString then Raise ValueError
      else
        let old := suffix name in
        Ok ((substring 0 (String.length name - String.length old) name +:+ suf)
              :: parent)
  end.

Inductive node :=
| File (content : string)
| Dir.

Definition node_at (fs : gmap (list string) node) (p : list string) : option node :=
  match p with
  | [] => Some Dir
  | _ => fs !! p
  end.

(** [p.exists()] *)
Definition path_exists (fs : gmap (list string) node) (p : list string) : bool :=
  bool_decide (is_Some (node_at fs p)).

(** [p.unlink()] *)
Definition unlink (fs : gmap (list string) node) (p : list string)
  : result (gmap (list string) node) :=
  match node_at fs p with
  | Some (File _) => Ok (delete p fs)
  | Some Dir => Raise IsADirectoryError
  | None => Raise FileNotFoundError
  end.

(** The nodes strictly below the directory [p]. *)
Definition below (fs : gmap (list string) node) (p : list string)
  : gmap (list string) node :=
  filter (λ kn, p `suffix_of` kn.1 ∧ kn.1 ≠ p) fs.

(** Every node at or below [src] moves to the same place below [dst]. *)
Definition move_tree (src dst : list string) (fs : gmap (list string) node)
  : gmap (list string) node :=
  list_to_map
    (map (λ kn : list string * node,
            if decide (src `suffix_of` kn.1)
            then (take (length kn.1 - length src) kn.1 ++ dst, kn.2)
            else kn)
         (map_to_list fs)).

(** [src.rename(dst)], as [rename(2)] does it. *)
Definition rename (fs : gmap (list string) node) (src dst : list string)
  : result (gmap (list string) node) :=
  match node_at fs src with
  | None => Raise FileNotFoundError
  | Some (File c) =>
      match node_at fs dst with
      | Some Dir => Raise IsADirectoryError
      | _ =>
          match node_at fs (tail dst) with
          | Some Dir => Ok (<[dst := File c]> (delete src fs))
          | Some (File _) => Raise NotADirectoryError
          | None => Raise FileNotFoundError
          end
      end
  | Some Dir =>
      if decide (src = [] ∨ dst = [] ∨ src `suffix_of` dst ∧ src ≠ dst)
      then Raise OSError
      else
        match node_at fs dst with
        | Some (File _) => Raise NotADirectoryError
        | Some Dir =>
            if decide (src = dst) then Ok fs
            else if decide (below fs dst = ∅)
            then Ok (move_tree src dst (delete dst fs))
            else Raise OSError
        | None =>
            match node_at fs (tail dst) with
            | Some Dir => Ok (move_tree src dst fs)
            | Some (File _) => Raise NotADirectoryError
            | None => Raise FileNotFoundError
            end
        end
  end.

(** [p.mkdir(parents=True, exist_ok=True)] *)
Fixpoint mkdir_parents (p : list string) (fs : gmap (list string) node)
  : result (gmap (list string) node) :=
  match p with
  | [] => Ok fs
  | _ :: parent =>
      match fs !! p with
      | Some Dir => Ok fs
      | Some (File _) => Raise FileExistsError
      | None =>
          match node_at fs parent with
          | Some Dir => Ok (<[p := Dir]> fs)
          | Some (File _) => Raise NotADirectoryError
          | None => fs' ← mkdir_parents parent fs; Ok (<[p := Dir]> fs')
          end
      end
  end.

(** [open(p, 'w')] followed by writing [content] and closing. *)
Definition write_text (fs : gmap (list string) node) (p : list string)
    (content : string) : result (gmap (list string) node) :=
  match node_at fs p with
  | Some Dir => Raise IsADirectoryError
  | _ =>
      match node_at fs (tail p) with
      | Some Dir => Ok (<[p := File content]> fs)
      | Some (File _) => Raise NotADirectoryError
      | None => Raise FileNotFoundError
      end
  end.

(** [open(p, 'r')] followed by reading everything. *)
Definition read_text (fs : gmap (list string) node) (p : list string)
  : result string :=
  match node_at fs p with
  | Some (File c) => Ok c
  | Some Dir => Raise IsADirectoryError
  | None => Raise FileNotFoundError
  end.

(** ** The process and the object

    What the methods read and change: the environment [os.environ], the
    file system, and the three attributes of the [VintageStoryConfig]
    object.  An exception leaves in place whatever was changed before it. *)

Record state := mkState {
  environ : odict string;
  files : gmap (list string) node;
  config_json_path : option (list string);
  default_config_yaml_path : list string;
  config : value
}.

Definition with_environ (e : odict string) (st : state) : state :=
  mkState e (files st) (config_json_path st) (default_config_yaml_path st) (config st).
Definition with_files (f : gmap (list string) node) (st : state) : state :=
  mkState (environ st) f (config_json_path st) (default_config_yaml_path st) (config st).
Definition with_config_json_path (p : option (list string)) (st : state) : state :=
  mkState (environ st) (files st) p (default_config_yaml_path st) (config st).
Definition with_config (c : value) (st : state) : state :=
  mkState (environ st) (files st) (config_json_path st) (default_config_yaml_path st) c.

Definition M (A : Type) : Type := state → result A * state.

#[global] Instance M_ret : MRet M := λ A a st, (Ok a, st).
#[global] Instance M_bind : MBind M := λ A B f m st,
  match m st with
  | (Ok a, st') => f a st'
  | (Raise e, st') => (Raise e, st')
  end.

Definition gets {A} (f : state → A) : M A := λ st, (Ok (f st), st).
Definition modify (f : state → state) : M unit := λ st, (Ok (), f st).
Definition lift {A} (r : result A) : M A := λ st, (r, st).
Definition raise {A} (e : exn) : M A := lift (Raise e).

(** A file-system operation applied to the current file system. *)
Definition fs_op (op : gmap (list string) node → result (gmap (list string) node))
  : M unit :=
  fs ← gets files;
  fs' ← lift (op fs);
  modify (with_files fs').

(** [os.getenv(k, default)] *)
Definition getenv (k default : string) : M string :=
  gets (λ st, match dict_get k (environ st) with Some v => v | None => default end).

(** [os.environ[k]] *)
Definition environ_getitem (k : string) : M string :=
  env ← gets environ;
  match dict_get k env with
  | Some v => mret v
  | None => raise (KeyError k)
  end.

(** [os.environ.pop(k)] *)
Definition environ_pop (k : string) : M string :=
  v ← environ_getitem k;
  modify (λ st, with_environ (dict_del k (environ st)) st);;
  mret v.

(** [self.env_setting_map] *)
Definition env_setting_map : odict string :=
  [ ("VS_CFG_SERVER_NAME", "ServerName");
    ("VS_CFG_SERVER_URL", "ServerUrl");
    ("VS_CFG_SERVER_DESCRIPTION", "ServerDescription");
    ("VS_CFG_WELCOME_MESSAGE", "WelcomeMessage");
    ("VS_CFG_ALLOW_CREATIVE_MODE", "AllowCreativeMode");
    ("VS_CFG_SERVER_IP", "Ip");
    ("VS_CFG_SERVER_PORT", "Port");
    ("VS_CFG_SERVER_UPNP", "Upnp");
    ("VS_CFG_SERVER_COMPRESS_PACKETS", "CompressPackets");
    ("VS_CFG_ADVERTISE_SERVER", "AdvertiseServer");
    ("VS_CFG_MAX_CLIENTS", "MaxClients");
    ("VS_CFG_PASS_TIME_WHEN_EMPTY", "PassTimeWhenEmpty");
    ("VS_CFG_SERVER_PASSWORD", "Password");
    ("VS_CFG_MAX_CHUNK_RADIUS", "MaxChunkRadius");
    ("VS_CFG_SERVER_LANGUAGE", "ServerLanguage");
    ("VS_CFG_ONLY_WHITELISTED", "OnlyWhitelisted");
    ("VS_CFG_ANTIABUSE", "AntiAbuse");
    ("VS_CFG_ALLOW_PVP", "AllowPvP");
    ("VS_CFG_HOSTED_MODE", "HostedMode");
    ("VS_CFG_HOSTED_MODE_ALLOW_MODS", "HostedModeAllowMods") ].

(** ** The methods of [VintageStoryConfig] *)

Section Methods.

(** [json.dumps(v, indent=2, ensure_ascii=False)] of the standard library:
    the text [json.dump] writes. *)
Variable json_dumps : value → string.

(** PyYAML's reader up to the single document of a stream: [None] for a
    stream that holds no document, the constructed object otherwise. *)
Variable yaml_single_document : string → result (option value).

(** [yaml.safe_load] returns the loader's [get_single_data()], which is
    Python's [None] when there is no document. *)
Definition yaml_safe_load (text : string) : result value :=
  doc ← yaml_single_document text;
  match doc with
  | Some v => Ok v
  | None => Ok VNone
  end.

Definition load_config : M value :=
  yaml ← gets default_config_yaml_path;
  present ← gets (λ st, path_exists (files st) yaml);
  if (present : bool) then
    fs ← gets files;
    text ← lift (read_text fs yaml);
    lift (yaml_safe_load text)
  else mret (VDict []).

(** [__init__], from the environment and file system of the process. *)
Definition init (env : odict string) (fs : gmap (list string) node) : result state :=
  let home := match dict_get "HOMEPATH" env with
              | Some v => v
              | None => "/vintagestory"
              end in
  let st0 := mkState env fs None (joinpath (Path home) "server-config.yaml") VNone in
  match load_config st0 with
  | (Ok cfg, st) => Ok (with_config cfg st)
  | (Raise e, _) => Raise e
  end.

(** The dictionary comprehension of [generate_serverconfig]: one entry per
    variable with the prefix, in the order of the environment; the table
    lookup is not guarded. *)
Definition overrides_of (env : odict string) : result (odict value) :=
  entries ← mapM (λ env_key : string,
                    match dict_get env_key env_setting_map with
                    | None => Raise (KeyError env_key)
                    | Some field =>
                        match dict_get env_key env with
                        | None => Raise (KeyError env_key)
                        | Some raw => Ok (field, VStr raw)
                        end
                    end)
                 (filter (λ env_key, startswith "VS_CFG_" env_key = true) env.*1);
  Ok (dict_update [] entries).

(** The special case of [generate_serverconfig]: the creative-mode
    variable is taken out of the environment, read as a boolean and stored
    inside the [WorldConfig] sub-mapping. *)
Definition creative_mode_pass : M unit :=
  env ← gets environ;
  if bool_decide (is_Some (dict_get "VS_CFG_ALLOW_CREATIVE_MODE" env)) then
    (* the right-hand side is evaluated before the target *)
    raw ← environ_pop "VS_CFG_ALLOW_CREATIVE_MODE";
    let flag := VBool (str_in (lower raw) ["1"; "true"; "yes"]) in
    cfg ← gets config;
    world ← lift (getitem cfg "WorldConfig");
    world' ← lift (setitem world "AllowCreativeMode" flag);
    (* the sub-mapping is changed in place, inside [self.config] *)
    cfg' ← lift (setitem cfg "WorldConfig" world');
    modify (with_config cfg')
  else mret ().

(** The generic overrides of [generate_serverconfig]. *)
Definition bulk_pass : M unit :=
  env ← gets environ;
  overrides ← lift (overrides_of env);
  cfg ← gets config;
  cfg' ← lift (update cfg overrides);
  modify (with_config cfg').

Definition generate_serverconfig : M unit :=
  creative_mode_pass;;
  bulk_pass.

(** "Check if config already exists": the old output moves to the
    backup path, over any earlier backup. *)
Definition backup_existing (p : list string) : M unit :=
  old ← gets (λ st, path_exists (files st) p);
  if (old : bool) then
    backup_path ← lift (with_suffix p ".json.backup");
    stale ← gets (λ st, path_exists (files st) backup_path);
    (if (stale : bool) then fs_op (λ fs, unlink fs backup_path) else mret ());;
    fs_op (λ fs, rename fs p backup_path)
  else mret ().

(** "Ensure parent directory exists" and "Write config". *)
Definition write_config (p : list string) : M unit :=
  fs_op (mkdir_parents (tail p));;
  cfg ← gets config;
  fs_op (λ fs, write_text fs p (json_dumps cfg)).

(** The summary printed after the write: three unguarded lookups, and
    [StartupCommands] read with [get], which cannot fail. *)
Definition print_summary : M unit :=
  cfg ← gets config;
  lift (getitem cfg "ServerName");;
  lift (getitem cfg "Port");;
  lift (getitem cfg "MaxClients");;
  mret ().

(** The path [run] stores in [self.config_json_path]. *)
Definition resolve_output (args : list string) (env : odict string) : list string :=
  match args with
  | _ :: arg1 :: _ => Path arg1
  | _ =>
      joinpath (Path (match dict_get "DATAPATH" env with
                      | Some v => v
                      | None => "/vintagestory/data"
                      end)) "serverconfig.json"
  end.

(** The body of the [try] of [run]. *)
Definition run_body (args : list string) : M Z :=
  env ← gets environ;
  modify (with_config_json_path (Some (resolve_output args env)));;
  yaml ← gets default_config_yaml_path;
  present ← gets (λ st, path_exists (files st) yaml);
  if negb present then mret 1%Z
  else
    target ← gets config_json_path;
    match target with
    | None => raise ValueError
    | Some p =>
        backup_existing p;;
        generate_serverconfig;;
        write_config p;;
        print_summary;;
        mret 0%Z
    end.

(** [run]: any exception becomes exit code 1. *)
Definition run (args : list string) (st : state) : Z * state :=
  match run_body args st with
  | (Ok code, st') => (code, st')
  | (Raise _, st') => (1%Z, st')
  end.

(** The script: build the object, run it, exit with its code.  An
    exception of [__init__] is not caught and ends the process with
    status 1. *)
Definition main (argv : list string) (env : odict string)
    (fs : gmap (list string) node) : Z * gmap (list string) node :=
  match init env fs with
  | Raise _ => (1%Z, fs)
  | Ok st => let '(code, st') := run argv st in (code, files st')
  end.

End Methods.

Abbreviation creative := "VS_CFG_ALLOW_CREATIVE_MODE" (only parsing).
Abbreviation truthy raw := (str_in (lower raw) ["1"; "true"; "yes"]) (only parsing).

End GenerateConfig.

Module Semver.
Import Py.

(** ** Versions and tags *)

Definition digit : regex := Class is_digit.

(** [r'^\d+\.\d+\.\d+$'] *)
Definition version_re : pattern :=
  {| body := Seq (Plus digit)
               (Seq (Lit ".") (Seq (Plus digit) (Seq (Lit ".") (Plus digit))));
     dollar := true |}.

(** [r'^(feat|fix)!:'] *)
Definition breaking_re : pattern :=
  {| body := Seq (Alt (Str "feat") (Str "fix")) (Str "!:"); dollar := false |}.

(** [r'^feat:'] *)
Definition feat_re : pattern := {| body := Str "feat:"; dollar := false |}.

(** A non-empty word of digits. *)
Definition digits (s : string) : Prop :=
  s ≠ EmptyString ∧ all_chars is_digit s = true.

(** [tuple(map(int, v.split('.')))] *)
Definition version_key (v : string) : result (list Z) := mapM int (split "." v).

(** [a < b] on tuples of integers *)
Fixpoint tuple_lt (a b : list Z) : bool :=
  match a, b with
  | [], [] => false
  | [], _ :: _ => true
  | _ :: _, [] => false
  | x :: a', y :: b' => if (x =? y)%Z then tuple_lt a' b' else (x <? y)%Z
  end.

(** The order of version triples: first major, then minor, then patch. *)
Definition triple_le (a b : Z * Z * Z) : Prop :=
  let '(M, m, p) := a in
  let '(M', m', p') := b in
  (M < M' ∨ M = M' ∧ (m < m' ∨ m = m' ∧ p ≤ p'))%Z.

(** In a sorted list, [x] may stand before [y]: the key of [y] is not
    below the key of [x]. *)
Definition key_le (x y : list Z * string) : Prop := tuple_lt y.1 x.1 = false.

(** [list.sort(key=...)]: the keys are computed once, the sort is stable
    and compares keys with [<] only. *)
Fixpoint insert_sorted (kx : list Z * string) (l : list (list Z * string))
  : list (list Z * string) :=
  match l with
  | [] => [kx]
  | ky :: l' =>
      if tuple_lt ky.1 kx.1 then ky :: insert_sorted kx l' else kx :: ky :: l'
  end.

Definition sort_by_key (l : list (list Z * string)) : list (list Z * string) :=
  foldr insert_sorted [] l.

(** The tags that pass the filter of [get_last_version]. *)
Definition version_tags_of (stdout : string) : list string :=
  filter (λ tag, tag ≠ EmptyString ∧ re_match version_re tag = true)
         (split LF (strip stdout)).

(** [get_last_version]; [git_tag_l] is the outcome of [git tag -l]: its
    standard output, or the exception [subprocess.run] raised. *)
Definition get_last_version (git_tag_l : result string) : string :=
  let attempt : result string :=
    stdout ← git_tag_l;
    let version_tags := version_tags_of stdout in
    match version_tags with
    | [] => Ok "0.0.0"
    | _ =>
        keyed ← mapM (λ v, k ← version_key v; Ok (k, v)) version_tags;
        match last (sort_by_key keyed) with
        | Some kv => Ok kv.2
        | None => Raise ValueError
        end
    end in
  match attempt with
  | Ok v => v
  | Raise _ => "0.0.0"
  end.

(** ** Commits and the bump *)

Section Repository.

(** The outcome of [git show -s --format=%s%n%b] for a commit. *)
Variable git_show : string → result string.

Definition get_commit_message (commit_hash : string) : string * string :=
  match git_show commit_hash with
  | Ok stdout =>
      let lines := split1 LF stdout in
      (match lines with
       | subject :: _ => subject
       | [] => EmptyString
       end,
       match lines with
       | _ :: body :: _ => body
       | _ => EmptyString
       end)
  | Raise _ => (EmptyString, EmptyString)
  end.

(** A commit that ends the loop of [determine_bump] with [has_major]. *)
Definition is_breaking (commit_hash : string) : bool :=
  let '(subject, body) := get_commit_message commit_hash in
  contains "BREAKING CHANGE:" subject || contains "BREAKING CHANGE:" body
  || re_match breaking_re subject.

Definition is_feature (commit_hash : string) : bool :=
  re_match feat_re (get_commit_message commit_hash).1.

Record scan := mkScan {
  has_major : bool;
  has_minor : bool;
  shown : list string   (* the commits whose message was fetched *)
}.

(** The loop of [determine_bump], entered with the current [has_minor]. *)
Fixpoint bump_loop (commits : list string) (minor_so_far : bool) : scan :=
  match commits with
  | [] => mkScan false minor_so_far []
  | commit_hash :: rest =>
      let '(subject, body) := get_commit_message commit_hash in
      if contains "BREAKING CHANGE:" subject || contains "BREAKING CHANGE:" body
      then mkScan true minor_so_far [commit_hash]
      else if re_match breaking_re subject
      then mkScan true minor_so_far [commit_hash]
      else
        let r := bump_loop rest (minor_so_far || re_match feat_re subject) in
        mkScan (has_major r) (has_minor r) (commit_hash :: shown r)
  end.

Definition determine_bump (commits : list string) : string :=
  let r := bump_loop commits false in
  if has_major r then "major"
  else if has_minor r then "minor"
  else "patch".

(** [f'{major}.{minor}.{patch}'] *)
Definition format_version (major minor patch : Z) : string :=
  str_of_int major +:+ "." +:+ str_of_int minor +:+ "." +:+ str_of_int patch.

(** [increment_version]: the unpacking needs exactly three integers. *)
Definition increment_version (version bump : string) : result string :=
  parts ← mapM int (split "." version);
  match parts with
  | [major; minor; patch] =>
      let '(major, minor, patch) :=
        if String.eqb bump "major" then ((major + 1)%Z, 0%Z, 0%Z)
        else if String.eqb bump "minor" then (major, (minor + 1)%Z, 0%Z)
        else (major, minor, (patch + 1)%Z) in
      Ok (format_version major minor patch)
  | _ => Raise ValueError
  end.

(** [determine_new_version]; [None] is Python's [None]. *)
Definition determine_new_version (current_version : string) (commits : list string)
  : result (option string) :=
  match commits with
  | [] => Ok None
  | _ =>
      if String.eqb current_version "0.0.0" then Ok (Some "0.0.1")
      else
        let bump := determine_bump commits in
        new_version ← increment_version current_version bump;
        Ok (Some new_version)
  end.

End Repository.

(** ** Packaging

    The working tree: a directory is the list of its entries, each a file
    or a directory.  Paths are lists of names from the top down. *)

#[local] Unset Elimination Schemes.
Inductive tree :=
| TFile
| TDir (entries : list (string * tree)).
#[local] Set Elimination Schemes.

Definition is_dir (t : tree) : bool :=
  match t with
  | TDir _ => true
  | TFile => false
  end.

(** The node a path leads to, from the directory [t]. *)
Fixpoint lookup_path (parts : list string) (t : tree) : option tree :=
  match parts with
  | [] => Some t
  | name :: rest =>
      match t with
      | TDir entries =>
          match dict_get name entries with
          | Some sub => lookup_path rest sub
          | None => None
          end
      | TFile => None
      end
  end.

(** The directories a path goes through: all its parts but the last. *)
Definition ancestors (parts : list string) : list string := removelast parts.

Definition join_path (parts : list string) : string :=
  match parts with
  | [] => EmptyString
  | p :: ps => fold_left (λ acc q, acc +:+ "/" +:+ q) ps p
  end.

(** The names [create_zip] removes from [dirs]. *)
Definition excluded (d : string) : bool := str_in d [".git"; ".github"].

(** The loop over [os.walk('.')], with [dirs] pruned before the walk goes
    down: the paths handed to [zf.write], directory by directory, the files
    of a directory before its subdirectories. *)
Fixpoint walk_tree (root : list string) (t : tree) : list (list string) :=
  match t with
  | TFile => []
  | TDir entries =>
      map (λ e, root ++ [e.1]) (filter (λ e, is_dir e.2 = false) entries)
      ++ flat_map (λ e : string * tree,
                     let '(d, sub) := e in
                     if is_dir sub && negb (excluded d)
                     then walk_tree (root ++ [d]) sub
                     else []) entries
  end.

Definition walk_files (top : list (string * tree)) : list (list string) :=
  walk_tree [] (TDir top).

(** [open(name, 'w')] in the working tree, for a path given by its parts. *)
Fixpoint create_file (parts : list string) (entries : list (string * tree))
  : result (list (string * tree)) :=
  match parts with
  | [] => Raise IsADirectoryError
  | [name] =>
      match dict_get name entries with
      | Some (TDir _) => Raise IsADirectoryError
      | Some TFile => Ok entries
      | None => Ok (entries ++ [(name, TFile)])
      end
  | name :: rest =>
      match dict_get name entries with
      | Some (TDir sub) =>
          sub' ← create_file rest sub;
          Ok (dict_set name (TDir sub') entries)
      | Some TFile => Raise NotADirectoryError
      | None => Raise FileNotFoundError
      end
  end.

Definition archive_name (repo_name version : string) (relative_path : list string)
  : string :=
  repo_name +:+ "-" +:+ version +:+ "/" +:+ join_path relative_path.

(** The body of the loops of [create_zip]: [zf.write] for each file of the
    walk in turn, until a call raises.  [zf_write] is the outcome of
    [zf.write(file_path, arcname=archive_name)]: it returns, or it raises,
    as it does when the file read is the open archive itself and the copy
    feeds on its own output.  The result is the calls made, the failing
    one included, and the way the loop ended. *)
Fixpoint write_files (zf_write : list string → string → result ())
    (repo_name version : string) (paths : list (list string))
  : list (list string * string) * result () :=
  match paths with
  | [] => ([], Ok ())
  | file_path :: rest =>
      let arcname := archive_name repo_name version file_path in
      match zf_write file_path arcname with
      | Raise e => ([(file_path, arcname)], Raise e)
      | Ok _ =>
          let '(calls, r) := write_files zf_write repo_name version rest in
          ((file_path, arcname) :: calls, r)
      end
  end.

(** [create_zip]: the calls of [zf.write] it has made, each with the path
    read and the [arcname], and the name of the archive, or the exception
    it ends with.  The archive is opened in the working directory before
    the walk starts, so the walk sees it; its place in the listing of the
    directory is the file system's choice and is here the last. *)
Definition create_zip (zf_write : list string → string → result ())
    (repo_name version : string) (top : list (string * tree))
  : list (list string * string) * result string :=
  let zip_filename := repo_name +:+ "-" +:+ version +:+ ".zip" in
  match create_file
          (filter (λ c, c ≠ EmptyString ∧ c ≠ ".") (split "/" zip_filename)) top with
  | Raise e => ([], Raise e)
  | Ok top' =>
      let '(calls, r) := write_files zf_write repo_name version (walk_files top') in
      (calls, match r with
              | Ok _ => Ok zip_filename
              | Raise e => Raise e
              end)
  end.

(** ** The rest of the workflow

    Every command goes through [subprocess.run] with [check=True]: its
    outcome is the standard output, or the exception raised for a command
    that fails or cannot be started. *)

(** [get_commits_since_tag]; [git_rev_list] is the outcome of
    [git rev-list] for a revision argument. *)
Definition get_commits_since_tag (git_rev_list : string → result string)
    (tag : string) : list string :=
  let revision := if String.eqb tag "0.0.0" then "HEAD" else tag +:+ "..HEAD" in
  match git_rev_list revision with
  | Ok stdout =>
      map strip (filter (λ c, strip c ≠ EmptyString) (split LF (strip stdout)))
  | Raise _ => []
  end.

(** [create_git_tag]: the commands it has started, in order, and whether it
    returned; an exception is printed and raised again. *)
Definition create_git_tag (subprocess_run : list string → result string)
    (version : string) : list (list string) * result () :=
  let tag_command := ["git"; "tag"; version] in
  let push_command := ["git"; "push"; "origin"; version] in
  match subprocess_run tag_command with
  | Raise e => ([tag_command], Raise e)
  | Ok _ =>
      match subprocess_run push_command with
      | Raise e => ([tag_command; push_command], Raise e)
      | Ok _ => ([tag_command; push_command], Ok ())
      end
  end.

(** [create_github_release], in the same way. *)
Definition create_github_release (subprocess_run : list string → result string)
    (version zip_filename : string) : list (list string) * result () :=
  let release_command :=
    ["gh"; "release"; "create"; version; zip_filename;
     "--title"; "Release " +:+ version;
     "--notes"; "Automated release for version " +:+ version] in
  match subprocess_run release_command with
  | Raise e => ([release_command], Raise e)
  | Ok _ => ([release_command], Ok ())
  end.

(** What a run of the script leaves behind: the commands started by
    [create_git_tag] and [create_github_release], the archive [create_zip]
    returned with its members, and the way [main] ended. *)
Record report := mkReport {
  commands : list (list string);
  archive : option (string * list (list string * string));
  outcome : result ()
}.

(** [main]; [github_repository] is the environment variable
    [GITHUB_REPOSITORY] and [top] the working tree. *)
Definition main (subprocess_run : list string → result string)
    (zf_write : list string → string → result ())
    (github_repository : option string) (top : list (string * tree)) : report :=
  let repo_full_name := match github_repository with
                        | Some v => v
                        | None => "unknown/repo"
                        end in
  let repo_name := List.last (split "/" repo_full_name) EmptyString in
  let current_version := get_last_version (subprocess_run ["git"; "tag"; "-l"]) in
  let commits :=
    get_commits_since_tag (λ revision, subprocess_run ["git"; "rev-list"; revision])
      current_version in
  match determine_new_version
          (λ commit_hash,
             subprocess_run ["git"; "show"; "-s"; "--format=%s%n%b"; commit_hash])
          current_version commits with
  | Raise e => mkReport [] None (Raise e)
  | Ok None => mkReport [] None (Ok ())
  | Ok (Some new_version) =>
      if String.eqb new_version EmptyString then mkReport [] None (Ok ())
      else
        match create_git_tag subprocess_run new_version with
        | (started, Raise e) => mkReport started None (Raise e)
        | (started, Ok _) =>
            match create_zip zf_write repo_name new_version top with
            | (_, Raise e) => mkReport started None (Raise e)
            | (members, Ok zip_filename) =>
                let '(released, r) :=
                  create_github_release subprocess_run new_version zip_filename in
                mkReport (started ++ released) (Some (zip_filename, members)) r
            end
        end
  end.

End Semver.


(** * Data for the closed examples *)

Module Examples.
Import Py GenerateConfig Semver.

(** Stand-ins for the two library functions in the closed examples: the
    text written is a fixed one, and every YAML text but the empty one
    holds the document [defaults]. *)
Definition json_text (v : value) : string := "{}".

Definition defaults : value :=
  VDict [("ServerName", VStr "A"); ("Port", VInt 1234)].

Definition yaml_document (text : string) : result (option value) :=
  if String.eqb text EmptyString then Ok None else Ok (Some defaults).

Definition yaml_path : list string := ["server-config.yaml"; "vintagestory"].

(** A container with the defaults file and an earlier output. *)
Definition container (yaml_text : string) (output : list string)
  : gmap (list string) node :=
  <[ output := File "old" ]>
    (<[ yaml_path := File yaml_text ]>
       (<[ ["data"; "vintagestory"] := Dir ]> (<[ ["vintagestory"] := Dir ]> ∅))).

Definition default_output : list string :=
  ["serverconfig.json"; "data"; "vintagestory"].

Definition object (env : odict string) (fs : gmap (list string) node) (cfg : value)
  : state :=
  mkState env fs None yaml_path cfg.

(** The defaults of the specification and one override. *)
Definition st_server_name : state :=
  object [("VS_CFG_SERVER_NAME", "B")] (container "ServerName: A" default_output) defaults.

(** A boolean default overridden through the generic pass. *)
Definition st_upnp : state :=
  object [("VS_CFG_SERVER_UPNP", "true")] ∅ (VDict [("Upnp", VBool false)]).

(** The creative-mode variable next to a generic one. *)
Definition st_creative : state :=
  object [("VS_CFG_ALLOW_CREATIVE_MODE", "Yes"); ("VS_CFG_SERVER_UPNP", "true")] ∅
    (VDict [("WorldConfig", VDict [("AllowCreativeMode", VBool false)]);
            ("Upnp", VBool false)]).

(** A variable with the prefix that the table does not know. *)
Definition st_unknown : state :=
  object [("VS_CFG_UNKNOWN", "x")] (container "ServerName: A" default_output) defaults.

(** Complete defaults, and an output path that does not end in [.json]. *)
Definition full_defaults : value :=
  VDict [("ServerName", VStr "A"); ("Port", VInt 1234); ("MaxClients", VInt 16)].

Definition st_full (output : list string) : state :=
  object [] (container "ServerName: A" output) full_defaults.

(** A repository in which a commit is named by its subject and has no
    body: what [git show -s --format=%s%n%b] prints for it. *)
Definition subject_only (commit_hash : string) : result string :=
  Ok (commit_hash +:+ String LF (String LF EmptyString)).

(** What [git tag -l] prints for the three tags of the specification. *)
Definition tag_listing : string :=
  String.concat (String LF EmptyString) ["1.2.0"; "1.10.0"; "1.2.3"]
  +:+ String LF EmptyString.

(** A run in which every call of [zf.write] returns. *)
Definition every_write_returns (file_path : list string) (arcname : string)
  : result () := Ok ().

(** A working tree with a submodule: its [.git] is a file. *)
Definition tree_with_submodule : list (string * tree) :=
  [ ("README.md", TFile);
    (".git", TDir [("config", TFile)]);
    ("sub", TDir [(".git", TFile); ("main.py", TFile)]) ].

(** A working tree with metadata directories at two depths. *)
Definition tree_with_metadata : list (string * tree) :=
  [ ("README.md", TFile);
    (".git", TDir [("config", TFile)]);
    (".github", TDir [("workflows", TDir [("ci.yml", TFile)])]);
    ("src", TDir [("main.py", TFile); (".github", TDir [("x.yml", TFile)])]) ].

End Examples.

(** * Facts about the Python primitives *)

Module PyFacts.
Import Py.

(** ** Dictionaries *)

Lemma dict_get_set_eq {A} (k : string) (v : A) (d : odict A) :
  dict_get k (dict_set k v d) = Some v.
Proof.
  induction d as [|[k' v'] d IH]; simpl.
  - by rewrite String.eqb_refl.
  - destruct (String.eqb k k') eqn:E; simpl; rewrite ?String.eqb_refl, ?E; done.
Qed.

Lemma dict_get_set_ne {A} (k k' : string) (v : A) (d : odict A) :
  k ≠ k' → dict_get k' (dict_set k v d) = dict_get k' d.
Proof.
  intros Hne. induction d as [|[k0 v0] d IH]; simpl.
  - apply String.eqb_neq in Hne. by rewrite String.eqb_sym, Hne.
  - destruct (String.eqb k k0) eqn:E; simpl.
    + apply String.eqb_eq in E as <-.
      assert (String.eqb k' k = false) as -> by (apply String.eqb_neq; congruence).
      done.
    + by rewrite IH.
Qed.

Lemma dict_get_del_eq {A} (k : string) (d : odict A) :
  dict_get k (dict_del k d) = None.
Proof.
  induction d as [|[k' v'] d IH]; simpl; [done|].
  destruct (String.eqb k k') eqn:E; simpl; rewrite ?E; done.
Qed.

Lemma dict_get_del_ne {A} (k k' : string) (d : odict A) :
  k ≠ k' → dict_get k' (dict_del k d) = dict_get k' d.
Proof.
  intros Hne. induction d as [|[k0 v0] d IH]; simpl; [done|].
  destruct (String.eqb k k0) eqn:E; simpl.
  - apply String.eqb_eq in E as <-.
    assert (String.eqb k' k = false) as -> by (apply String.eqb_neq; congruence).
    done.
  - by rewrite IH.
Qed.

Lemma dict_del_keys {A} (k : string) (d : odict A) (k' : string) :
  k' ∈ (dict_del k d).*1 ↔ k' ∈ d.*1 ∧ k' ≠ k.
Proof.
  induction d as [|[k0 v0] d IH]; simpl.
  - split; [intros H; inversion H | intros [H _]; inversion H].
  - destruct (String.eqb k k0) eqn:E.
    + apply String.eqb_eq in E as <-. rewrite IH, elem_of_cons. tauto.
    + apply String.eqb_neq in E. simpl. rewrite !elem_of_cons, IH.
      split; [intros [->|[? ?]]; split; auto; congruence | tauto].
Qed.

Lemma dict_get_Some_key {A} (k : string) (d : odict A) (v : A) :
  dict_get k d = Some v → k ∈ d.*1.
Proof.
  induction d as [|[k0 v0] d IH]; simpl; [done|].
  destruct (String.eqb k k0) eqn:E.
  - apply String.eqb_eq in E as <-. intros _. apply elem_of_cons. by left.
  - intros H. apply elem_of_cons. right. by apply IH.
Qed.

Lemma dict_get_key_Some {A} (k : string) (d : odict A) :
  k ∈ d.*1 → is_Some (dict_get k d).
Proof.
  induction d as [|[k0 v0] d IH]; simpl.
  - intros H. inversion H.
  - intros H. destruct (String.eqb k k0) eqn:E; [by eexists|].
    apply String.eqb_neq in E. apply elem_of_cons in H as [H|H]; [done|]. by apply IH.
Qed.

Lemma dict_get_elem {A} (k : string) (d : odict A) (v : A) :
  dict_get k d = Some v → (k, v) ∈ d.
Proof.
  induction d as [|[k0 v0] d IH]; simpl; [done|].
  destruct (String.eqb k k0) eqn:E.
  - apply String.eqb_eq in E as <-. intros [= <-]. apply elem_of_cons. by left.
  - intros H. apply elem_of_cons. right. by apply IH.
Qed.

(** After [d.update(o)], a key that [o] does not hold reads as before. *)
Lemma dict_update_other {A} (d o : odict A) (k : string) :
  k ∉ o.*1 → dict_get k (dict_update d o) = dict_get k d.
Proof.
  unfold dict_update. revert d. induction o as [|[k0 v0] o IH]; intros d Hk; simpl; [done|].
  simpl in Hk. apply not_elem_of_cons in Hk as [Hne Hk].
  rewrite IH by done. by apply dict_get_set_ne.
Qed.

(** After [d.update(o)], a key of [o] reads as [o] gives it, provided [o]
    gives it one value. *)
Lemma dict_update_entry {A} (d o : odict A) (k : string) (v : A) :
  (k, v) ∈ o → (∀ v', (k, v') ∈ o → v' = v) →
  dict_get k (dict_update d o) = Some v.
Proof.
  unfold dict_update. revert d. induction o as [|[k0 v0] o IH]; intros d Hin Hfun; simpl.
  - inversion Hin.
  - destruct (decide (k ∈ o.*1)) as [Hk|Hk].
    + apply list_elem_of_fmap in Hk as [[k1 v1] [Hk1 Hin1]]. simpl in Hk1. subst k1.
      assert (v1 = v) as -> by (apply Hfun; apply elem_of_cons; by right).
      apply IH; [done|]. intros v' Hv'. apply Hfun. apply elem_of_cons. by right.
    + apply elem_of_cons in Hin as [Heq|Hin].
      * injection Heq as <- <-. simpl.
        fold (dict_update (dict_set k v d) o). rewrite dict_update_other by done.
        apply dict_get_set_eq.
      * exfalso. apply Hk. apply list_elem_of_fmap. by exists (k, v).
Qed.

(** ** [mapM] in the result monad *)

Lemma mapM_cons {A B} (f : A → result B) (x : A) (l : list A) :
  mapM f (x :: l) =
  match f x with
  | Ok y => match mapM f l with
            | Ok k => Ok (y :: k)
            | Raise e => Raise e
            end
  | Raise e => Raise e
  end.
Proof. reflexivity. Qed.

Lemma mapM_Ok_inv {A B} (f : A → result B) (l : list A) (ks : list B) :
  mapM f l = Ok ks → Forall2 (λ x y, f x = Ok y) l ks.
Proof.
  revert ks. induction l as [|x l IH]; intros ks.
  - intros [= <-]. constructor.
  - rewrite mapM_cons. destruct (f x) eqn:Hx; [|done].
    destruct (mapM f l) eqn:Hl; [|done]. intros [= <-]. constructor; auto.
Qed.

Lemma mapM_Ok_intro {A B} (f : A → result B) (l : list A) :
  Forall (λ x, ∃ y, f x = Ok y) l → ∃ ks, mapM f l = Ok ks.
Proof.
  induction 1 as [|x l [y Hy] _ [ks IH]].
  - by eexists.
  - rewrite mapM_cons, Hy, IH. by eexists.
Qed.

Lemma mapM_Raise_intro {A B} (f : A → result B) (l : list A) (x : A) (e : exn) :
  x ∈ l → f x = Raise e → ∃ e', mapM f l = Raise e'.
Proof.
  intros Hin Hx. induction l as [|y l IH]; [inversion Hin|].
  rewrite mapM_cons. destruct (f y) eqn:Hy; [|by eexists].
  apply elem_of_cons in Hin as [->|Hin]; [congruence|].
  destruct (IH Hin) as [e' ->]. by eexists.
Qed.

End PyFacts.

(** * The configuration generator *)

Module GenerateConfigFacts.
Import Py PyFacts GenerateConfig.

#[local] Arguments str_in : simpl never.
#[local] Arguments overrides_of : simpl never.

Ltac munfold :=
  unfold environ_pop, environ_getitem, getenv, fs_op, raise in *;
  unfold mbind, M_bind, mret, M_ret, gets, modify, lift in *.

(** *** The translation table *)

Lemma NoDup_snd_inj {A B} (d : list (A * B)) (k1 k2 : A) (f : B) :
  NoDup d.*2 → (k1, f) ∈ d → (k2, f) ∈ d → k1 = k2.
Proof.
  induction d as [|[k0 f0] d IH]; simpl; intros Hnd H1 H2; [inversion H1|].
  apply NoDup_cons in Hnd as [Hf0 Hnd].
  apply elem_of_cons in H1 as [H1|H1], H2 as [H2|H2].
  - congruence.
  - injection H1 as -> ->. exfalso. apply Hf0. apply list_elem_of_fmap. by exists (k2, f0).
  - injection H2 as -> ->. exfalso. apply Hf0. apply list_elem_of_fmap. by exists (k1, f0).
  - by apply IH.
Qed.

Lemma env_setting_map_fields_NoDup : NoDup env_setting_map.*2.
Proof. apply (bool_decide_unpack _). vm_compute. reflexivity. Qed.

Lemma env_setting_map_inj (k1 k2 field : string) :
  dict_get k1 env_setting_map = Some field →
  dict_get k2 env_setting_map = Some field → k1 = k2.
Proof.
  intros H1 H2. eapply NoDup_snd_inj; eauto using env_setting_map_fields_NoDup, dict_get_elem.
Qed.

Lemma env_setting_map_no_WorldConfig (k : string) :
  dict_get k env_setting_map ≠ Some "WorldConfig".
Proof.
  intros H. apply dict_get_elem in H.
  assert (Hin : "WorldConfig" ∈ env_setting_map.*2).
  { apply list_elem_of_fmap. by exists (k, "WorldConfig"). }
  revert Hin. apply (bool_decide_unpack _). vm_compute. reflexivity.
Qed.

(** *** Dictionary updates keep keys apart *)

Lemma dict_set_keys {A} (k k' : string) (v : A) (d : odict A) :
  k' ∈ (dict_set k v d).*1 ↔ k' = k ∨ k' ∈ d.*1.
Proof.
  induction d as [|[k0 v0] d IH]; simpl.
  - rewrite elem_of_cons. tauto.
  - destruct (String.eqb k k0) eqn:E; simpl.
    + apply String.eqb_eq in E as <-. rewrite !elem_of_cons. tauto.
    + rewrite !elem_of_cons, IH. tauto.
Qed.

Lemma dict_update_keys {A} (d o : odict A) (k : string) :
  k ∈ (dict_update d o).*1 → k ∈ d.*1 ∨ k ∈ o.*1.
Proof.
  unfold dict_update. revert d. induction o as [|[k0 v0] o IH]; intros d; simpl; [tauto|].
  intros H. apply IH in H as [H|H].
  - apply dict_set_keys in H as [->|H]; [right; apply elem_of_cons; by left | by left].
  - right. apply elem_of_cons. by right.
Qed.

Lemma dict_get_None_key {A} (k : string) (d : odict A) :
  k ∉ d.*1 → dict_get k d = None.
Proof.
  intros H. destruct (dict_get k d) eqn:E; [|done].
  exfalso. apply H. by eapply dict_get_Some_key.
Qed.

(** [d.update(o)] read at any key, for a dictionary [o]. *)
Lemma dict_update_get {A} (d o : odict A) (k : string) :
  NoDup o.*1 →
  dict_get k (dict_update d o) =
  match dict_get k o with
  | Some v => Some v
  | None => dict_get k d
  end.
Proof.
  intros Hnd. destruct (dict_get k o) as [v|] eqn:E.
  - apply dict_update_entry; [by apply dict_get_elem|].
    intros v' Hv'. apply dict_get_elem in E.
    clear d. induction o as [|[k0 v0] o IH]; [inversion E|].
    simpl in Hnd. apply NoDup_cons in Hnd as [Hk0 Hnd].
    apply elem_of_cons in E as [E|E], Hv' as [Hv'|Hv'].
    + congruence.
    + injection E as -> ->. exfalso. apply Hk0. apply list_elem_of_fmap. by exists (k0, v').
    + injection Hv' as -> ->. exfalso. apply Hk0. apply list_elem_of_fmap. by exists (k0, v).
    + by apply IH.
  - apply dict_update_other. intros Hk. apply dict_get_key_Some in Hk as [? ?]. congruence.
Qed.

Lemma dict_set_NoDup {A} (k : string) (v : A) (d : odict A) :
  NoDup d.*1 → NoDup (dict_set k v d).*1.
Proof.
  induction d as [|[k0 v0] d IH]; simpl; intros Hnd.
  - apply NoDup_singleton.
  - apply NoDup_cons in Hnd as [Hk0 Hnd].
    destruct (String.eqb k k0) eqn:E; simpl.
    + apply String.eqb_eq in E as <-. by apply NoDup_cons.
    + apply String.eqb_neq in E. apply NoDup_cons. split; [|by apply IH].
      rewrite dict_set_keys. intros [?|?]; [congruence|done].
Qed.

Lemma dict_update_NoDup {A} (d o : odict A) :
  NoDup d.*1 → NoDup (dict_update d o).*1.
Proof.
  unfold dict_update. revert d. induction o as [|[k0 v0] o IH]; intros d Hnd; simpl; [done|].
  apply IH. by apply dict_set_NoDup.
Qed.

(** *** The generic overrides *)

(** What the comprehension builds, when no lookup fails. *)
Lemma overrides_of_Ok (env : odict string) (o : odict value) :
  overrides_of env = Ok o →
  NoDup o.*1
  ∧ (∀ env_key field raw,
        startswith "VS_CFG_" env_key = true →
        dict_get env_key env = Some raw →
        dict_get env_key env_setting_map = Some field →
        dict_get field o = Some (VStr raw))
  ∧ (∀ field, field ∈ o.*1 →
        ∃ env_key, env_key ∈ env.*1 ∧ startswith "VS_CFG_" env_key = true
                   ∧ dict_get env_key env_setting_map = Some field).
Proof.
  unfold overrides_of. unfold mbind at 1, result_bind.
  destruct (mapM _ _) as [es|] eqn:Hes; [|done]. intros [= <-].
  apply mapM_Ok_inv in Hes.
  split; [apply dict_update_NoDup, NoDup_nil_2|]. split.
  - intros env_key field raw Hpre Hraw Hfield.
    apply dict_update_entry.
    + assert (Hin : env_key ∈ filter (λ k, startswith "VS_CFG_" k = true) env.*1).
      { apply list_elem_of_filter. split; [done|]. by eapply dict_get_Some_key. }
      clear -Hes Hin Hraw Hfield.
      induction Hes as [|k y ks ys Hy _ IH]; [inversion Hin|].
      apply elem_of_cons in Hin as [<-|Hin].
      * rewrite Hfield, Hraw in Hy. injection Hy as <-. apply elem_of_cons. by left.
      * apply elem_of_cons. right. by apply IH.
    + intros v' Hv'. clear Hpre.
      induction Hes as [|k y ks ys Hy _ IH]; [inversion Hv'|].
      apply elem_of_cons in Hv' as [<-|Hv']; [|by apply IH].
      destruct (dict_get k env_setting_map) as [f|] eqn:Hf; [|done].
      destruct (dict_get k env) as [r|] eqn:Hr; [|done].
      injection Hy as Ef Ev. subst f v'.
      assert (k = env_key) as -> by (by eapply env_setting_map_inj). congruence.
  - intros field Hin. apply dict_update_keys in Hin as [Hin|Hin]; [inversion Hin|].
    assert (Hl : Forall (λ k, k ∈ env.*1 ∧ startswith "VS_CFG_" k = true)
                   (filter (λ k, startswith "VS_CFG_" k = true) env.*1)).
    { apply Forall_forall. intros k Hk. apply list_elem_of_filter in Hk. tauto. }
    revert Hl. induction Hes as [|k y ks ys Hy _ IH]; intros Hl; [inversion Hin|].
    apply Forall_cons in Hl as [[Hk Hpre] Hl].
    simpl in Hin. apply elem_of_cons in Hin as [->|Hin]; [|by apply IH].
    destruct (dict_get k env_setting_map) as [f|] eqn:Hf; [|done].
    destruct (dict_get k env) as [r|] eqn:Hr; [|done].
    injection Hy as <-. simpl. by exists k.
Qed.

(** *** The two passes of [generate_serverconfig] *)

Lemma creative_mode_pass_absent (st : state) :
  dict_get creative (environ st) = None → creative_mode_pass st = (Ok (), st).
Proof. intros H. unfold creative_mode_pass. munfold. by rewrite H. Qed.

Lemma creative_mode_pass_present (st : state) (raw : string) :
  dict_get creative (environ st) = Some raw →
  creative_mode_pass st =
  let st1 := with_environ (dict_del creative (environ st)) st in
  match getitem (config st) "WorldConfig" with
  | Ok world =>
      match setitem world "AllowCreativeMode" (VBool (truthy raw)) with
      | Ok world' =>
          match setitem (config st) "WorldConfig" world' with
          | Ok cfg' => (Ok (), with_config cfg' st1)
          | Raise e => (Raise e, st1)
          end
      | Raise e => (Raise e, st1)
      end
  | Raise e => (Raise e, st1)
  end.
Proof. intros H. unfold creative_mode_pass. munfold. rewrite H. simpl. rewrite H. reflexivity. Qed.

Lemma bulk_pass_unfold (st : state) :
  bulk_pass st =
  match overrides_of (environ st) with
  | Ok o =>
      match update (config st) o with
      | Ok cfg' => (Ok (), with_config cfg' st)
      | Raise e => (Raise e, st)
      end
  | Raise e => (Raise e, st)
  end.
Proof. reflexivity. Qed.

Lemma generate_serverconfig_unfold (st : state) :
  generate_serverconfig st =
  match creative_mode_pass st with
  | (Ok _, st1) => bulk_pass st1
  | (Raise e, st1) => (Raise e, st1)
  end.
Proof. reflexivity. Qed.

(** The state after a call that returns. *)
Lemma generate_serverconfig_Ok (st st' : state) :
  generate_serverconfig st = (Ok (), st') →
  ∃ d1 o,
    overrides_of (environ st') = Ok o
    ∧ config st' = VDict (dict_update d1 o)
    ∧ files st' = files st
    ∧ config_json_path st' = config_json_path st
    ∧ default_config_yaml_path st' = default_config_yaml_path st
    ∧ match dict_get creative (environ st) with
      | Some raw =>
          environ st' = dict_del creative (environ st)
          ∧ ∃ d world,
              config st = VDict d
              ∧ dict_get "WorldConfig" d = Some (VDict world)
              ∧ d1 = dict_set "WorldConfig"
                       (VDict (dict_set "AllowCreativeMode" (VBool (truthy raw)) world)) d
      | None => environ st' = environ st ∧ config st = VDict d1
      end.
Proof.
  rewrite generate_serverconfig_unfold.
  destruct (dict_get creative (environ st)) as [raw|] eqn:Hc.
  - rewrite (creative_mode_pass_present st raw Hc). cbv zeta.
    destruct (config st) as [| | | | |d] eqn:Hcfg; try done. simpl.
    destruct (dict_get "WorldConfig" d) as [[| | | | |world]|] eqn:Hw; try done. simpl.
    rewrite bulk_pass_unfold. simpl.
    destruct (overrides_of _) as [o|] eqn:Ho; [|done]. simpl.
    intros [= <-]. eexists _, o. simpl. repeat split; eauto.
  - rewrite (creative_mode_pass_absent st Hc), bulk_pass_unfold.
    destruct (overrides_of _) as [o|] eqn:Ho; [|done].
    destruct (config st) as [| | | | |d] eqn:Hcfg; try done. simpl.
    intros [= <-]. exists d, o. simpl. repeat split; eauto.
Qed.

(** A call that returns has stored the raw string of every generic
    override and has left alone the keys no variable translates to. *)
Lemma generate_serverconfig_merge (st st' : state) :
  generate_serverconfig st = (Ok (), st') →
  (∀ env_key field raw,
      env_key ≠ creative →
      startswith "VS_CFG_" env_key = true →
      dict_get env_key (environ st) = Some raw →
      dict_get env_key env_setting_map = Some field →
      getitem (config st') field = Ok (VStr raw))
  ∧ (∀ key,
      (∀ env_key, env_key ∈ (environ st).*1 → env_key ≠ creative →
                  startswith "VS_CFG_" env_key = true →
                  dict_get env_key env_setting_map ≠ Some key) →
      (key = "WorldConfig" → dict_get creative (environ st) = None) →
      getitem (config st') key = getitem (config st) key).
Proof.
  intros Hrun. apply generate_serverconfig_Ok in Hrun
    as (d1 & o & Ho & Hcfg' & _ & _ & _ & Hpre).
  apply overrides_of_Ok in Ho as (Hnd & Hin & Hout).
  assert (Henv : ∀ k, k ≠ creative →
            dict_get k (environ st') = dict_get k (environ st)).
  { intros k Hk. destruct (dict_get creative (environ st)); destruct Hpre as [-> _];
      [by apply dict_get_del_ne|done]. }
  assert (Hkeys : ∀ k, k ∈ (environ st').*1 → k ∈ (environ st).*1 ∧ k ≠ creative
                       ∨ dict_get creative (environ st) = None ∧ k ∈ (environ st).*1).
  { intros k Hk. destruct (dict_get creative (environ st)); destruct Hpre as [E _];
      rewrite E in Hk; [left; by apply dict_del_keys in Hk | by right]. }
  split.
  - intros env_key field raw Hne Hp Hraw Hfield.
    rewrite Hcfg'. simpl. rewrite dict_update_get by done.
    rewrite (Hin env_key field raw); rewrite ?Henv; done.
  - intros key Hno Hworld.
    rewrite Hcfg'. simpl. rewrite dict_update_get by done.
    destruct (dict_get key o) as [v|] eqn:Hv.
    { exfalso. apply dict_get_Some_key, Hout in Hv as (k & Hk & Hp & Hf).
      destruct (decide (k = creative)) as [->|Hne].
      - apply Hkeys in Hk as [[_ ?]|[Hnone Hk]]; [done|].
        apply dict_get_key_Some in Hk as [? ?]. congruence.
      - apply (Hno k); [|done..]. apply Hkeys in Hk. tauto. }
    destruct (dict_get creative (environ st)) as [raw|].
    + destruct Hpre as (_ & d & world & -> & Hw & ->). simpl.
      rewrite dict_get_set_ne; [done|]. intros <-. by specialize (Hworld eq_refl).
    + destruct Hpre as [_ ->]. done.
Qed.

(** The comprehension succeeds when the table knows every variable with
    the prefix. *)
Lemma overrides_of_returns (env : odict string) :
  (∀ env_key, env_key ∈ env.*1 → startswith "VS_CFG_" env_key = true →
              is_Some (dict_get env_key env_setting_map)) →
  ∃ o, overrides_of env = Ok o.
Proof.
  intros Hknown. unfold overrides_of. unfold mbind at 1.
  match goal with
  | |- context [mapM ?f ?l] => destruct (mapM_Ok_intro f l) as [es Hes]
  end.
  { apply Forall_forall. intros k [Hp Hk]%list_elem_of_filter.
    destruct (Hknown k Hk Hp) as [field ->].
    destruct (dict_get_key_Some k env Hk) as [raw ->]. by eexists. }
  rewrite Hes. by eexists.
Qed.

(** When [generate_serverconfig] returns: the configuration is a mapping,
    with a [WorldConfig] mapping inside if the creative-mode variable is
    set, and the table knows every other variable with the prefix. *)
Lemma generate_serverconfig_returns (st : state) (d : odict value) :
  config st = VDict d →
  (is_Some (dict_get creative (environ st)) →
   ∃ world, dict_get "WorldConfig" d = Some (VDict world)) →
  (∀ env_key, env_key ∈ (environ st).*1 → env_key ≠ creative →
              startswith "VS_CFG_" env_key = true →
              is_Some (dict_get env_key env_setting_map)) →
  ∃ st', generate_serverconfig st = (Ok (), st').
Proof.
  intros Hcfg Hworld Hknown. rewrite generate_serverconfig_unfold.
  destruct (dict_get creative (environ st)) as [raw|] eqn:Hc.
  - destruct Hworld as [world Hw]; [by eexists|].
    rewrite (creative_mode_pass_present st raw Hc), Hcfg. simpl. rewrite Hw. simpl.
    rewrite bulk_pass_unfold. simpl.
    destruct (overrides_of_returns (dict_del creative (environ st))) as [o ->].
    { intros k [Hk Hne]%dict_del_keys Hp. by apply Hknown. }
    by eexists.
  - rewrite (creative_mode_pass_absent st Hc), bulk_pass_unfold.
    destruct (overrides_of_returns (environ st)) as [o ->].
    { intros k Hk Hp. apply Hknown; [done| |done]. intros ->.
      apply dict_get_key_Some in Hk as [? ?]. congruence. }
    rewrite Hcfg. by eexists.
Qed.

(** *** Strings and suffixes *)

Lemma length_append (s t : string) :
  String.length (s +:+ t) = String.length s + String.length t.
Proof. induction s as [|a s IH]; simpl; [done|]. by rewrite IH. Qed.

Lemma substring_append_l (s t : string) :
  substring 0 (String.length s) (s +:+ t) = s.
Proof.
  induction s as [|a s IH]; simpl.
  - by destruct t.
  - by rewrite IH.
Qed.

Lemma substring_all (t : string) : substring 0 (String.length t) t = t.
Proof. induction t as [|b t IHt]; simpl; [done|]. by rewrite IHt. Qed.

Lemma substring_append_r (s t : string) :
  substring (String.length s) (String.length t) (s +:+ t) = t.
Proof. induction s as [|a s IH]; simpl; [apply substring_all|exact IH]. Qed.

Lemma rfind_append_dot (s t : string) :
  rfind "." t = Some 0 → rfind "." (s +:+ t) = Some (String.length s).
Proof.
  intros Ht. induction s as [|a s IH]; simpl; [done|]. by rewrite IH.
Qed.

(** A name that ends in [.json] after a non-empty stem has that suffix. *)
Lemma suffix_json (stem : string) :
  stem ≠ EmptyString → suffix (stem +:+ ".json") = ".json".
Proof.
  intros Hstem. unfold suffix.
  rewrite (rfind_append_dot stem ".json") by reflexivity.
  rewrite length_append. simpl String.length.
  assert (0 < String.length stem) by (destruct stem; simpl; [done|lia]).
  replace (0 <? String.length stem) with true by (symmetry; apply Nat.ltb_lt; lia).
  replace (String.length stem <? String.length stem + 5 - 1) with true
    by (symmetry; apply Nat.ltb_lt; lia).
  simpl. replace (String.length stem + 5 - String.length stem) with (String.length ".json")
    by (simpl; lia).
  apply substring_append_r.
Qed.

(** For such a name the backup path is the path with [.backup] added. *)
Lemma with_suffix_json (stem : string) (parent : list string) :
  stem ≠ EmptyString →
  with_suffix ((stem +:+ ".json") :: parent) ".json.backup"
  = Ok ((stem +:+ ".json" +:+ ".backup") :: parent).
Proof.
  intros Hstem. unfold with_suffix.
  assert (String.eqb (stem +:+ ".json") EmptyString = false) as ->.
  { apply String.eqb_neq. by destruct stem. }
  rewrite suffix_json by done. rewrite length_append. simpl String.length.
  replace (String.length stem + 5 - 5) with (String.length stem) by lia.
  rewrite substring_append_l. do 3 f_equal.
Qed.

(** *** The file system *)

Lemma node_at_cons (fs : gmap (list string) node) (name : string) (parent : list string) :
  node_at fs (name :: parent) = fs !! (name :: parent).
Proof. reflexivity. Qed.

(** [mkdir] with [parents] and [exist_ok] keeps every node there is. *)
Lemma mkdir_parents_keeps (p : list string) (fs fs' : gmap (list string) node)
    (k : list string) (n : node) :
  mkdir_parents p fs = Ok fs' → fs !! k = Some n → fs' !! k = Some n.
Proof.
  revert fs'. induction p as [|name parent IH]; intros fs' Hmk Hk; simpl in Hmk.
  - by injection Hmk as <-.
  - destruct (fs !! (name :: parent)) as [[c|]|] eqn:Hp; try done.
    { by injection Hmk as <-. }
    assert (Hins : (<[name :: parent := Dir]> fs) !! k = Some n).
    { rewrite lookup_insert_ne; [done|]. intros <-. congruence. }
    destruct (node_at fs parent) as [[c|]|] eqn:Hparent; try done.
    + by injection Hmk as <-.
    + unfold mbind, result_bind in Hmk.
      destruct (mkdir_parents parent fs) as [fs1|] eqn:Hrec; [|done].
      injection Hmk as <-. specialize (IH fs1 eq_refl Hk).
      rewrite lookup_insert_ne; [done|]. intros <-. congruence.
Qed.

(** *** The steps of [run] *)

Section Run.

Variable json_dumps : value → string.

(** [run], step by step. *)
Lemma run_unfold (args : list string) (st : state) :
  run json_dumps args st =
  let p := resolve_output args (environ st) in
  let st0 := with_config_json_path (Some p) st in
  if negb (path_exists (files st) (default_config_yaml_path st)) then (1%Z, st0)
  else
    match backup_existing p st0 with
    | (Ok _, st1) =>
        match generate_serverconfig st1 with
        | (Ok _, st2) =>
            match write_config json_dumps p st2 with
            | (Ok _, st3) =>
                match print_summary st3 with
                | (Ok _, st4) => (0%Z, st4)
                | (Raise _, st4) => (1%Z, st4)
                end
            | (Raise _, st3) => (1%Z, st3)
            end
        | (Raise _, st2) => (1%Z, st2)
        end
    | (Raise _, st1) => (1%Z, st1)
    end.
Proof.
  unfold run, run_body. munfold. simpl.
  destruct (negb _); [done|].
  change (config_json_path (with_config_json_path ?x ?s)) with x. cbv beta iota.
  destruct (backup_existing _ _) as [[[]|] st1]; [|done].
  destruct (generate_serverconfig st1) as [[[]|] st2]; [|done].
  destruct (write_config _ _ st2) as [[[]|] st3]; [|done].
  destruct (print_summary st3) as [[[]|] st4]; done.
Qed.

(** The backup step touches the file system only. *)
Lemma backup_existing_frame (p : list string) (st st1 : state) (r : result ()) :
  backup_existing p st = (r, st1) →
  environ st1 = environ st ∧ config st1 = config st
  ∧ config_json_path st1 = config_json_path st
  ∧ default_config_yaml_path st1 = default_config_yaml_path st.
Proof.
  unfold backup_existing. munfold. simpl.
  repeat (case_match; simplify_eq/=); intros; simplify_eq/=; done.
Qed.

(** The backup step on an existing file: the file now sits at the backup
    path, whatever was there before. *)
Lemma backup_existing_Ok (p : list string) (st st1 : state) (prior : string) :
  backup_existing p st = (Ok (), st1) →
  node_at (files st) p = Some (File prior) →
  ∃ backup_path,
    with_suffix p ".json.backup" = Ok backup_path
    ∧ backup_path ≠ p
    ∧ files st1 !! backup_path = Some (File prior).
Proof.
  intros Hrun Hp. unfold backup_existing in Hrun. munfold. simpl in Hrun.
  assert (path_exists (files st) p = true) as Hex.
  { unfold path_exists. rewrite Hp. apply bool_decide_eq_true_2. by eexists. }
  rewrite Hex in Hrun.
  destruct (with_suffix p ".json.backup") as [b|] eqn:Hb; [|done].
  exists b. split; [done|].
  assert (Hbne : b ≠ []).
  { unfold with_suffix in Hb. destruct p as [|name parent]; [done|].
    destruct (String.eqb name EmptyString); [done|]. by injection Hb as <-. }
  assert (Hnodeb : ∀ fs : gmap (list string) node, node_at fs b = fs !! b)
    by (intros; by destruct b).
  set (fs := files st) in *.
  assert (∃ fs1, (fs1 = fs ∨ fs1 = delete b fs) ∧ fs1 !! b = None
                 ∧ rename fs1 p b = Ok (files st1)) as (fs1 & Hfs1 & Hb1 & Hren).
  { destruct (path_exists fs b) eqn:Hstale; cbv beta iota in Hrun; fold fs in Hrun.
    - destruct (unlink fs b) as [fs1|] eqn:Hun; [|done]. simpl in Hrun.
      unfold unlink in Hun. destruct (node_at fs b) as [[c|]|]; try done.
      injection Hun as <-. exists (delete b fs). split; [by right|].
      split; [apply lookup_delete_eq|].
      destruct (rename (delete b fs) p b); simplify_eq/=. done.
    - exists fs. split; [by left|]. split.
      + unfold path_exists in Hstale. apply bool_decide_eq_false in Hstale.
        rewrite Hnodeb in Hstale. destruct (fs !! b) eqn:E; [|done].
        exfalso. apply Hstale. by eexists.
      + simpl in Hrun. destruct (rename fs p b); simplify_eq/=. done. }
  unfold rename in Hren. rewrite (Hnodeb fs1), Hb1 in Hren.
  assert (Hpne : p ≠ []) by (intros ->; done).
  assert (Hnodep : ∀ fs : gmap (list string) node, node_at fs p = fs !! p)
    by (intros; by destruct p).
  rewrite Hnodep in Hp, Hren.
  destruct (decide (b = p)) as [->|Hne].
  { rewrite Hb1 in Hren. done. }
  split; [done|].
  assert (fs1 !! p = Some (File prior)) as Hp1.
  { destruct Hfs1 as [->| ->]; [done|]. by rewrite lookup_delete_ne. }
  rewrite Hp1 in Hren.
  destruct (node_at fs1 (tail b)) as [[c|]|]; try done.
  injection Hren as <-. apply lookup_insert_eq.
Qed.

(** The two steps that write. *)
Lemma write_config_Ok (p : list string) (st st3 : state) :
  write_config json_dumps p st = (Ok (), st3) →
  environ st3 = environ st ∧ config st3 = config st
  ∧ files st3 !! p = Some (File (json_dumps (config st)))
  ∧ (∀ k n, k ≠ p → files st !! k = Some n → files st3 !! k = Some n).
Proof.
  unfold write_config. munfold. simpl.
  destruct (mkdir_parents (tail p) (files st)) as [fs2|] eqn:Hmk; [|done]. simpl.
  destruct (write_text fs2 p _) as [fs3|] eqn:Hwr; [|done]. simpl.
  intros [= <-]. simpl. split; [done|]. split; [done|].
  unfold write_text in Hwr.
  assert (fs3 = <[p := File (json_dumps (config st))]> fs2) as ->.
  { repeat (case_match; simplify_eq/=); done. }
  split.
  - apply lookup_insert_eq.
  - intros k n Hk Hn. rewrite lookup_insert_ne by done.
    by eapply mkdir_parents_keeps.
Qed.

Lemma write_config_frame (p : list string) (st st3 : state) (r : result ()) :
  write_config json_dumps p st = (r, st3) →
  environ st3 = environ st ∧ config st3 = config st.
Proof.
  unfold write_config. munfold. simpl.
  repeat (case_match; simplify_eq/=); intros; simplify_eq/=; done.
Qed.

(** The summary reads three keys and changes nothing. *)
Lemma print_summary_unfold (st : state) :
  print_summary st =
  match getitem (config st) "ServerName" with
  | Ok _ =>
      match getitem (config st) "Port" with
      | Ok _ =>
          match getitem (config st) "MaxClients" with
          | Ok _ => (Ok (), st)
          | Raise e => (Raise e, st)
          end
      | Raise e => (Raise e, st)
      end
  | Raise e => (Raise e, st)
  end.
Proof. unfold print_summary. munfold. simpl. by repeat case_match. Qed.

End Run.

End GenerateConfigFacts.

(** * Claims about the configuration generator *)

Module GenerateConfigClaims.
Import Py PyFacts GenerateConfig GenerateConfigFacts Examples.

#[local] Arguments str_in : simpl never.

(** ** C1 *)

(** C1, as stated, fails: the override [VS_CFG_SERVER_UPNP=true] of the
    boolean default [Upnp: false] is merged as the string ["true"], and no
    boolean is stored for it. *)
Lemma boolean_override_kept_as_string :
  (generate_serverconfig st_upnp).1 = Ok ()
  ∧ environ st_upnp = [("VS_CFG_SERVER_UPNP", "true")]
  ∧ dict_get "VS_CFG_SERVER_UPNP" env_setting_map = Some "Upnp"
  ∧ getitem (config st_upnp) "Upnp" = Ok (VBool false)
  ∧ getitem (config (generate_serverconfig st_upnp).2) "Upnp" = Ok (VStr "true")
  ∧ ¬ ∃ b, getitem (config (generate_serverconfig st_upnp).2) "Upnp"
           = Ok (VBool b).
Proof.
  vm_compute. repeat split; try reflexivity. intros [b Hb]. discriminate Hb.
Qed.

(** C1, amended: only the creative-mode variable is normalized.  With
    the variable set to [raw], a [WorldConfig] mapping in the configuration
    and every other variable with the prefix known to the table,
    [generate_serverconfig] returns, and then the variable has been read as
    a boolean, true exactly for the tokens [1], [true] and [yes] in any
    letter case, stored at [config["WorldConfig"]["AllowCreativeMode"]] and
    taken out of the environment; every other override, of a boolean field
    or not, is merged as its raw string. *)
Theorem creative_mode_normalized (st : state) (d world : odict value) (raw : string) :
  config st = VDict d →
  dict_get "WorldConfig" d = Some (VDict world) →
  dict_get creative (environ st) = Some raw →
  (∀ env_key, env_key ∈ (environ st).*1 → env_key ≠ creative →
              startswith "VS_CFG_" env_key = true →
              is_Some (dict_get env_key env_setting_map)) →
  ∃ st',
    generate_serverconfig st = (Ok (), st')
    ∧ (w ← getitem (config st') "WorldConfig"; getitem w "AllowCreativeMode")
      = Ok (VBool (truthy raw))
    ∧ (truthy raw = true ↔ lower raw = "1" ∨ lower raw = "true" ∨ lower raw = "yes")
    ∧ dict_get creative (environ st') = None
    ∧ (∀ env_key field raw',
          env_key ≠ creative →
          startswith "VS_CFG_" env_key = true →
          dict_get env_key (environ st) = Some raw' →
          dict_get env_key env_setting_map = Some field →
          getitem (config st') field = Ok (VStr raw')).
Proof.
  intros Hcfg Hw Hraw Hknown.
  destruct (generate_serverconfig_returns st d Hcfg) as [st' Hrun]; [by eauto|done|].
  exists st'. split; [done|]. split; [|split; [|split]].
  - pose proof (generate_serverconfig_Ok st st' Hrun)
      as (d1 & o & Ho & Hcfg' & _ & _ & _ & Hpre).
    rewrite Hraw in Hpre. destruct Hpre as (_ & d0 & world0 & Hcfg0 & Hw0 & ->).
    apply overrides_of_Ok in Ho as (Hnd & _ & Hout).
    rewrite Hcfg'. simpl. rewrite dict_update_get by done.
    destruct (dict_get "WorldConfig" o) as [v|] eqn:Hv.
    { exfalso. apply dict_get_Some_key, Hout in Hv as (k & _ & _ & Hk).
      by apply env_setting_map_no_WorldConfig in Hk. }
    rewrite dict_get_set_eq. simpl. by rewrite dict_get_set_eq.
  - unfold str_in. simpl. rewrite !orb_true_iff, !String.eqb_eq. intuition discriminate.
  - apply generate_serverconfig_Ok in Hrun as (d1 & o & _ & _ & _ & _ & _ & Hpre).
    rewrite Hraw in Hpre. destruct Hpre as [-> _]. apply dict_get_del_eq.
  - by apply generate_serverconfig_merge.
Qed.

Lemma creative_mode_normalized_witness :
  (w ← getitem (config (generate_serverconfig st_creative).2) "WorldConfig";
   getitem w "AllowCreativeMode") = Ok (VBool true)
  ∧ getitem (config (generate_serverconfig st_creative).2) "Upnp" = Ok (VStr "true").
Proof.
  destruct (creative_mode_normalized st_creative
              [("WorldConfig", VDict [("AllowCreativeMode", VBool false)]);
               ("Upnp", VBool false)]
              [("AllowCreativeMode", VBool false)] "Yes")
    as (st' & Hrun & H1 & _ & _ & H4).
  - reflexivity.
  - reflexivity.
  - reflexivity.
  - intros env_key Hin Hne _.
    apply elem_of_cons in Hin as [->|Hin]; [done|].
    apply list_elem_of_singleton in Hin as ->. vm_compute. by eexists.
  - rewrite Hrun. cbn [snd]. split; [exact H1|].
    apply (H4 "VS_CFG_SERVER_UPNP" "Upnp" "true"); vm_compute;
      [discriminate|reflexivity..].
Defined.

(** ** C3 *)



(** ** Runs that end with exit code 1 *)

Section Exit.

Variable json_dumps : value → string.

(** If [generate_serverconfig] raises whatever the files are, [run]
    returns 1. *)
Lemma run_exit_1_of_generate_raises (args : list string) (st : state) :
  (∀ st1, environ st1 = environ st → config st1 = config st →
          ∃ e st2, generate_serverconfig st1 = (Raise e, st2)) →
  (run json_dumps args st).1 = 1%Z.
Proof.
  intros Hgen. rewrite run_unfold. cbv zeta.
  destruct (negb _); [done|].
  destruct (backup_existing _ _) as [[[]|e] st1] eqn:Hb; [|done].
  apply backup_existing_frame in Hb as (Henv & Hcfg & _).
  destruct (Hgen st1) as (e & st2 & ->); done.
Qed.

(** An unknown variable with the prefix makes the comprehension raise. *)
Lemma overrides_of_unknown (env : odict string) (env_key : string) :
  env_key ∈ env.*1 →
  startswith "VS_CFG_" env_key = true →
  dict_get env_key env_setting_map = None →
  ∃ k, overrides_of env = Raise (KeyError k)
       ∧ k ∈ env.*1 ∧ startswith "VS_CFG_" k = true
       ∧ dict_get k env_setting_map = None.
Proof.
  intros Hin Hpre Hnone. unfold overrides_of.
  assert (Hf : env_key ∈ filter (λ k, startswith "VS_CFG_" k = true) env.*1)
    by (by apply list_elem_of_filter).
  assert (Hall : Forall (λ k, k ∈ env.*1 ∧ startswith "VS_CFG_" k = true)
                   (filter (λ k, startswith "VS_CFG_" k = true) env.*1)).
  { apply Forall_forall. intros k Hk. apply list_elem_of_filter in Hk. tauto. }
  induction (filter _ _) as [|k ks IH]; [inversion Hf|].
  apply Forall_cons in Hall as [[Hk Hkp] Hall].
  unfold mbind at 1, result_bind. rewrite mapM_cons.
  destruct (dict_get k env_setting_map) as [field|] eqn:Hfield.
  - destruct (dict_get k env) as [raw|] eqn:Hraw.
    + apply elem_of_cons in Hf as [->|Hf]; [congruence|].
      destruct (IH Hf Hall) as (k' & Hk' & ?). exists k'. split; [|done].
      unfold mbind at 1, result_bind in Hk'. by destruct (mapM _ ks).
    + apply dict_get_key_Some in Hk as [? ?]. congruence.
  - by exists k.
Qed.

End Exit.

(** ** C9 *)

(** C9: with a variable in the environment whose name has the prefix and is
    not a key of the table, [generate_serverconfig] raises and [run] returns
    1; unless the creative-mode pass fails first, the exception is the
    [KeyError] of the table lookup for such a variable. *)
Theorem unknown_variable_exit_1 (json_dumps : value → string)
    (args : list string) (st : state) (env_key : string) :
  env_key ∈ (environ st).*1 →
  startswith "VS_CFG_" env_key = true →
  dict_get env_key env_setting_map = None →
  (∃ e st', generate_serverconfig st = (Raise e, st'))
  ∧ (run json_dumps args st).1 = 1%Z
  ∧ (∀ st1, creative_mode_pass st = (Ok (), st1) →
       ∃ k, generate_serverconfig st = (Raise (KeyError k), st1)
            ∧ startswith "VS_CFG_" k = true
            ∧ dict_get k env_setting_map = None).
Proof.
  intros Hin Hpre Hnone.
  assert (Hne : env_key ≠ creative) by (intros ->; vm_compute in Hnone; done).
  assert (Hpass : ∀ st0 st1, environ st0 = environ st →
            creative_mode_pass st0 = (Ok (), st1) → env_key ∈ (environ st1).*1).
  { intros st0 st1 Henv Hp.
    destruct (dict_get creative (environ st0)) as [raw|] eqn:Hc.
    - rewrite (creative_mode_pass_present st0 raw Hc) in Hp. cbv zeta in Hp.
      repeat (case_match; simplify_eq/=). apply dict_del_keys. by rewrite Henv.
    - rewrite (creative_mode_pass_absent st0 Hc) in Hp. injection Hp as <-.
      by rewrite Henv. }
  assert (Hraise : ∀ st0, environ st0 = environ st →
            ∃ e st', generate_serverconfig st0 = (Raise e, st')).
  { intros st0 Henv. rewrite generate_serverconfig_unfold.
    destruct (creative_mode_pass st0) as [[[]|e] st1] eqn:Hp; [|by eexists _, _].
    apply Hpass in Hp; [|done].
    destruct (overrides_of_unknown _ _ Hp Hpre Hnone) as (k & Hk & _).
    rewrite bulk_pass_unfold, Hk. by eexists _, _. }
  split; [by apply Hraise|]. split.
  - apply run_exit_1_of_generate_raises. intros st1 Henv _. by apply Hraise.
  - intros st1 Hp. rewrite generate_serverconfig_unfold, Hp.
    apply Hpass in Hp; [|done].
    destruct (overrides_of_unknown _ _ Hp Hpre Hnone) as (k & Hk & _ & ? & ?).
    rewrite bulk_pass_unfold, Hk. by exists k.
Qed.

(** [VS_CFG_UNKNOWN=x]: the run ends with exit code 1. *)
Lemma unknown_variable_exit_1_witness :
  generate_serverconfig st_unknown = (Raise (KeyError "VS_CFG_UNKNOWN"), st_unknown)
  ∧ (run json_text ["generate-config.py"] st_unknown).1 = 1%Z.
Proof.
  destruct (unknown_variable_exit_1 json_text ["generate-config.py"] st_unknown
              "VS_CFG_UNKNOWN") as (_ & Hrun & _).
  - vm_compute. apply elem_of_cons. by left.
  - vm_compute. reflexivity.
  - vm_compute. reflexivity.
  - split; [vm_compute; reflexivity | exact Hrun].
Defined.

(** ** C2 *)

(** C2: [load_config] returns what [yaml.safe_load] gives for the defaults
    file; for a file that holds no document this is [None], not the empty
    mapping, and an object whose [config] is [None] makes [run] return 1. *)
Theorem load_config_empty_document
    (yaml_single_document : string → result (option value))
    (json_dumps : value → string) (st : state) (text : string) :
  read_text (files st) (default_config_yaml_path st) = Ok text →
  yaml_single_document text = Ok None →
  load_config yaml_single_document st = (Ok VNone, st)
  ∧ VNone ≠ VDict []
  ∧ (∀ args st1, config st1 = VNone → (run json_dumps args st1).1 = 1%Z).
Proof.
  intros Hread Hdoc. split; [|split; [done|]].
  - unfold load_config. munfold. simpl.
    assert (path_exists (files st) (default_config_yaml_path st) = true) as ->.
    { unfold path_exists. apply bool_decide_eq_true_2. unfold read_text in Hread.
      destruct (node_at _ _); [by eexists|done]. }
    rewrite Hread. simpl. unfold yaml_safe_load. rewrite Hdoc. reflexivity.
  - intros args st1 Hcfg. apply run_exit_1_of_generate_raises.
    intros st2 _ Hcfg2. rewrite Hcfg in Hcfg2.
    rewrite generate_serverconfig_unfold.
    destruct (dict_get creative (environ st2)) as [raw|] eqn:Hc.
    + rewrite (creative_mode_pass_present st2 raw Hc), Hcfg2. simpl. by eexists _, _.
    + rewrite (creative_mode_pass_absent st2 Hc), bulk_pass_unfold, Hcfg2.
      destruct (overrides_of _); simpl; by eexists _, _.
Qed.

(** An empty defaults file in the container. *)
Lemma load_config_empty_document_witness :
  let st := object [] (container EmptyString default_output) VNone in
  load_config yaml_document st = (Ok VNone, st)
  ∧ (main json_text yaml_document ["generate-config.py"] []
          (container EmptyString default_output)).1 = 1%Z.
Proof.
  destruct (load_config_empty_document yaml_document json_text
              (object [] (container EmptyString default_output) VNone) EmptyString)
    as (Hload & _ & _).
  - vm_compute. reflexivity.
  - vm_compute. reflexivity.
  - split; [exact Hload | vm_compute; reflexivity].
Defined.

(** ** C4 *)

(** C4, as stated, fails: for the output path [out.txt] the earlier file
    is not found at [out.txt] with a suffix added; it is at
    [out.json.backup]. *)
Lemma backup_path_replaces_suffix :
  let args := ["generate-config.py"; "out.txt"] in
  let result := run json_text args (st_full ["out.txt"]) in
  resolve_output args (environ (st_full ["out.txt"])) = ["out.txt"]
  ∧ node_at (files (st_full ["out.txt"])) ["out.txt"] = Some (File "old")
  ∧ result.1 = 0%Z
  ∧ (∀ added, files result.2 !! ["out.txt" +:+ added] ≠ Some (File "old"))
  ∧ files result.2 !! ["out.json.backup"] = Some (File "old").
Proof.
  cbv zeta. split; [vm_compute; reflexivity|]. split; [vm_compute; reflexivity|].
  split; [vm_compute; reflexivity|]. split; [|vm_compute; reflexivity].
  intros added H. apply elem_of_map_to_list in H. vm_compute in H.
  repeat (apply elem_of_cons in H as [H|H]; [discriminate H|]).
  by apply elem_of_nil in H.
Qed.

(** C4, amended: if [run] returns 0 and a file was at the output path, then
    the backup path is the output path with its last suffix replaced by
    [.json.backup] (for a name that ends in [.json] after a stem that is
    not empty, like the default one, the name with [.backup] added; the
    bare name [.json] has no suffix and becomes [.json.json.backup]), it is
    not the output path, it holds the content the file had, whatever was at
    the backup path before, and the output path holds the JSON text of the
    merged configuration. *)
Theorem backup_then_write (json_dumps : value → string)
    (args : list string) (st st' : state) (prior : string) :
  run json_dumps args st = (0%Z, st') →
  node_at (files st) (resolve_output args (environ st)) = Some (File prior) →
  ∃ backup_path,
    with_suffix (resolve_output args (environ st)) ".json.backup" = Ok backup_path
    ∧ backup_path ≠ resolve_output args (environ st)
    ∧ files st' !! backup_path = Some (File prior)
    ∧ files st' !! resolve_output args (environ st)
      = Some (File (json_dumps (config st')))
    ∧ (∀ stem parent,
         resolve_output args (environ st) = (stem +:+ ".json") :: parent →
         stem ≠ EmptyString →
         backup_path = (stem +:+ ".json" +:+ ".backup") :: parent)
    ∧ (∀ parent,
         resolve_output args (environ st) = ".json" :: parent →
         backup_path = ".json.json.backup" :: parent).
Proof.
  rewrite run_unfold. cbv zeta. set (p := resolve_output args (environ st)).
  intros Hrun Hp.
  destruct (negb _); [done|].
  destruct (backup_existing _ _) as [[[]|e1] st1] eqn:Hb; [|done].
  destruct (generate_serverconfig st1) as [[[]|e2] st2] eqn:Hg; [|done].
  destruct (write_config _ _ st2) as [[[]|e3] st3] eqn:Hw; [|done].
  rewrite print_summary_unfold in Hrun.
  assert (st' = st3) as -> by (repeat case_match; simplify_eq/=; done).
  apply backup_existing_Ok with (prior := prior) in Hb as (b & Hsuf & Hne & Hb); [|done].
  apply generate_serverconfig_Ok in Hg as (_ & _ & _ & _ & Hfiles & _).
  apply write_config_Ok in Hw as (_ & Hcfg & Hout & Hkeep).
  exists b. split; [done|]. split; [done|]. split; [|split; [|split]].
  - apply Hkeep; [done|]. by rewrite Hfiles.
  - by rewrite Hcfg.
  - intros stem parent Hstem Hne'. rewrite Hstem, with_suffix_json in Hsuf by done.
    by injection Hsuf as <-.
  - intros parent Hbare. rewrite Hbare in Hsuf. by injection Hsuf as <-.
Qed.

(** The default output path in the container. *)
Lemma backup_then_write_witness :
  let result := run json_text ["generate-config.py"] (st_full default_output) in
  files result.2 !! ["serverconfig.json.backup"; "data"; "vintagestory"]
  = Some (File "old")
  ∧ files result.2 !! default_output = Some (File "{}").
Proof.
  destruct (backup_then_write json_text ["generate-config.py"] (st_full default_output)
              (run json_text ["generate-config.py"] (st_full default_output)).2 "old")
    as (b & Hsuf & _ & Hb & Hout & _).
  - vm_compute. reflexivity.
  - vm_compute. reflexivity.
  - vm_compute in Hsuf. injection Hsuf as <-. split; [exact Hb | exact Hout].
Defined.

(** ** C10 *)

(** C10: when the steps of [run] up to the write have succeeded and the
    merged configuration lacks one of the three keys of the summary, [run]
    returns 1 with the output path holding the new JSON text and the
    earlier file, if there was one, at the backup path. *)
Theorem exit_1_after_write (json_dumps : value → string)
    (args : list string) (st st1 st2 st3 : state) (missing : string) :
  path_exists (files st) (default_config_yaml_path st) = true →
  backup_existing (resolve_output args (environ st))
    (with_config_json_path (Some (resolve_output args (environ st))) st)
  = (Ok (), st1) →
  generate_serverconfig st1 = (Ok (), st2) →
  write_config json_dumps (resolve_output args (environ st)) st2 = (Ok (), st3) →
  missing ∈ ["ServerName"; "Port"; "MaxClients"] →
  getitem (config st2) missing = Raise (KeyError missing) →
  run json_dumps args st = (1%Z, st3)
  ∧ files st3 !! resolve_output args (environ st)
    = Some (File (json_dumps (config st2)))
  ∧ (∀ prior,
       node_at (files st) (resolve_output args (environ st)) = Some (File prior) →
       ∃ backup_path,
         with_suffix (resolve_output args (environ st)) ".json.backup" = Ok backup_path
         ∧ files st3 !! backup_path = Some (File prior)).
Proof.
  set (p := resolve_output args (environ st)).
  intros Hyaml Hb Hg Hw Hin Hmiss.
  pose proof (write_config_Ok _ _ _ _ Hw) as (_ & Hcfg & Hout & Hkeep).
  split; [|split; [done|]].
  - rewrite run_unfold. cbv zeta. fold p. rewrite Hyaml. simpl.
    rewrite Hb, Hg, Hw, print_summary_unfold, Hcfg.
    repeat (apply elem_of_cons in Hin as [->|Hin]); [..|by apply elem_of_nil in Hin];
      rewrite ?Hmiss; repeat (case_match; simplify_eq/=); done.
  - intros prior Hp.
    apply backup_existing_Ok with (prior := prior) in Hb as (b & Hsuf & Hne & Hb); [|done].
    apply generate_serverconfig_Ok in Hg as (_ & _ & _ & _ & Hfiles & _).
    exists b. split; [done|]. apply Hkeep; [done|]. by rewrite Hfiles.
Qed.

(** Defaults without [MaxClients]: exit code 1, and the new file is there. *)
Lemma exit_1_after_write_witness :
  let result := run json_text ["generate-config.py"] st_server_name in
  result.1 = 1%Z
  ∧ files result.2 !! default_output = Some (File "{}")
  ∧ files result.2 !! ["serverconfig.json.backup"; "data"; "vintagestory"]
    = Some (File "old").
Proof.
  set (st0 := with_config_json_path (Some default_output) st_server_name).
  set (st1 := (backup_existing default_output st0).2).
  set (st2 := (generate_serverconfig st1).2).
  set (st3 := (write_config json_text default_output st2).2).
  destruct (exit_1_after_write json_text ["generate-config.py"] st_server_name
              st1 st2 st3 "MaxClients") as (Hrun & Hout & Hbak).
  - vm_compute. reflexivity.
  - vm_compute. reflexivity.
  - vm_compute. reflexivity.
  - vm_compute. reflexivity.
  - apply elem_of_cons. right. apply elem_of_cons. right. apply elem_of_cons. by left.
  - vm_compute. reflexivity.
  - destruct (Hbak "old") as (b & Hsuf & Hb); [vm_compute; reflexivity|].
    vm_compute in Hsuf. injection Hsuf as <-.
    cbv zeta. rewrite Hrun. split; [reflexivity|]. split; [exact Hout | exact Hb].
Defined.

End GenerateConfigClaims.

(** * Regular expressions *)

Module RegexFacts.
Import Py PyFacts.

#[local] Arguments String.append !_ _ / : simpl nomatch.

Lemma append_nil_r (s : string) : s +:+ EmptyString = s.
Proof.
  induction s as [|a s IH]; [done|].
  change (String a (s +:+ EmptyString) = String a s). by rewrite IH.
Qed.

Lemma append_assoc (s t u : string) : (s +:+ t) +:+ u = s +:+ (t +:+ u).
Proof.
  induction s as [|a s IH]; [done|].
  change (String a ((s +:+ t) +:+ u) = String a (s +:+ (t +:+ u))). by rewrite IH.
Qed.

(** ** The derivative matcher accepts only words of the expression *)

Lemma nullable_matches (r : regex) : nullable r = true → matches r EmptyString.
Proof.
  induction r as [| |p|r1 IH1 r2 IH2|r1 IH1 r2 IH2|r IH]; simpl; intros H; try done.
  - constructor.
  - apply andb_true_iff in H as [H1 H2].
    change EmptyString with (EmptyString +:+ EmptyString). constructor; auto.
  - apply orb_true_iff in H as [H|H]; [apply MAltL|apply MAltR]; auto.
  - constructor.
Qed.

Lemma deriv_matches (c : ascii) (r : regex) (s : string) :
  matches (deriv c r) s → matches r (String c s).
Proof.
  revert s. induction r as [| |p|r1 IH1 r2 IH2|r1 IH1 r2 IH2|r IH]; simpl; intros s H.
  - inversion H.
  - inversion H.
  - destruct (p c) eqn:Hp; inversion H; subst. by constructor.
  - destruct (nullable r1) eqn:Hn.
    + inversion H as [| | |? ? ? H'|? ? ? H'| |]; subst.
      * inversion H' as [| |? ? s1 s2 Hs1 Hs2| | | |]; subst.
        change (String c (s1 +:+ s2)) with (String c s1 +:+ s2). constructor; auto.
      * change (String c s) with (EmptyString +:+ String c s).
        constructor; [by apply nullable_matches|auto].
    + inversion H as [| |? ? s1 s2 Hs1 Hs2| | | |]; subst.
      change (String c (s1 +:+ s2)) with (String c s1 +:+ s2). constructor; auto.
  - inversion H; subst; [apply MAltL|apply MAltR]; auto.
  - inversion H as [| |? ? s1 s2 Hs1 Hs2| | | |]; subst.
    change (String c (s1 +:+ s2)) with (String c s1 +:+ s2). constructor; auto.
Qed.

Lemma fullmatch_matches (r : regex) (s : string) :
  fullmatch r s = true → matches r s.
Proof.
  revert r. induction s as [|c s IH]; simpl; intros r H.
  - by apply nullable_matches.
  - by apply deriv_matches, IH.
Qed.

(** ** Every word of the expression is accepted *)

Lemma matches_nullable (r : regex) : matches r EmptyString → nullable r = true.
Proof.
  intros H. remember EmptyString as s eqn:Hs.
  induction H as [|p c Hp|r1 r2 s1 s2 H1 IH1 H2 IH2|r1 r2 s H IH|r1 r2 s H IH
                  |r|r s1 s2 H1 IH1 H2 IH2]; simpl; try done.
  - destruct s1; [|done]. simpl in Hs. subst s2. by rewrite IH1, IH2.
  - by rewrite IH.
  - rewrite IH by done. apply orb_true_r.
Qed.

Lemma matches_deriv (c : ascii) (r : regex) (s : string) :
  matches r (String c s) → matches (deriv c r) s.
Proof.
  intros H. remember (String c s) as w eqn:Hw. revert s Hw.
  induction H as [|p a Hp|r1 r2 s1 s2 H1 IH1 H2 IH2|r1 r2 w H IH|r1 r2 w H IH
                  |r|r s1 s2 H1 IH1 H2 IH2]; intros s Hw; simpl; try done.
  - injection Hw as -> <-. rewrite Hp. constructor.
  - destruct s1 as [|a s1]; simpl in Hw.
    + subst s2. apply matches_nullable in H1 as ->. apply MAltR. auto.
    + injection Hw as -> <-.
      destruct (nullable r1); [apply MAltL|]; constructor; auto.
  - apply MAltL. auto.
  - apply MAltR. auto.
  - destruct s1 as [|a s1]; simpl in Hw.
    + subst s2. by apply IH2.
    + injection Hw as -> <-. constructor; auto.
Qed.

Lemma matches_fullmatch (r : regex) (s : string) :
  matches r s → fullmatch r s = true.
Proof.
  revert r. induction s as [|c s IH]; simpl; intros r H.
  - by apply matches_nullable.
  - by apply IH, matches_deriv.
Qed.

Lemma fullmatch_iff (r : regex) (s : string) :
  fullmatch r s = true ↔ matches r s.
Proof. split; [apply fullmatch_matches | apply matches_fullmatch]. Qed.

(** [re.match(r, s)]: some prefix of the subject is a word. *)
Lemma match_prefix_iff (r : regex) (s : string) :
  match_prefix r s = true ↔ ∃ u v, s = u +:+ v ∧ matches r u.
Proof.
  revert r. induction s as [|c s IH]; simpl; intros r.
  - rewrite orb_false_r. split.
    + intros H. exists EmptyString, EmptyString. split; [done|]. by apply nullable_matches.
    + intros (u & v & Huv & Hu). destruct u; [|done]. by apply matches_nullable.
  - rewrite orb_true_iff, IH. split.
    + intros [H|(u & v & -> & Hu)].
      * exists EmptyString, (String c s). split; [done|]. by apply nullable_matches.
      * exists (String c u), v. split; [done|]. by apply deriv_matches.
    + intros (u & v & Huv & Hu). destruct u as [|a u]; simpl in Huv.
      * left. by apply matches_nullable.
      * injection Huv as <- ->. right. exists u, v. split; [done|]. by apply matches_deriv.
Qed.

(** [re.match(r + '$', s)]: a word, then the end or one last line feed. *)
Lemma match_dollar_iff (r : regex) (s : string) :
  match_dollar r s = true ↔
  matches r s ∨ ∃ u, s = u +:+ String LF EmptyString ∧ matches r u.
Proof.
  revert r. induction s as [|c s IH]; simpl; intros r.
  - split.
    + intros H. left. by apply nullable_matches.
    + intros [H|(u & Hu & _)]; [by apply matches_nullable|by destruct u].
  - rewrite orb_true_iff, !andb_true_iff, IH, Ascii.eqb_eq, String.eqb_eq. split.
    + intros [[[Hn ->] ->]|[H|(u & -> & Hu)]].
      * right. exists EmptyString. split; [done|]. by apply nullable_matches.
      * left. by apply deriv_matches.
      * right. exists (String c u). split; [done|]. by apply deriv_matches.
    + intros [H|(u & Hu & Hm)].
      * right. left. by apply matches_deriv.
      * destruct u as [|a u]; simpl in Hu.
        -- injection Hu as -> ->. left. split; [|done]. split; [|done].
           by apply matches_nullable.
        -- injection Hu as <- ->. right. right. exists u. split; [done|].
           by apply matches_deriv.
Qed.

End RegexFacts.

(** * The release script *)

Module SemverFacts.
Import Py PyFacts RegexFacts Semver.

#[local] Arguments String.append !_ _ / : simpl nomatch.

(** ** Character classes *)

Lemma all_chars_append (p : ascii → bool) (s t : string) :
  all_chars p (s +:+ t) = all_chars p s && all_chars p t.
Proof. induction s as [|a s IH]; simpl; [done|]. by rewrite IH, andb_assoc. Qed.

Lemma all_chars_impl (p q : ascii → bool) (s : string) :
  (∀ c, p c = true → q c = true) → all_chars p s = true → all_chars q s = true.
Proof.
  intros Hpq. induction s as [|a s IH]; simpl; [done|].
  rewrite !andb_true_iff. intros [? ?]. auto.
Qed.

Lemma matches_Class (p : ascii → bool) (s : string) :
  matches (Class p) s → ∃ c, s = String c EmptyString ∧ p c = true.
Proof. inversion 1; subst. eauto. Qed.

Lemma matches_Star_Class (p : ascii → bool) (s : string) :
  matches (Star (Class p)) s → all_chars p s = true.
Proof.
  intros H. remember (Star (Class p)) as r eqn:Hr.
  induction H as [| | | | | |r s1 s2 H1 _ H2 IH2]; try done.
  injection Hr as ->. apply matches_Class in H1 as (c & -> & Hc).
  simpl. rewrite Hc. simpl. by apply IH2.
Qed.

(** [p+] matches the non-empty words over [p]. *)
Lemma matches_Plus_Class (p : ascii → bool) (s : string) :
  matches (Plus (Class p)) s → s ≠ EmptyString ∧ all_chars p s = true.
Proof.
  inversion 1 as [| |? ? s1 s2 H1 H2| | | |]; subst.
  apply matches_Class in H1 as (c & -> & Hc). apply matches_Star_Class in H2.
  simpl. rewrite Hc, H2. done.
Qed.

Lemma matches_Lit (c : ascii) (s : string) :
  matches (Lit c) s → s = String c EmptyString.
Proof.
  intros H. apply matches_Class in H as (a & -> & Ha).
  apply Ascii.eqb_eq in Ha as ->. done.
Qed.

(** The words of the version pattern. *)
Lemma matches_version (s : string) :
  matches (body version_re) s →
  ∃ a b c, s = a +:+ "." +:+ b +:+ "." +:+ c ∧ digits a ∧ digits b ∧ digits c.
Proof.
  simpl. intros H.
  inversion H as [| |? ? a s1 Ha H1| | | |]; subst; clear H.
  inversion H1 as [| |? ? d1 s2 Hd1 H2| | | |]; subst; clear H1.
  inversion H2 as [| |? ? b s3 Hb H3| | | |]; subst; clear H2.
  inversion H3 as [| |? ? d2 c Hd2 Hc| | | |]; subst; clear H3.
  apply matches_Lit in Hd1 as ->, Hd2 as ->.
  apply matches_Plus_Class in Ha, Hb, Hc.
  exists a, b, c. done.
Qed.

(** ** [split] *)

Lemma split_no_sep (sep : ascii) (s : string) :
  all_chars (no_sep sep) s = true → split sep s = [s].
Proof.
  induction s as [|a s IH]; simpl; [done|].
  unfold no_sep at 1. intros [Ha Hs]%andb_true_iff.
  apply negb_true_iff in Ha as ->. by rewrite IH.
Qed.

Lemma split_append_sep (sep : ascii) (s rest : string) :
  all_chars (no_sep sep) s = true →
  split sep (s +:+ String sep rest) = s :: split sep rest.
Proof.
  induction s as [|a s IH]; simpl.
  - intros _. by rewrite Ascii.eqb_refl.
  - unfold no_sep at 1. intros [Ha Hs]%andb_true_iff.
    apply negb_true_iff in Ha as ->. by rewrite IH.
Qed.

Lemma split_parts_no_sep (sep : ascii) (s t : string) :
  t ∈ split sep s → all_chars (no_sep sep) t = true.
Proof.
  revert t. induction s as [|a s IH]; simpl; intros t Ht.
  - apply list_elem_of_singleton in Ht as ->. done.
  - destruct (Ascii.eqb a sep) eqn:Ha.
    + apply elem_of_cons in Ht as [->|Ht]; [done|auto].
    + destruct (split sep s) as [|w ws] eqn:Hsp.
      * apply list_elem_of_singleton in Ht as ->. simpl. unfold no_sep. by rewrite Ha.
      * apply elem_of_cons in Ht as [->|Ht].
        -- simpl. unfold no_sep at 1. rewrite Ha. simpl. apply IH. apply elem_of_cons. by left.
        -- apply IH. apply elem_of_cons. by right.
Qed.

(** ** [int] on digits *)

Lemma is_digit_not_space (c : ascii) : is_digit c = true → is_space c = false.
Proof.
  unfold is_digit, is_space. intros [H1 H2]%andb_true_iff.
  apply Nat.leb_le in H1, H2. apply orb_false_iff. split; apply andb_false_iff.
  - right. apply Nat.leb_gt. lia.
  - right. apply Nat.leb_gt. lia.
Qed.

Lemma rstrip_digits (s : string) : all_chars is_digit s = true → rstrip s = s.
Proof.
  induction s as [|a s IH]; simpl; [done|].
  intros [Ha Hs]%andb_true_iff. rewrite IH by done.
  destruct s; [|done]. by rewrite is_digit_not_space.
Qed.

Lemma lstrip_digits (s : string) : all_chars is_digit s = true → lstrip s = s.
Proof.
  destruct s as [|a s]; simpl; [done|].
  intros [Ha Hs]%andb_true_iff. by rewrite is_digit_not_space.
Qed.

Lemma int_digits_total (acc : Z) (prev : bool) (s : string) :
  all_chars is_digit s = true → prev = true ∨ s ≠ EmptyString →
  ∃ z, int_digits acc prev s = Some z.
Proof.
  revert acc prev. induction s as [|a s IH]; simpl; intros acc prev Hs Hne.
  - destruct Hne as [->|?]; [by eexists|done].
  - apply andb_true_iff in Hs as [Ha Hs]. rewrite Ha. apply IH; auto.
Qed.

(** [int] succeeds on a non-empty word of digits. *)
Lemma int_digits_Ok (s : string) : digits s → ∃ z, int s = Ok z.
Proof.
  intros [Hne Hs]. unfold int, strip.
  rewrite rstrip_digits, lstrip_digits by done.
  destruct (int_digits_total 0 false s Hs) as [z Hz]; [by right|].
  destruct s as [|a s]; [done|].
  assert (a ≠ "+"%char ∧ a ≠ "-"%char) as [Hp Hm].
  { simpl in Hs. apply andb_true_iff in Hs as [Ha _]. split; intros ->; done. }
  assert (match String a s with
          | String "+" d => int_digits 0 false d
          | String "-" d => Z.opp <$> int_digits 0 false d
          | _ => int_digits 0 false (String a s)
          end = int_digits 0 false (String a s)) as ->.
  { destruct a as [[] [] [] [] [] [] [] []]; try reflexivity; congruence. }
  rewrite Hz. by eexists.
Qed.

(** The key of a word of the version pattern is a triple. *)
Lemma version_key_triple (a b c : string) :
  digits a → digits b → digits c →
  ∃ M m p, version_key (a +:+ "." +:+ b +:+ "." +:+ c) = Ok [M; m; p].
Proof.
  intros Ha Hb Hc. unfold version_key.
  assert (Hdot : ∀ s, digits s → all_chars (no_sep ".") s = true).
  { intros s [_ Hs]. eapply all_chars_impl; [|done].
    intros ch Hch. unfold no_sep. apply negb_true_iff, Ascii.eqb_neq. intros ->. done. }
  change (a +:+ "." +:+ b +:+ "." +:+ c)
    with (a +:+ String "." (b +:+ String "." c)).
  rewrite !split_append_sep, split_no_sep by auto.
  destruct (int_digits_Ok a Ha) as [M HM], (int_digits_Ok b Hb) as [m Hm],
    (int_digits_Ok c Hc) as [p Hp].
  exists M, m, p. rewrite !mapM_cons, HM, Hm, Hp. reflexivity.
Qed.

(** ** The order of keys and the sort *)

Lemma tuple_lt_irrefl (a : list Z) : tuple_lt a a = false.
Proof. induction a as [|x a IH]; simpl; [done|]. by rewrite Z.eqb_refl. Qed.

Lemma tuple_lt_asym (a b : list Z) : tuple_lt a b = true → tuple_lt b a = false.
Proof.
  revert b. induction a as [|x a IH]; intros [|y b]; simpl; try done.
  destruct (Z.eqb_spec x y) as [->|Hne].
  - rewrite Z.eqb_refl. apply IH.
  - destruct (Z.eqb_spec y x) as [->|_]; [done|].
    intros H%Z.ltb_lt. apply Z.ltb_ge. lia.
Qed.

Lemma tuple_le_trans (a b c : list Z) :
  tuple_lt b a = false → tuple_lt c b = false → tuple_lt c a = false.
Proof.
  revert b c. induction a as [|x a IH]; intros [|y b] [|z c]; simpl; try done.
  destruct (Z.eqb_spec y x) as [Hyx|Hyx], (Z.eqb_spec z y) as [Hzy|Hzy],
    (Z.eqb_spec z x) as [Hzx|Hzx]; subst; try done; try apply IH.
  all: rewrite ?Z.ltb_ge; lia.
Qed.

Lemma insert_sorted_elem (x kx : list Z * string) (l : list (list Z * string)) :
  x ∈ insert_sorted kx l ↔ x = kx ∨ x ∈ l.
Proof.
  induction l as [|ky l IH]; simpl.
  - rewrite list_elem_of_singleton, elem_of_nil. tauto.
  - destruct (tuple_lt ky.1 kx.1); rewrite !elem_of_cons, ?IH; tauto.
Qed.

Lemma insert_sorted_sorted (kx : list Z * string) (l : list (list Z * string)) :
  StronglySorted key_le l → StronglySorted key_le (insert_sorted kx l).
Proof.
  induction 1 as [|ky l Hl IH Hky]; simpl.
  - repeat constructor.
  - destruct (tuple_lt ky.1 kx.1) eqn:Hlt.
    + constructor; [done|]. apply Forall_forall. intros x Hx.
      apply insert_sorted_elem in Hx as [->|Hx].
      * by apply tuple_lt_asym.
      * rewrite Forall_forall in Hky. auto.
    + constructor; [by constructor|]. constructor; [done|].
      apply Forall_forall. intros x Hx. rewrite Forall_forall in Hky.
      unfold key_le. eapply tuple_le_trans; [exact Hlt|]. by apply Hky.
Qed.

Lemma sort_by_key_sorted (l : list (list Z * string)) :
  StronglySorted key_le (sort_by_key l).
Proof.
  induction l as [|x l IH]; simpl; [constructor|]. by apply insert_sorted_sorted.
Qed.

Lemma sort_by_key_elem (x : list Z * string) (l : list (list Z * string)) :
  x ∈ sort_by_key l ↔ x ∈ l.
Proof.
  induction l as [|y l IH]; simpl; [done|].
  rewrite insert_sorted_elem, elem_of_cons, IH. done.
Qed.

(** The last element of a sorted list is not before any other. *)
Lemma last_sorted_max (l : list (list Z * string)) (m : list Z * string) :
  StronglySorted key_le l → last l = Some m →
  m ∈ l ∧ ∀ x, x ∈ l → key_le x m.
Proof.
  induction 1 as [|y l Hl IH Hy]; [done|].
  destruct l as [|z l].
  - intros [= <-]. split; [apply elem_of_cons; by left|].
    intros x Hx. apply list_elem_of_singleton in Hx as ->. apply tuple_lt_irrefl.
  - change (last (y :: z :: l)) with (last (z :: l)). intros Hm.
    destruct (IH Hm) as [Hin Hmax]. split; [apply elem_of_cons; by right|].
    intros x Hx. apply elem_of_cons in Hx as [->|Hx]; [|auto].
    rewrite Forall_forall in Hy. auto.
Qed.

End SemverFacts.

(** * Claims about the release script *)

Module SemverClaims.
Import Py PyFacts RegexFacts Semver SemverFacts Examples.

#[local] Arguments String.append !_ _ / : simpl nomatch.

(** ** C5 *)

Lemma version_tags_of_elem (stdout tag : string) :
  tag ∈ version_tags_of stdout ↔
  tag ∈ split LF (strip stdout) ∧ tag ≠ EmptyString ∧ re_match version_re tag = true.
Proof. unfold version_tags_of. rewrite list_elem_of_filter. tauto. Qed.

(** A listed tag that passes the filter is three numbers with dots. *)
Lemma version_tag_words (stdout tag : string) :
  tag ∈ version_tags_of stdout →
  ∃ a b c, tag = a +:+ "." +:+ b +:+ "." +:+ c ∧ digits a ∧ digits b ∧ digits c.
Proof.
  intros (Hin & _ & Hre)%version_tags_of_elem.
  apply split_parts_no_sep in Hin.
  unfold re_match in Hre. simpl dollar in Hre. cbv iota in Hre.
  apply match_dollar_iff in Hre as [H|(u & -> & _)]; [by apply matches_version|].
  rewrite all_chars_append in Hin. apply andb_true_iff in Hin as [_ Hin].
  vm_compute in Hin. discriminate Hin.
Qed.

Lemma version_tag_key (stdout tag : string) :
  tag ∈ version_tags_of stdout → ∃ M m p, version_key tag = Ok [M; m; p].
Proof.
  intros (a & b & c & -> & Ha & Hb & Hc)%version_tag_words.
  by apply version_key_triple.
Qed.

Lemma tuple_lt_triple (M m p M' m' p' : Z) :
  tuple_lt [M; m; p] [M'; m'; p'] = false → triple_le (M', m', p') (M, m, p).
Proof.
  unfold triple_le. simpl.
  destruct (Z.eqb_spec M M'), (Z.eqb_spec m m'), (Z.eqb_spec p p');
    rewrite ?Z.ltb_ge; intros; try lia.
Qed.

Lemma get_last_version_unfold (stdout : string) :
  get_last_version (Ok stdout) =
  match version_tags_of stdout with
  | [] => "0.0.0"
  | _ =>
      match mapM (λ v, k ← version_key v; Ok (k, v)) (version_tags_of stdout) with
      | Ok keyed =>
          match last (sort_by_key keyed) with
          | Some kv => kv.2
          | None => "0.0.0"
          end
      | Raise _ => "0.0.0"
      end
  end.
Proof.
  unfold get_last_version. cbv zeta. unfold mbind at 1, result_bind at 1.
  destruct (version_tags_of stdout) as [|t ts]; [done|].
  unfold mbind at 1, result_bind at 1.
  destruct (mapM _ (t :: ts)) as [keyed|]; [|done].
  by destruct (last (sort_by_key keyed)).
Qed.

(** The sort of [get_last_version] never fails on the filtered tags. *)
Lemma get_last_version_sorted (stdout : string) :
  version_tags_of stdout ≠ [] →
  ∃ keyed best,
    Forall2 (λ v kv, version_key v = Ok kv.1 ∧ kv.2 = v) (version_tags_of stdout) keyed
    ∧ last (sort_by_key keyed) = Some best
    ∧ get_last_version (Ok stdout) = best.2.
Proof.
  intros Hne. rewrite get_last_version_unfold.
  destruct (mapM_Ok_intro (λ v, k ← version_key v; Ok (k, v)) (version_tags_of stdout))
    as [keyed Hkeyed].
  { apply Forall_forall. intros v Hv.
    destruct (version_tag_key _ _ Hv) as (M & m & p & Hk).
    unfold mbind, result_bind. rewrite Hk. by eexists. }
  assert (Hrel : Forall2 (λ v kv, version_key v = Ok kv.1 ∧ kv.2 = v)
                   (version_tags_of stdout) keyed).
  { apply mapM_Ok_inv in Hkeyed. eapply Forall2_impl; [exact Hkeyed|].
    intros v kv. simpl. unfold mbind, result_bind.
    destruct (version_key v); [|done]. by intros [= <-]. }
  assert (Hsorted : sort_by_key keyed ≠ []).
  { destruct keyed as [|kv keyed]; [by apply Forall2_nil_inv_r in Hrel|].
    intros Hnil. assert (Hin : kv ∈ sort_by_key (kv :: keyed))
      by (apply sort_by_key_elem, elem_of_cons; by left).
    rewrite Hnil in Hin. by apply elem_of_nil in Hin. }
  apply last_is_Some in Hsorted as [best Hbest].
  exists keyed, best. split; [done|]. split; [done|].
  rewrite Hkeyed, Hbest. by destruct (version_tags_of stdout).
Qed.

(** C5: [get_last_version] returns ["0.0.0"] when [git tag -l] fails or
    lists no tag that matches the pattern; otherwise it returns one of the
    listed tags that match, each of which is three numbers with dots, and
    no such tag has a higher (major, minor, patch); on the three tags of
    the specification it returns ["1.10.0"]. *)
Theorem get_last_version_highest :
  (∀ e, get_last_version (Raise e) = "0.0.0")
  ∧ (∀ stdout, version_tags_of stdout = [] → get_last_version (Ok stdout) = "0.0.0")
  ∧ (∀ stdout tag,
       tag ∈ version_tags_of stdout ↔
       tag ∈ split LF (strip stdout) ∧ tag ≠ EmptyString
       ∧ re_match version_re tag = true)
  ∧ (∀ stdout, version_tags_of stdout ≠ [] →
       get_last_version (Ok stdout) ∈ version_tags_of stdout
       ∧ ∃ M m p,
           version_key (get_last_version (Ok stdout)) = Ok [M; m; p]
           ∧ ∀ tag, tag ∈ version_tags_of stdout →
               ∃ M' m' p', version_key tag = Ok [M'; m'; p']
                           ∧ triple_le (M', m', p') (M, m, p))
  ∧ get_last_version (Ok tag_listing) = "1.10.0".
Proof.
  split; [done|]. split.
  { intros stdout H. by rewrite get_last_version_unfold, H. }
  split; [apply version_tags_of_elem|]. split; [|vm_compute; reflexivity].
  intros stdout Hne.
  destruct (get_last_version_sorted stdout Hne) as (keyed & best & Hrel & Hbest & ->).
  destruct (last_sorted_max _ _ (sort_by_key_sorted keyed) Hbest) as [Hin Hmax].
  apply (proj1 (sort_by_key_elem _ _)) in Hin.
  assert (Hbest_tag : best.2 ∈ version_tags_of stdout ∧ version_key best.2 = Ok best.1).
  { apply list_elem_of_lookup in Hin as [i Hi].
    destruct (Forall2_lookup_r _ _ _ _ _ Hrel Hi) as (v & Hv & Hk & <-).
    split; [|done]. apply list_elem_of_lookup. by exists i. }
  destruct Hbest_tag as [Hbt Hbk]. split; [done|].
  destruct (version_tag_key _ _ Hbt) as (M & m & p & HM).
  exists M, m, p. split; [done|]. intros tag Htag.
  destruct (version_tag_key _ _ Htag) as (M' & m' & p' & HM').
  exists M', m', p'. split; [done|]. apply tuple_lt_triple.
  apply list_elem_of_lookup in Htag as [i Hi].
  destruct (Forall2_lookup_l _ _ _ _ _ Hrel Hi) as (kv & Hkv & Hk & Hv).
  assert (Hle : key_le kv best).
  { apply Hmax, sort_by_key_elem, list_elem_of_lookup. by exists i. }
  unfold key_le in Hle. rewrite Hbk in HM. rewrite Hk in HM'.
  injection HM as HM. injection HM' as HM'. by rewrite HM, HM' in Hle.
Qed.

(** ** C6 *)

Lemma matches_Str (lit u : string) : matches (Str lit) u ↔ u = lit.
Proof.
  revert u. induction lit as [|c lit IH]; simpl; intros u.
  - split; [by inversion 1|intros ->; constructor].
  - split.
    + inversion 1 as [| |? ? s1 s2 H1 H2| | | |]; subst.
      apply matches_Lit in H1 as ->. apply IH in H2 as ->. done.
    + intros ->. change (String c lit) with (String c EmptyString +:+ lit).
      constructor; [|by apply IH]. constructor. apply Ascii.eqb_refl.
Qed.

Lemma prefix_iff (p s : string) :
  String.prefix p s = true ↔ ∃ v, s = p +:+ v.
Proof.
  revert s. induction p as [|a p IH]; intros s.
  - destruct s; (split; [intros _; by eexists|done]).
  - destruct s as [|b s]; [split; [done|by intros [v Hv]]|].
    change (String.prefix (String a p) (String b s))
      with (if ascii_dec a b then String.prefix p s else false).
    destruct (ascii_dec a b) as [->|Hne].
    + rewrite IH. split; intros [v Hv]; exists v; simpl in *; congruence.
    + split; [done|]. intros [v Hv]. simpl in Hv. congruence.
Qed.

(** [re.match] with a literal pattern is [startswith]. *)
Lemma match_prefix_Str (lit s : string) :
  match_prefix (Str lit) s = startswith lit s.
Proof.
  apply eq_true_iff_eq. unfold startswith. rewrite match_prefix_iff, prefix_iff.
  split.
  - intros (u & v & -> & ->%matches_Str). by exists v.
  - intros [v ->]. exists lit, v. split; [done|]. by apply matches_Str.
Qed.

Lemma feat_re_startswith (subject : string) :
  re_match feat_re subject = startswith "feat:" subject.
Proof. apply match_prefix_Str. Qed.

Lemma breaking_re_startswith (subject : string) :
  re_match breaking_re subject
  = startswith "feat!:" subject || startswith "fix!:" subject.
Proof.
  change (re_match breaking_re subject)
    with (match_prefix (Seq (Alt (Str "feat") (Str "fix")) (Str "!:")) subject).
  apply eq_true_iff_eq. unfold startswith.
  rewrite orb_true_iff, match_prefix_iff, !prefix_iff. split.
  - intros (u & v & -> & Hu).
    inversion Hu as [| |? ? s1 s2 H1 H2| | | |]; subst.
    apply (matches_Str "!:") in H2 as ->.
    inversion H1 as [| | |? ? ? H|? ? ? H| |]; subst.
    + apply (matches_Str "feat") in H as ->. left. by exists v.
    + apply (matches_Str "fix") in H as ->. right. by exists v.
  - intros [[v ->]|[v ->]].
    + exists "feat!:", v. split; [done|].
      apply (MSeq _ _ "feat" "!:"); [apply MAltL|]; by apply matches_Str.
    + exists "fix!:", v. split; [done|].
      apply (MSeq _ _ "fix" "!:"); [apply MAltR|]; by apply matches_Str.
Qed.

Section Bump.

Variable git_show : string → result string.

Lemma bump_loop_cons (c : string) (rest : list string) (m0 : bool) :
  bump_loop git_show (c :: rest) m0 =
  if is_breaking git_show c then mkScan true m0 [c]
  else
    let r := bump_loop git_show rest (m0 || is_feature git_show c) in
    mkScan (has_major r) (has_minor r) (c :: shown r).
Proof.
  simpl. unfold is_breaking, is_feature.
  destruct (get_commit_message git_show c) as [subject body]. simpl.
  destruct (contains _ subject || contains _ body); simpl; [done|].
  by destruct (re_match breaking_re subject).
Qed.

Lemma has_major_iff (commits : list string) (m0 : bool) :
  has_major (bump_loop git_show commits m0) = true ↔
  ∃ c, c ∈ commits ∧ is_breaking git_show c = true.
Proof.
  revert m0. induction commits as [|c rest IH]; intros m0.
  - simpl. split; [done|]. intros (c & Hc & _). by apply elem_of_nil in Hc.
  - rewrite bump_loop_cons. destruct (is_breaking git_show c) eqn:Hb; simpl.
    + split; [|done]. intros _. exists c. split; [apply elem_of_cons; by left|done].
    + rewrite IH. split.
      * intros (x & Hx & Hbx). exists x. split; [apply elem_of_cons; by right|done].
      * intros (x & Hx & Hbx). apply elem_of_cons in Hx as [->|Hx]; [congruence|].
        by exists x.
Qed.

Lemma has_minor_iff (commits : list string) (m0 : bool) :
  (∀ c, c ∈ commits → is_breaking git_show c = false) →
  has_minor (bump_loop git_show commits m0) = true ↔
  m0 = true ∨ ∃ c, c ∈ commits ∧ is_feature git_show c = true.
Proof.
  revert m0. induction commits as [|c rest IH]; intros m0 Hno.
  - simpl. split; [by left|]. intros [?|(c & Hc & _)]; [done|by apply elem_of_nil in Hc].
  - rewrite bump_loop_cons, (Hno c) by (apply elem_of_cons; by left). simpl.
    rewrite IH by (intros x Hx; apply Hno, elem_of_cons; by right).
    rewrite orb_true_iff. split.
    + intros [[?|Hf]|(x & Hx & Hfx)]; [by left| |].
      * right. exists c. split; [apply elem_of_cons; by left|done].
      * right. exists x. split; [apply elem_of_cons; by right|done].
    + intros [?|(x & Hx & Hfx)]; [by left; left|].
      apply elem_of_cons in Hx as [->|Hx]; [by left; right|]. right. by exists x.
Qed.

(** The loop stops at the first breaking commit: no later message is
    fetched. *)
Lemma shown_until_breaking (before after : list string) (c : string) (m0 : bool) :
  (∀ x, x ∈ before → is_breaking git_show x = false) →
  is_breaking git_show c = true →
  shown (bump_loop git_show (before ++ c :: after) m0) = before ++ [c].
Proof.
  revert m0. induction before as [|x before IH]; intros m0 Hno Hc.
  - simpl app. by rewrite bump_loop_cons, Hc.
  - change ((x :: before) ++ c :: after) with (x :: (before ++ c :: after)).
    rewrite bump_loop_cons, (Hno x) by (apply elem_of_cons; by left). simpl.
    f_equal. apply IH; [|done]. intros y Hy. apply Hno, elem_of_cons. by right.
Qed.

End Bump.

(** C6: [determine_bump] returns ['major'] exactly when some commit has
    [BREAKING CHANGE:] in its subject or body or a subject that matches
    [^(feat|fix)!:], and then no message after the first such commit is
    fetched; otherwise ['minor'] exactly when some subject matches [^feat:];
    otherwise ['patch'].  The two patterns are prefix tests.  The three
    examples of the specification are included. *)
Theorem determine_bump_classifies :
  (∀ git_show commits,
      (determine_bump git_show commits = "major" ↔
       ∃ c, c ∈ commits ∧ is_breaking git_show c = true)
      ∧ (determine_bump git_show commits = "minor" ↔
         (∀ c, c ∈ commits → is_breaking git_show c = false)
         ∧ ∃ c, c ∈ commits ∧ is_feature git_show c = true)
      ∧ (determine_bump git_show commits = "patch" ↔
         (∀ c, c ∈ commits → is_breaking git_show c = false)
         ∧ ∀ c, c ∈ commits → is_feature git_show c = false)
      ∧ (∀ before c after,
           commits = before ++ c :: after →
           (∀ x, x ∈ before → is_breaking git_show x = false) →
           is_breaking git_show c = true →
           shown (bump_loop git_show commits false) = before ++ [c]))
  ∧ (∀ subject,
       re_match breaking_re subject
       = startswith "feat!:" subject || startswith "fix!:" subject)
  ∧ (∀ subject, re_match feat_re subject = startswith "feat:" subject)
  ∧ determine_bump subject_only ["feat: add X"; "fix: patch Y"] = "minor"
  ∧ determine_bump subject_only ["fix!: change API"] = "major"
  ∧ determine_bump subject_only ["chore: cleanup"] = "patch".
Proof.
  split; [|split; [apply breaking_re_startswith|split; [apply feat_re_startswith|]];
           repeat split; vm_compute; reflexivity].
  intros git_show commits.
  assert (Hno : has_major (bump_loop git_show commits false) = false ↔
                ∀ c, c ∈ commits → is_breaking git_show c = false).
  { rewrite <- not_true_iff_false, has_major_iff. split.
    - intros H c Hc. apply not_true_iff_false. intros Hb. apply H. by exists c.
    - intros H (c & Hc & Hb). rewrite (H c Hc) in Hb. done. }
  unfold determine_bump. cbv zeta.
  destruct (has_major (bump_loop git_show commits false)) eqn:HM.
  - pose proof (proj1 (has_major_iff git_show commits false) HM) as Hex.
    split; [done|]. split; [|split].
    + split; [done|]. intros [Hall _]. apply Hno in Hall. done.
    + split; [done|]. intros [Hall _]. apply Hno in Hall. done.
    + intros before c after -> ? ?. by apply shown_until_breaking.
  - pose proof (proj1 Hno eq_refl) as Hall.
    pose proof (has_minor_iff git_show commits false Hall) as Hm.
    split; [|split; [|split]].
    + split; [by destruct (has_minor _)|].
      intros (c & Hc & Hb). rewrite (Hall c Hc) in Hb. done.
    + destruct (has_minor _).
      * split; [|done]. intros _. split; [done|].
        destruct (proj1 Hm eq_refl) as [?|?]; done.
      * split; [done|]. intros [_ Hex]. exfalso.
        assert (false = true) by (apply Hm; by right). done.
    + destruct (has_minor _).
      * split; [done|]. intros [_ Hnf]. exfalso.
        destruct (proj1 Hm eq_refl) as [?|(c & Hc & Hf)]; [done|].
        rewrite (Hnf c Hc) in Hf. done.
      * split; [|done]. intros _. split; [done|]. intros c Hc.
        apply not_true_iff_false. intros Hf.
        assert (false = true) by (apply Hm; right; by exists c). done.
    + intros before c after -> ? ?. by apply shown_until_breaking.
Qed.

(** ** C7 *)

Lemma increment_version_triple (version bump : string) (M m p : Z) :
  version_key version = Ok [M; m; p] →
  increment_version version bump =
  Ok (if String.eqb bump "major" then format_version (M + 1) 0 0
      else if String.eqb bump "minor" then format_version M (m + 1) 0
      else format_version M m (p + 1)).
Proof.
  unfold version_key, increment_version. intros ->.
  unfold mbind, result_bind.
  destruct (String.eqb bump "major"); [done|].
  by destruct (String.eqb bump "minor").
Qed.


(** ** C8 *)

Lemma tree_nested_ind (P : tree → Prop) :
  P TFile →
  (∀ entries, Forall (λ e, P e.2) entries → P (TDir entries)) →
  ∀ t, P t.
Proof.
  intros HF HD. fix IH 1. intros [|entries]; [exact HF|].
  apply HD. induction entries as [|[d sub] entries IHe]; constructor; [apply IH|exact IHe].
Qed.

Lemma ancestors_cons (d : string) (rel : list string) :
  rel ≠ [] → ancestors (d :: rel) = d :: ancestors rel.
Proof. by destruct rel. Qed.

(** Every path the walk hands over lies below no excluded directory. *)
Lemma walk_tree_sound (t : tree) (root q : list string) :
  q ∈ walk_tree root t →
  ∃ rel, q = root ++ rel ∧ rel ≠ []
         ∧ Forall (λ d, excluded d = false) (ancestors rel).
Proof.
  revert root. induction t as [|entries IH] using tree_nested_ind; intros root; simpl.
  - intros H. by apply elem_of_nil in H.
  - rewrite elem_of_app. intros [H|H].
    + apply list_elem_of_fmap in H as (e & -> & _). exists [e.1]. repeat split; [done|].
      constructor.
    + apply list_elem_of_In, in_flat_map in H as ([d sub] & He & Hq).
      apply list_elem_of_In in He, Hq.
      destruct (is_dir sub && negb (excluded d)) eqn:Hkeep;
        [|by apply elem_of_nil in Hq].
      apply andb_true_iff in Hkeep as [_ Hd%negb_true_iff].
      rewrite Forall_forall in IH.
      destruct (IH _ He _ Hq) as (rel & -> & Hrel & Hanc).
      exists (d :: rel). split; [by rewrite <- app_assoc|]. split; [done|].
      rewrite ancestors_cons by done. by constructor.
Qed.

(** Every file below no excluded directory is handed over. *)
Lemma walk_tree_complete (p : list string) (entries : list (string * tree))
    (root : list string) :
  lookup_path p (TDir entries) = Some TFile →
  Forall (λ d, excluded d = false) (ancestors p) →
  root ++ p ∈ walk_tree root (TDir entries).
Proof.
  revert entries root. induction p as [|name rest IH]; intros entries root; [done|].
  simpl lookup_path. destruct (dict_get name entries) as [sub|] eqn:Hname; [|done].
  intros Hfile Hanc. simpl. apply elem_of_app.
  pose proof (dict_get_elem _ _ _ Hname) as Hin.
  destruct rest as [|next rest].
  - simpl in Hfile. injection Hfile as ->. left.
    apply list_elem_of_fmap. exists (name, TFile). split; [done|].
    by apply list_elem_of_filter.
  - right. destruct sub as [|sub]; [done|].
    rewrite ancestors_cons in Hanc by done. apply Forall_cons in Hanc as [Hd Hanc].
    apply list_elem_of_In, in_flat_map. exists (name, TDir sub).
    split; [by apply list_elem_of_In|]. apply list_elem_of_In.
    rewrite Hd. simpl. replace (root ++ name :: next :: rest)
      with ((root ++ [name]) ++ next :: rest) by (by rewrite <- app_assoc).
    by apply IH.
Qed.

Lemma dict_get_app_Some {A} (k : string) (d d' : odict A) (v : A) :
  dict_get k d = Some v → dict_get k (d ++ d') = Some v.
Proof.
  induction d as [|[k0 v0] d IH]; simpl; [done|]. by destruct (String.eqb k k0).
Qed.

(** Opening the archive for writing leaves every file of the tree a file. *)
Lemma create_file_keeps (parts : list string) (top top' : list (string * tree))
    (p : list string) :
  create_file parts top = Ok top' →
  lookup_path p (TDir top) = Some TFile →
  lookup_path p (TDir top') = Some TFile.
Proof.
  revert top top' p. induction parts as [|name rest IH]; intros top top' p; [done|].
  simpl. destruct rest as [|next rest].
  - destruct (dict_get name top) as [[|sub]|] eqn:Hname; try done.
    + by intros [= <-].
    + intros [= <-]. destruct p as [|k p]; [done|]. simpl.
      destruct (dict_get k top) as [t|] eqn:Hk; [|done].
      by rewrite (dict_get_app_Some _ _ _ _ Hk).
  - destruct (dict_get name top) as [[|sub]|] eqn:Hname; try done.
    unfold mbind, result_bind.
    destruct (create_file (next :: rest) sub) as [sub'|] eqn:Hrec; [|done].
    intros [= <-]. destruct p as [|k p]; [done|]. simpl.
    destruct (decide (name = k)) as [->|Hne].
    + rewrite Hname, dict_get_set_eq. destruct p as [|k' p]; [done|].
      by apply IH.
    + by rewrite dict_get_set_ne.
Qed.

(** The calls of [write_files] are made on files of the walk, each under
    the archive name of its path. *)
Lemma write_files_elem (zf_write : list string → string → result ())
    (repo_name version : string) (paths : list (list string))
    (calls : list (list string * string)) (r : result ())
    (file_path : list string) (arcname : string) :
  write_files zf_write repo_name version paths = (calls, r) →
  (file_path, arcname) ∈ calls →
  file_path ∈ paths ∧ arcname = archive_name repo_name version file_path.
Proof.
  revert calls r. induction paths as [|p rest IH]; intros calls r; simpl.
  - intros [= <- <-] H. by apply elem_of_nil in H.
  - destruct (zf_write p _) as [[]|e].
    + destruct (write_files zf_write repo_name version rest) as [calls' r'].
      intros [= <- <-] [[= -> ->]|H]%elem_of_cons.
      * split; [apply elem_of_cons; by left|done].
      * destruct (IH _ _ eq_refl H) as [? ?]. split; [apply elem_of_cons; by right|done].
    + intros [= <- <-] [= -> ->]%list_elem_of_singleton.
      split; [apply elem_of_cons; by left|done].
Qed.

(** The loop ends without an exception only when every call has
    returned, and then every file of the walk has been written. *)
Lemma write_files_Ok (zf_write : list string → string → result ())
    (repo_name version : string) (paths : list (list string))
    (calls : list (list string * string)) :
  write_files zf_write repo_name version paths = (calls, Ok ()) →
  calls = map (λ file_path, (file_path, archive_name repo_name version file_path)) paths
  ∧ ∀ file_path, file_path ∈ paths →
      zf_write file_path (archive_name repo_name version file_path) = Ok ().
Proof.
  revert calls. induction paths as [|p rest IH]; intros calls; simpl.
  - intros [= <-]. split; [done|]. intros q H. by apply elem_of_nil in H.
  - destruct (zf_write p _) as [[]|e] eqn:Hp; [|done].
    destruct (write_files zf_write repo_name version rest) as [calls' r'].
    intros [= <- ->]. destruct (IH _ eq_refl) as [-> Hall]. split; [done|].
    intros q [->|Hq]%elem_of_cons; auto.
Qed.

(** The loop ends with the exception of the call it made last. *)
Lemma write_files_Raise (zf_write : list string → string → result ())
    (repo_name version : string) (paths : list (list string))
    (calls : list (list string * string)) (e : exn) :
  write_files zf_write repo_name version paths = (calls, Raise e) →
  ∃ file_path,
    file_path ∈ paths
    ∧ last calls = Some (file_path, archive_name repo_name version file_path)
    ∧ zf_write file_path (archive_name repo_name version file_path) = Raise e.
Proof.
  revert calls. induction paths as [|p rest IH]; intros calls; simpl; [done|].
  destruct (zf_write p _) as [[]|e'] eqn:Hp.
  - destruct (write_files zf_write repo_name version rest) as [calls' r'].
    intros [= <- ->]. destruct (IH _ eq_refl) as (q & Hq & Hlast & Hraise).
    exists q. split; [apply elem_of_cons; by right|]. split; [|done].
    destruct calls'; [done|]. exact Hlast.
  - intros [= <- <-]. exists p. split; [apply elem_of_cons; by left|done].
Qed.

(** A file of the walk is reached when the calls for the other files
    return. *)
Lemma write_files_reaches (zf_write : list string → string → result ())
    (repo_name version : string) (paths : list (list string))
    (file_path : list string) :
  file_path ∈ paths →
  (∀ q, q ∈ paths → q ≠ file_path →
        zf_write q (archive_name repo_name version q) = Ok ()) →
  (file_path, archive_name repo_name version file_path)
  ∈ (write_files zf_write repo_name version paths).1.
Proof.
  induction paths as [|p rest IH]; intros Hin Hothers; [by apply elem_of_nil in Hin|].
  simpl. destruct (decide (p = file_path)) as [->|Hne].
  - destruct (zf_write file_path _) as [[]|e].
    + destruct (write_files zf_write repo_name version rest) as [calls' r'].
      apply elem_of_cons. by left.
    + apply elem_of_cons. by left.
  - assert (Hp : zf_write p (archive_name repo_name version p) = Ok ()).
    { apply Hothers; [|done]. apply elem_of_cons. by left. }
    rewrite Hp. apply elem_of_cons in Hin as [->|Hin]; [done|].
    destruct (write_files zf_write repo_name version rest) as [calls' r'] eqn:Hrest.
    apply elem_of_cons. right.
    apply IH; [done|]. intros q Hq. apply Hothers, elem_of_cons. by right.
Qed.

(** The two ways [create_zip] goes: the archive cannot be opened, or the
    files of the tree with the archive in it are written in turn. *)
Lemma create_zip_inv (zf_write : list string → string → result ())
    (repo_name version : string) (top : list (string * tree))
    (calls : list (list string * string)) (r : result string) :
  create_zip zf_write repo_name version top = (calls, r) →
  (∃ e, create_file
          (filter (λ c, c ≠ EmptyString ∧ c ≠ ".")
                  (split "/" (repo_name +:+ "-" +:+ version +:+ ".zip"))) top
        = Raise e ∧ calls = [] ∧ r = Raise e)
  ∨ ∃ top' r',
      create_file
        (filter (λ c, c ≠ EmptyString ∧ c ≠ ".")
                (split "/" (repo_name +:+ "-" +:+ version +:+ ".zip"))) top
      = Ok top'
      ∧ write_files zf_write repo_name version (walk_files top') = (calls, r')
      ∧ r = match r' with
            | Ok _ => Ok (repo_name +:+ "-" +:+ version +:+ ".zip")
            | Raise e => Raise e
            end.
Proof.
  unfold create_zip. cbv zeta.
  destruct (create_file _ top) as [top'|e]; [|intros [= <- <-]; left; by exists e].
  destruct (write_files zf_write repo_name version (walk_files top'))
    as [calls' r'] eqn:Hloop.
  intros [= <- <-]. right. by exists top', r'.
Qed.

(** C8, as stated, fails: in a tree with a submodule, whose [.git] is a
    file, that file is written into the archive, and its path has the
    component [.git]. *)
Lemma git_file_is_packaged :
  ∃ members,
    create_zip every_write_returns "repo" "1.0.0" tree_with_submodule
    = (members, Ok "repo-1.0.0.zip")
    ∧ (["sub"; ".git"], "repo-1.0.0/sub/.git") ∈ members
    ∧ ".git" ∈ ["sub"; ".git"].
Proof.
  eexists. split; [vm_compute; reflexivity|]. split.
  - do 2 (apply elem_of_cons; right). apply elem_of_cons. by left.
  - apply elem_of_cons. right. apply elem_of_cons. by left.
Qed.

(** C8, amended: no file [create_zip] hands to [zf.write] was read from
    below a directory named [.git] or [.github], at any depth (a file that
    itself has such a name is handed over like any other), and its name in
    the archive is its path in the tree behind [{repo_name}-{version}/].
    [create_zip] returns only when every call of [zf.write] it has made
    has returned; when it returns, every file of the working tree that is
    below no such directory has been written. *)
Theorem create_zip_members (zf_write : list string → string → result ())
    (repo_name version : string) (top : list (string * tree))
    (members : list (list string * string)) (r : result string) :
  create_zip zf_write repo_name version top = (members, r) →
  (∀ file_path arcname, (file_path, arcname) ∈ members →
     (∀ d, d ∈ ancestors file_path → d ≠ ".git" ∧ d ≠ ".github")
     ∧ arcname = repo_name +:+ "-" +:+ version +:+ "/" +:+ join_path file_path)
  ∧ (∀ zip_filename, r = Ok zip_filename →
       zip_filename = repo_name +:+ "-" +:+ version +:+ ".zip"
       ∧ (∀ file_path arcname, (file_path, arcname) ∈ members →
            zf_write file_path arcname = Ok ())
       ∧ (∀ file_path,
            lookup_path file_path (TDir top) = Some TFile →
            (∀ d, d ∈ ancestors file_path → d ≠ ".git" ∧ d ≠ ".github") →
            (file_path, repo_name +:+ "-" +:+ version +:+ "/" +:+ join_path file_path)
            ∈ members)).
Proof.
  assert (Hex : ∀ d, excluded d = false ↔ d ≠ ".git" ∧ d ≠ ".github").
  { intros d. unfold excluded, str_in. simpl.
    rewrite orb_false_r, orb_false_iff, !String.eqb_neq. done. }
  intros [(e & _ & -> & ->)|(top' & r' & Hopen & Hloop & ->)]%create_zip_inv.
  { split; [|done]. intros file_path arcname H. by apply elem_of_nil in H. }
  split.
  - intros file_path arcname Hin.
    destruct (write_files_elem _ _ _ _ _ _ _ _ Hloop Hin) as [Hq ->].
    split; [|done]. apply walk_tree_sound in Hq as (rel & -> & _ & Hanc).
    intros d Hd. apply Hex. rewrite Forall_forall in Hanc. by apply Hanc.
  - intros zip_filename Hr. destruct r' as [[]|e]; [|done]. injection Hr as <-.
    apply write_files_Ok in Hloop as [-> Hall]. split; [done|]. split.
    + intros file_path arcname (q & [= -> ->] & Hq)%list_elem_of_fmap. by apply Hall.
    + intros file_path Hfile Hanc. apply list_elem_of_fmap. exists file_path.
      split; [done|]. apply (walk_tree_complete file_path top' []).
      * by eapply create_file_keeps.
      * apply Forall_forall. intros d Hd. apply Hex. by apply Hanc.
Qed.

(** Metadata directories at the top and one level down. *)
Lemma create_zip_members_witness :
  ∃ members,
    create_zip every_write_returns "repo" "1.0.0" tree_with_metadata
    = (members, Ok "repo-1.0.0.zip")
    ∧ (["src"; "main.py"], "repo-1.0.0/src/main.py") ∈ members
    ∧ ∀ file_path arcname, (file_path, arcname) ∈ members →
        ∀ d, d ∈ ancestors file_path → d ≠ ".git" ∧ d ≠ ".github".
Proof.
  eexists. split; [vm_compute; reflexivity|].
  match goal with
  | |- (_ ∈ ?ms) ∧ _ =>
      destruct (create_zip_members every_write_returns "repo" "1.0.0" tree_with_metadata
                  ms (Ok "repo-1.0.0.zip")) as (Hsound & Hcomplete)
  end.
  - vm_compute. reflexivity.
  - destruct (Hcomplete _ eq_refl) as (_ & _ & Hall). split.
    + apply (Hall ["src"; "main.py"]); [vm_compute; reflexivity|].
      intros d Hd. apply list_elem_of_singleton in Hd as ->. by split.
    + intros file_path arcname Hin. by apply (Hsound file_path arcname).
Defined.

End SemverClaims.


(** * Further properties of the configuration generator *)

Module GenerateConfigExtras.
Import Py PyFacts GenerateConfig GenerateConfigFacts Examples.

#[local] Arguments str_in : simpl never.
#[local] Arguments overrides_of : simpl never.
#[local] Arguments String.append !_ _ / : simpl nomatch.

(** ** What the steps leave alone *)

Lemma generate_serverconfig_files (st st' : state) (r : result ()) :
  generate_serverconfig st = (r, st') →
  files st' = files st
  ∧ config_json_path st' = config_json_path st
  ∧ default_config_yaml_path st' = default_config_yaml_path st.
Proof.
  rewrite generate_serverconfig_unfold.
  destruct (dict_get creative (environ st)) as [raw|] eqn:Hc.
  - rewrite (creative_mode_pass_present st raw Hc). cbv zeta.
    repeat (case_match; simplify_eq/=); rewrite ?bulk_pass_unfold;
      repeat (case_match; simplify_eq/=); intros; simplify_eq/=; done.
  - rewrite (creative_mode_pass_absent st Hc), bulk_pass_unfold.
    repeat (case_match; simplify_eq/=); intros; simplify_eq/=; done.
Qed.

Lemma mkdir_parents_only_ancestors (q : list string)
    (fs fs' : gmap (list string) node) (k : list string) :
  mkdir_parents q fs = Ok fs' → ¬ k `suffix_of` q → fs' !! k = fs !! k.
Proof.
  revert fs'. induction q as [|name parent IH]; intros fs' Hmk Hk; simpl in Hmk.
  - by injection Hmk as <-.
  - assert (Hne : name :: parent ≠ k) by (intros <-; by apply Hk).
    assert (Hparent : ¬ k `suffix_of` parent).
    { intros H. apply Hk. by apply suffix_cons_r. }
    destruct (fs !! (name :: parent)) as [[c|]|]; try done.
    { by injection Hmk as <-. }
    destruct (node_at fs parent) as [[c|]|]; try done.
    + injection Hmk as <-. by rewrite lookup_insert_ne.
    + unfold mbind, result_bind in Hmk.
      destruct (mkdir_parents parent fs) as [fs1|] eqn:Hrec; [|done].
      injection Hmk as <-. rewrite lookup_insert_ne by done. by apply IH.
Qed.

Section Frame.

Variable json_dumps : value → string.

Lemma write_config_only (p : list string) (st st' : state) (r : result ())
    (k : list string) :
  write_config json_dumps p st = (r, st') →
  k ≠ p → ¬ k `suffix_of` tail p →
  files st' !! k = files st !! k.
Proof.
  unfold write_config. munfold. simpl. intros Hrun Hne Hanc.
  destruct (mkdir_parents (tail p) (files st)) as [fs2|] eqn:Hmk; simpl in Hrun.
  - pose proof (mkdir_parents_only_ancestors _ _ _ k Hmk Hanc) as Hk.
    destruct (write_text fs2 p _) as [fs3|] eqn:Hwr; simpl in Hrun;
      injection Hrun as <- <-; simpl; [|done].
    unfold write_text in Hwr. repeat (case_match; simplify_eq/=);
      by rewrite lookup_insert_ne.
  - by injection Hrun as <- <-.
Qed.

Lemma backup_existing_only (p : list string) (st st' : state) (r : result ())
    (k : list string) :
  backup_existing p st = (r, st') →
  node_at (files st) p ≠ Some Dir →
  k ≠ p → with_suffix p ".json.backup" ≠ Ok k →
  files st' !! k = files st !! k.
Proof.
  unfold backup_existing. munfold. simpl. intros Hrun Hdir Hne Hb.
  destruct (path_exists (files st) p); [|by injection Hrun as <- <-].
  destruct (with_suffix p ".json.backup") as [b|] eqn:Hsuf;
    [|by injection Hrun as <- <-].
  assert (Hkb : b ≠ k) by congruence.
  assert (Hrename : ∀ fs fs', node_at fs p ≠ Some Dir → rename fs p b = Ok fs' →
            fs' !! k = fs !! k).
  { intros fs fs' Hd Hren. unfold rename in Hren.
    destruct (node_at fs p) as [[c|]|]; try done.
    repeat (case_match; simplify_eq/=);
      by rewrite lookup_insert_ne, lookup_delete_ne. }
  destruct (path_exists (files st) b); cbv beta iota in Hrun.
  - destruct (unlink (files st) b) as [fs1|] eqn:Hun; simpl in Hrun;
      [|by injection Hrun as <- <-].
    unfold unlink in Hun. destruct (node_at (files st) b) as [[c|]|]; try done.
    injection Hun as <-.
    assert (Hd1 : node_at (delete b (files st)) p ≠ Some Dir).
    { destruct p as [|name parent]; [done|]. simpl in *.
      destruct (decide (b = name :: parent)) as [->|Hbp].
      - by rewrite lookup_delete_eq.
      - by rewrite lookup_delete_ne. }
    destruct (rename (delete b (files st)) p b) as [fs2|] eqn:Hren;
      injection Hrun as <- <-; simpl.
    + rewrite (Hrename _ _ Hd1 Hren). by rewrite lookup_delete_ne.
    + by rewrite lookup_delete_ne.
  - simpl in Hrun. destruct (rename (files st) p b) as [fs2|] eqn:Hren;
      injection Hrun as <- <-; simpl; [|done].
    by apply Hrename.
Qed.

End Frame.

(** ** X1-X3: runs that write nothing, and what a run may touch *)

(** X1: when the defaults file is missing, is a directory, or cannot be
    parsed, the script exits with status 1 and leaves the file system as it
    was, whatever the arguments and the environment. *)
Theorem main_without_defaults (json_dumps : value → string)
    (yaml_single_document : string → result (option value))
    (argv : list string) (env : odict string) (fs : gmap (list string) node) :
  let yaml := joinpath (Path (match dict_get "HOMEPATH" env with
                              | Some v => v
                              | None => "/vintagestory"
                              end)) "server-config.yaml" in
  (node_at fs yaml = None
   ∨ node_at fs yaml = Some Dir
   ∨ ∃ text e, node_at fs yaml = Some (File text)
               ∧ yaml_single_document text = Raise e) →
  GenerateConfig.main json_dumps yaml_single_document argv env fs = (1%Z, fs).
Proof.
  intros yaml Hyaml. unfold GenerateConfig.main, init. fold yaml.
  unfold load_config. munfold. cbv beta. cbn [default_config_yaml_path files].
  unfold path_exists, read_text.
  destruct Hyaml as [H|[H|(text & e & H & Hparse)]]; rewrite !H.
  - rewrite bool_decide_eq_false_2 by (by intros [? ?]). cbv beta iota.
    rewrite run_unfold. cbv zeta. cbn [files default_config_yaml_path with_config].
    unfold path_exists. rewrite H.
    rewrite bool_decide_eq_false_2 by (by intros [? ?]). reflexivity.
  - rewrite bool_decide_eq_true_2 by (by eexists). cbv beta iota. cbn [files].
    rewrite H. reflexivity.
  - rewrite bool_decide_eq_true_2 by (by eexists). cbv beta iota. cbn [files].
    rewrite H. unfold yaml_safe_load, mbind, result_bind. rewrite Hparse. reflexivity.
Qed.

Lemma main_without_defaults_witness :
  GenerateConfig.main json_text yaml_document ["generate-config.py"]
    [("VS_CFG_SERVER_NAME", "B")] ∅ = (1%Z, ∅).
Proof.
  apply (main_without_defaults json_text yaml_document ["generate-config.py"]
           [("VS_CFG_SERVER_NAME", "B")] ∅).
  left. reflexivity.
Defined.

(** X2: unless the output path is a directory, a run changes nothing but
    the output path, the backup path when there was an output to move, and
    the missing directories above the output; this holds for every exit
    code. *)
Theorem run_touches_only_output (json_dumps : value → string)
    (args : list string) (st : state) (k : list string) :
  node_at (files st) (resolve_output args (environ st)) ≠ Some Dir →
  k ≠ resolve_output args (environ st) →
  ¬ k `suffix_of` tail (resolve_output args (environ st)) →
  (path_exists (files st) (resolve_output args (environ st)) = true →
   with_suffix (resolve_output args (environ st)) ".json.backup" ≠ Ok k) →
  files (run json_dumps args st).2 !! k = files st !! k.
Proof.
  set (p := resolve_output args (environ st)). intros Hdir Hne Hanc Hbackup.
  rewrite run_unfold. cbv zeta. fold p.
  destruct (negb _); [done|].
  set (st0 := with_config_json_path (Some p) st).
  assert (H0 : ∀ st1 r, backup_existing p st0 = (r, st1) →
            files st1 !! k = files st !! k).
  { intros st1 r Hb. destruct (path_exists (files st) p) eqn:Hex.
    - by apply (backup_existing_only p st0 st1 r k Hb); [..|apply Hbackup].
    - unfold backup_existing in Hb. munfold. simpl in Hb. rewrite Hex in Hb.
      by injection Hb as <- <-. }
  destruct (backup_existing p st0) as [[[]|e1] st1] eqn:Hb;
    [|by apply (H0 _ _ eq_refl)].
  specialize (H0 _ _ eq_refl).
  destruct (generate_serverconfig st1) as [r2 st2] eqn:Hg.
  pose proof (generate_serverconfig_files _ _ _ Hg) as (Hf2 & _).
  destruct r2 as [[]|e2]; [|cbv beta iota; cbn [snd]; by rewrite Hf2].
  destruct (write_config json_dumps p st2) as [r3 st3] eqn:Hw.
  pose proof (write_config_only json_dumps _ _ _ _ k Hw Hne Hanc) as Hf3.
  rewrite Hf2 in Hf3.
  destruct r3 as [[]|e3]; [|cbv beta iota; cbn [snd]; exact (eq_trans Hf3 H0)].
  rewrite print_summary_unfold.
  repeat case_match; simplify_eq; cbv beta iota; cbn [snd]; exact (eq_trans Hf3 H0).
Qed.

Lemma run_touches_only_output_witness :
  files (run json_text ["generate-config.py"] st_server_name).2 !! yaml_path
  = Some (File "ServerName: A").
Proof.
  rewrite (run_touches_only_output json_text ["generate-config.py"] st_server_name
             yaml_path).
  - reflexivity.
  - vm_compute. discriminate.
  - vm_compute. discriminate.
  - intros [k Hk]. vm_compute in Hk.
    destruct k as [|a [|b [|c k]]]; discriminate Hk.
  - intros _. vm_compute. discriminate.
Defined.

(** ** X3: the backup path *)

Lemma length_substring (n m : nat) (s : string) :
  n + m ≤ String.length s → String.length (substring n m s) = m.
Proof.
  revert n m. induction s as [|a s IH]; intros n m; simpl.
  - intros H. assert (n = 0 ∧ m = 0) as [-> ->] by lia. done.
  - intros H. destruct n as [|n]; [destruct m as [|m]|]; simpl; [done| |].
    + rewrite IH by lia. done.
    + apply IH. lia.
Qed.

Lemma substring_split (n : nat) (s : string) :
  n ≤ String.length s →
  substring 0 n s +:+ substring n (String.length s - n) s = s.
Proof.
  revert n. induction s as [|a s IH]; intros n; simpl.
  - intros H. assert (n = 0) as -> by lia. done.
  - intros H. destruct n as [|n]; simpl.
    + by rewrite substring_all.
    + rewrite IH by lia. done.
Qed.

Lemma rfind_bound (c : ascii) (s : string) (i : nat) :
  rfind c s = Some i → i < String.length s.
Proof.
  revert i. induction s as [|a s IH]; intros i; simpl; [done|].
  destruct (rfind c s) as [j|].
  - intros [= <-]. specialize (IH j eq_refl). lia.
  - destruct (Ascii.eqb a c); [|done]. intros [= <-]. lia.
Qed.

(** From the last occurrence on, the character occurs only in front. *)
Lemma rfind_tail (c : ascii) (s : string) (i : nat) :
  rfind c s = Some i →
  rfind c (substring i (String.length s - i) s) = Some 0.
Proof.
  revert i. induction s as [|a s IH]; intros i; simpl; [done|].
  destruct (rfind c s) as [j|] eqn:Hj.
  - intros [= <-]. simpl. by apply IH.
  - destruct (Ascii.eqb a c) eqn:Ha; [|done]. intros [= <-]. simpl.
    rewrite substring_all. simpl. by rewrite Hj, Ha.
Qed.

(** A name is its stem followed by its suffix. *)
Lemma name_stem_suffix (name : string) :
  name = substring 0 (String.length name - String.length (suffix name)) name
         +:+ suffix name.
Proof.
  unfold suffix. destruct (rfind "." name) as [i|] eqn:Hi.
  - pose proof (rfind_bound _ _ _ Hi) as Hlt.
    destruct ((0 <? i) && (i <? String.length name - 1)).
    + rewrite length_substring by lia.
      replace (String.length name - (String.length name - i)) with i by lia.
      by rewrite substring_split by lia.
    + simpl. rewrite Nat.sub_0_r, substring_all. by rewrite RegexFacts.append_nil_r.
  - simpl. rewrite Nat.sub_0_r, substring_all. by rewrite RegexFacts.append_nil_r.
Qed.

Lemma suffix_one_dot (name : string) :
  suffix name = EmptyString ∨ rfind "." (suffix name) = Some 0.
Proof.
  unfold suffix. destruct (rfind "." name) as [i|] eqn:Hi; [|by left].
  destruct ((0 <? i) && (i <? String.length name - 1)); [|by left].
  right. by apply rfind_tail.
Qed.

Lemma with_suffix_sibling (p backup_path : list string) :
  with_suffix p ".json.backup" = Ok backup_path →
  backup_path ≠ p
  ∧ ∃ name stem,
      p = name :: tail p
      ∧ name = stem +:+ suffix name
      ∧ backup_path = (stem +:+ ".json.backup") :: tail p.
Proof.
  unfold with_suffix. destruct p as [|name parent]; [done|].
  destruct (String.eqb name EmptyString); [done|]. intros [= <-].
  set (stem := substring 0 (String.length name - String.length (suffix name)) name).
  pose proof (name_stem_suffix name) as Hname. fold stem in Hname.
  split; [|by exists name, stem].
  intros [= Heq]. pose proof (eq_trans Heq Hname) as Heq'. clear Heq.
  apply (inj (String.app stem)) in Heq'. rename Heq' into Heq.
  destruct (suffix_one_dot name) as [Hs|Hs]; rewrite <- Heq in Hs; done.
Qed.

(** X3: the backup path is a sibling of the output path whose name is the
    output's stem followed by [.json.backup]; it is never the output path
    itself, so moving the old output aside cannot overwrite it. *)
Theorem backup_path_is_a_sibling (p backup_path : list string) :
  with_suffix p ".json.backup" = Ok backup_path →
  backup_path ≠ p
  ∧ ∃ name stem,
      p = name :: tail p
      ∧ name = stem +:+ suffix name
      ∧ backup_path = (stem +:+ ".json.backup") :: tail p.
Proof. apply with_suffix_sibling. Qed.

Lemma backup_path_is_a_sibling_witness :
  with_suffix ["archive.tar.gz"; "data"] ".json.backup"
  = Ok ["archive.tar.json.backup"; "data"]
  ∧ ["archive.tar.json.backup"; "data"] ≠ ["archive.tar.gz"; "data"].
Proof.
  destruct (backup_path_is_a_sibling ["archive.tar.gz"; "data"]
              ["archive.tar.json.backup"; "data"]) as [Hne _].
  - vm_compute. reflexivity.
  - split; [vm_compute; reflexivity | exact Hne].
Defined.

(** ** X4-X5: a run that fails after the old output was moved *)

(** Whether [generate_serverconfig] returns depends on the environment and
    the configuration only. *)
Lemma generate_serverconfig_depends (st1 st : state) :
  environ st1 = environ st → config st1 = config st →
  (generate_serverconfig st1).1 = (generate_serverconfig st).1.
Proof.
  intros Henv Hcfg. rewrite !generate_serverconfig_unfold.
  destruct (dict_get creative (environ st)) as [raw|] eqn:Hc.
  - rewrite (creative_mode_pass_present st raw Hc).
    rewrite (creative_mode_pass_present st1 raw) by (by rewrite Henv).
    cbv zeta. rewrite Henv, Hcfg.
    repeat (case_match; simplify_eq/=); try done; rewrite !bulk_pass_unfold; simpl;
      repeat (case_match; simplify_eq/=); done.
  - rewrite (creative_mode_pass_absent st Hc).
    rewrite (creative_mode_pass_absent st1) by (by rewrite Henv).
    rewrite !bulk_pass_unfold, Henv, Hcfg.
    repeat (case_match; simplify_eq/=); done.
Qed.

(** The backup step succeeds on a file whose directory exists, unless the
    backup path is a directory. *)
Lemma backup_existing_returns (p b : list string) (st : state) (prior : string) :
  node_at (files st) p = Some (File prior) →
  node_at (files st) (tail p) = Some Dir →
  with_suffix p ".json.backup" = Ok b →
  node_at (files st) b ≠ Some Dir →
  ∃ st1, backup_existing p st = (Ok (), st1)
         ∧ files st1 !! p = None
         ∧ files st1 !! b = Some (File prior).
Proof.
  intros Hp Hparent Hsuf Hb.
  destruct (with_suffix_sibling p b Hsuf) as (Hne & name & stem & Hpn & _ & Hbn).
  assert (Htail : tail b = tail p) by (by rewrite Hbn).
  assert (Hnodep : ∀ fs : gmap (list string) node, node_at fs p = fs !! p)
    by (intros; by rewrite Hpn).
  assert (Hnodeb : ∀ fs : gmap (list string) node, node_at fs b = fs !! b)
    by (intros; by rewrite Hbn).
  assert (Hbt : b ≠ tail p).
  { rewrite Hbn. intros Heq. apply (f_equal length) in Heq. simpl in Heq. lia. }
  assert (Hpt : p ≠ tail p).
  { rewrite Hpn at 1. intros Heq. apply (f_equal length) in Heq. simpl in Heq. lia. }
  unfold backup_existing. munfold. simpl.
  assert (path_exists (files st) p = true) as ->.
  { unfold path_exists. rewrite Hp. apply bool_decide_eq_true_2. by eexists. }
  rewrite Hsuf.
  assert (Hstep : ∀ fs : gmap (list string) node,
            fs !! p = Some (File prior) → fs !! b = None →
            node_at fs (tail p) = Some Dir →
            rename fs p b = Ok (<[b := File prior]> (delete p fs))).
  { intros fs H1 H2 H3. unfold rename.
    by rewrite Hnodep, H1, Hnodeb, H2, Htail, H3. }
  assert (Hparent_del : node_at (delete b (files st)) (tail p) = Some Dir).
  { destruct (tail p) as [|q qs] eqn:Etail; [done|]. simpl in *.
    by rewrite lookup_delete_ne. }
  rewrite Hnodep in Hp. rewrite Hnodeb in Hb.
  destruct (path_exists (files st) b) eqn:Hstale; cbv beta iota.
  - unfold unlink. rewrite Hnodeb.
    destruct (files st !! b) as [[c|]|] eqn:Hbnode; [|done|].
    + simpl. rewrite Hstep; [|by rewrite lookup_delete_ne|apply lookup_delete_eq|done].
      eexists. split; [done|]. simpl.
      rewrite lookup_insert_ne, lookup_delete_eq, lookup_insert_eq by done. done.
    + unfold path_exists in Hstale. rewrite Hnodeb, Hbnode in Hstale.
      apply bool_decide_eq_true_1 in Hstale as [? ?]. done.
  - cbn [files]. rewrite Hstep; [|done| |done].
    + eexists. split; [done|]. simpl.
      rewrite lookup_insert_ne, lookup_delete_eq, lookup_insert_eq by done. done.
    + unfold path_exists in Hstale. rewrite Hnodeb in Hstale.
      apply bool_decide_eq_false_1 in Hstale.
      destruct (files st !! b); [|done]. exfalso. apply Hstale. by eexists.
Qed.

(** X4: when the merge fails after an old output was moved aside, the run
    returns 1 with nothing at the output path and the old content at the
    backup path: there is no rollback. *)
Theorem failed_merge_leaves_only_the_backup (json_dumps : value → string)
    (args : list string) (st : state) (b : list string) (prior : string) (e : exn) :
  path_exists (files st) (default_config_yaml_path st) = true →
  node_at (files st) (resolve_output args (environ st)) = Some (File prior) →
  node_at (files st) (tail (resolve_output args (environ st))) = Some Dir →
  with_suffix (resolve_output args (environ st)) ".json.backup" = Ok b →
  node_at (files st) b ≠ Some Dir →
  (generate_serverconfig st).1 = Raise e →
  (run json_dumps args st).1 = 1%Z
  ∧ files (run json_dumps args st).2 !! resolve_output args (environ st) = None
  ∧ files (run json_dumps args st).2 !! b = Some (File prior).
Proof.
  set (p := resolve_output args (environ st)). intros Hyaml Hp Hparent Hsuf Hb Hgen.
  destruct (backup_existing_returns p b (with_config_json_path (Some p) st) prior)
    as (st1 & Hbk & Hp1 & Hb1); [done..|].
  rewrite run_unfold. cbv zeta. fold p. rewrite Hyaml. cbv beta iota. simpl negb.
  cbv iota. rewrite Hbk.
  pose proof (backup_existing_frame _ _ _ _ Hbk) as (Henv & Hcfg & _).
  pose proof (generate_serverconfig_depends st1 st Henv Hcfg) as Hdep.
  rewrite Hgen in Hdep.
  destruct (generate_serverconfig st1) as [r2 st2] eqn:Hg. simpl in Hdep. subst r2.
  apply generate_serverconfig_files in Hg as (Hf & _).
  cbn [fst snd]. by rewrite Hf.
Qed.

Lemma failed_merge_leaves_only_the_backup_witness :
  (run json_text ["generate-config.py"] st_unknown).1 = 1%Z
  ∧ files (run json_text ["generate-config.py"] st_unknown).2 !! default_output = None
  ∧ files (run json_text ["generate-config.py"] st_unknown).2
      !! ["serverconfig.json.backup"; "data"; "vintagestory"] = Some (File "old").
Proof.
  apply (failed_merge_leaves_only_the_backup json_text ["generate-config.py"] st_unknown
           ["serverconfig.json.backup"; "data"; "vintagestory"] "old"
           (KeyError "VS_CFG_UNKNOWN")); vm_compute; try reflexivity; discriminate.
Defined.

(** X5: when the backup path is a directory, the run returns 1 before
    anything is moved or written: the file system is as it was. *)
Theorem backup_directory_blocks_run (json_dumps : value → string)
    (args : list string) (st : state) (b : list string) :
  path_exists (files st) (default_config_yaml_path st) = true →
  path_exists (files st) (resolve_output args (environ st)) = true →
  with_suffix (resolve_output args (environ st)) ".json.backup" = Ok b →
  node_at (files st) b = Some Dir →
  (run json_dumps args st).1 = 1%Z
  ∧ files (run json_dumps args st).2 = files st
  ∧ config (run json_dumps args st).2 = config st
  ∧ environ (run json_dumps args st).2 = environ st.
Proof.
  set (p := resolve_output args (environ st)). intros Hyaml Hex Hsuf Hb.
  rewrite run_unfold. cbv zeta. fold p. rewrite Hyaml. simpl negb. cbv iota.
  unfold backup_existing. munfold. simpl.
  rewrite Hex, Hsuf. unfold path_exists, unlink.
  change (files (with_config_json_path (Some p) st)) with (files st). rewrite Hb.
  rewrite bool_decide_eq_true_2 by (by eexists). cbv beta iota.
  change (files (with_config_json_path (Some p) st)) with (files st). rewrite Hb.
  done.
Qed.

Lemma backup_directory_blocks_run_witness :
  files (run json_text ["generate-config.py"]
           (object [] (<[ ["serverconfig.json.backup"; "data"; "vintagestory"] := Dir ]>
                         (container "ServerName: A" default_output))
              full_defaults)).2
    !! default_output = Some (File "old").
Proof.
  destruct (backup_directory_blocks_run json_text ["generate-config.py"]
              (object [] (<[ ["serverconfig.json.backup"; "data"; "vintagestory"] := Dir ]>
                            (container "ServerName: A" default_output))
                 full_defaults)
              ["serverconfig.json.backup"; "data"; "vintagestory"])
    as (_ & Hfiles & _); [vm_compute; reflexivity..|].
  rewrite Hfiles. vm_compute. reflexivity.
Defined.

(** ** X6-X8: the merge *)

(** X6: with the creative-mode variable set and no [WorldConfig] mapping in
    the configuration, [generate_serverconfig] raises ([KeyError] for a
    missing key, [TypeError] for a value that is not a mapping) after the
    variable has been taken out of the environment, leaves the
    configuration as it was, and [run] returns 1. *)
Theorem creative_mode_needs_world (json_dumps : value → string)
    (args : list string) (st : state) (d : odict value) (raw : string) :
  config st = VDict d →
  dict_get creative (environ st) = Some raw →
  (∀ world, dict_get "WorldConfig" d ≠ Some (VDict world)) →
  generate_serverconfig st
  = (Raise (match dict_get "WorldConfig" d with
            | None => KeyError "WorldConfig"
            | Some _ => TypeError
            end),
     with_environ (dict_del creative (environ st)) st)
  ∧ (run json_dumps args st).1 = 1%Z.
Proof.
  intros Hcfg Hraw Hworld.
  assert (Hgen : ∀ st1, environ st1 = environ st → config st1 = config st →
            generate_serverconfig st1
            = (Raise (match dict_get "WorldConfig" d with
                      | None => KeyError "WorldConfig"
                      | Some _ => TypeError
                      end),
               with_environ (dict_del creative (environ st1)) st1)).
  { intros st1 Henv Hcfg1. rewrite generate_serverconfig_unfold.
    rewrite (creative_mode_pass_present st1 raw) by (by rewrite Henv).
    cbv zeta. rewrite Hcfg1, Hcfg. simpl.
    destruct (dict_get "WorldConfig" d) as [[| | | | |world]|] eqn:Hw; try done.
    by destruct (Hworld world). }
  split; [by apply Hgen|].
  apply GenerateConfigClaims.run_exit_1_of_generate_raises.
  intros st1 Henv Hcfg1. rewrite (Hgen st1 Henv Hcfg1). by eexists _, _.
Qed.

Lemma creative_mode_needs_world_witness :
  generate_serverconfig
    (object [("VS_CFG_ALLOW_CREATIVE_MODE", "true")] ∅ defaults)
  = (Raise (KeyError "WorldConfig"), object [] ∅ defaults).
Proof.
  destruct (creative_mode_needs_world json_text []
              (object [("VS_CFG_ALLOW_CREATIVE_MODE", "true")] ∅ defaults)
              [("ServerName", VStr "A"); ("Port", VInt 1234)] "true")
    as [Hgen _].
  - reflexivity.
  - reflexivity.
  - intros world. vm_compute. discriminate.
  - exact Hgen.
Defined.

Lemma with_config_id (st : state) : with_config (config st) st = st.
Proof. by destruct st. Qed.

(** X7: with no variable that starts with [VS_CFG_] in the environment,
    [generate_serverconfig] returns and changes nothing: the configuration
    written is the defaults. *)
Theorem no_override_no_change (st : state) (d : odict value) :
  config st = VDict d →
  (∀ env_key, env_key ∈ (environ st).*1 → startswith "VS_CFG_" env_key = false) →
  generate_serverconfig st = (Ok (), st).
Proof.
  intros Hcfg Hnone.
  assert (Hc : dict_get creative (environ st) = None).
  { destruct (dict_get creative (environ st)) eqn:E; [|done].
    apply dict_get_Some_key, Hnone in E. done. }
  rewrite generate_serverconfig_unfold, (creative_mode_pass_absent st Hc),
    bulk_pass_unfold.
  assert (overrides_of (environ st) = Ok []) as ->.
  { unfold overrides_of.
    assert (filter (λ env_key, startswith "VS_CFG_" env_key = true) (environ st).*1
            = []) as ->; [|done].
    induction (environ st).*1 as [|k ks IH]; [done|].
    rewrite filter_cons_False.
    - apply IH. intros k' Hk'. apply Hnone. apply elem_of_cons. by right.
    - rewrite Hnone; [done|]. apply elem_of_cons. by left. }
  rewrite Hcfg. simpl. rewrite <- Hcfg. by rewrite with_config_id.
Qed.

Lemma no_override_no_change_witness :
  generate_serverconfig (object [("PATH", "/usr/bin"); ("HOME", "/root")] ∅ defaults)
  = (Ok (), object [("PATH", "/usr/bin"); ("HOME", "/root")] ∅ defaults).
Proof.
  apply (no_override_no_change _ [("ServerName", VStr "A"); ("Port", VInt 1234)]).
  - reflexivity.
  - intros env_key Hin.
    apply elem_of_cons in Hin as [->|Hin]; [reflexivity|].
    apply list_elem_of_singleton in Hin as ->. reflexivity.
Defined.

Lemma dict_set_keys_prefix {A} (k : string) (v : A) (d : odict A) :
  d.*1 `prefix_of` (dict_set k v d).*1.
Proof.
  induction d as [|[k0 v0] d IH]; simpl.
  - apply prefix_nil.
  - destruct (String.eqb k k0) eqn:E; simpl.
    + apply String.eqb_eq in E as ->. done.
    + by apply prefix_cons.
Qed.

Lemma dict_update_keys_prefix {A} (d o : odict A) :
  d.*1 `prefix_of` (dict_update d o).*1.
Proof.
  unfold dict_update. revert d. induction o as [|[k v] o IH]; intros d; simpl; [done|].
  etrans; [apply (dict_set_keys_prefix k v)|apply IH].
Qed.

(** X8: the merge never removes or reorders a key of the configuration:
    the keys it had come first, in their order, and new keys follow. *)
Theorem merge_keeps_keys_in_order (st st' : state) (d d' : odict value) :
  generate_serverconfig st = (Ok (), st') →
  config st = VDict d → config st' = VDict d' →
  d.*1 `prefix_of` d'.*1.
Proof.
  intros Hrun Hcfg Hcfg'.
  apply generate_serverconfig_Ok in Hrun as (d1 & o & _ & Hd' & _ & _ & _ & Hpre).
  rewrite Hcfg' in Hd'. injection Hd' as ->.
  etrans; [|apply dict_update_keys_prefix].
  destruct (dict_get creative (environ st)).
  - destruct Hpre as (_ & d0 & world & Hd0 & _ & ->).
    rewrite Hcfg in Hd0. injection Hd0 as <-. apply dict_set_keys_prefix.
  - destruct Hpre as [_ Hd1]. rewrite Hcfg in Hd1. by injection Hd1 as <-.
Qed.

Lemma merge_keeps_keys_in_order_witness :
  ["ServerName"; "Port"] `prefix_of` ["ServerName"; "Port"; "MaxClients"].
Proof.
  apply (merge_keeps_keys_in_order
           (object [("VS_CFG_MAX_CLIENTS", "8"); ("VS_CFG_SERVER_NAME", "B")] ∅ defaults)
           (generate_serverconfig
              (object [("VS_CFG_MAX_CLIENTS", "8"); ("VS_CFG_SERVER_NAME", "B")] ∅
                 defaults)).2
           [("ServerName", VStr "A"); ("Port", VInt 1234)]
           [("ServerName", VStr "B"); ("Port", VInt 1234); ("MaxClients", VStr "8")]);
    vm_compute; reflexivity.
Defined.

(** ** X9-X10: runs that succeed *)

Lemma run_returns_0 (json_dumps : value → string) (args : list string)
    (st st' : state) :
  run json_dumps args st = (0%Z, st') →
  ∃ st1 st2,
    backup_existing (resolve_output args (environ st))
      (with_config_json_path (Some (resolve_output args (environ st))) st)
    = (Ok (), st1)
    ∧ generate_serverconfig st1 = (Ok (), st2)
    ∧ write_config json_dumps (resolve_output args (environ st)) st2 = (Ok (), st')
    ∧ print_summary st' = (Ok (), st').
Proof.
  rewrite run_unfold. cbv zeta. set (p := resolve_output args (environ st)).
  destruct (negb _); [done|].
  destruct (backup_existing _ _) as [[[]|e1] st1] eqn:Hb; [|done].
  destruct (generate_serverconfig st1) as [[[]|e2] st2] eqn:Hg; [|done].
  destruct (write_config _ _ st2) as [[[]|e3] st3] eqn:Hw; [|done].
  destruct (print_summary st3) as [[[]|e4] st4] eqn:Hs; [|done].
  intros [= <-]. exists st1, st2.
  assert (st4 = st3) as ->; [|done].
  rewrite print_summary_unfold in Hs. by repeat (case_match; simplify_eq/=).
Qed.

Lemma write_config_parent (json_dumps : value → string) (p : list string)
    (st st3 : state) :
  write_config json_dumps p st = (Ok (), st3) →
  node_at (files st3) (tail p) = Some Dir.
Proof.
  unfold write_config. munfold. simpl.
  destruct (mkdir_parents (tail p) (files st)) as [fs2|]; [|done]. simpl.
  destruct (write_text fs2 p _) as [fs3|] eqn:Hwr; [|done]. simpl.
  intros [= <-]. simpl. unfold write_text in Hwr.
  destruct p as [|name parent]; [done|]. simpl in *.
  destruct (fs2 !! (name :: parent)) as [[c|]|];
    destruct (node_at fs2 parent) as [[c'|]|] eqn:Hparent; simplify_eq/=.
  all: destruct parent as [|q parent]; [done|]; simpl in *;
    rewrite lookup_insert_ne; [done|];
    intros Heq; apply (f_equal length) in Heq; simpl in Heq; lia.
Qed.

(** X9: a run that returns 0 has written the JSON text of the merged
    configuration at the output path, inside a directory; the configuration
    holds the three keys of the summary, and the creative-mode variable is
    no longer in the environment. *)
Theorem run_returns_0_facts (json_dumps : value → string)
    (args : list string) (st st' : state) :
  run json_dumps args st = (0%Z, st') →
  files st' !! resolve_output args (environ st)
  = Some (File (json_dumps (config st')))
  ∧ node_at (files st') (tail (resolve_output args (environ st))) = Some Dir
  ∧ (∀ key, key ∈ ["ServerName"; "Port"; "MaxClients"] →
            ∃ v, getitem (config st') key = Ok v)
  ∧ dict_get creative (environ st') = None.
Proof.
  intros (st1 & st2 & Hb & Hg & Hw & Hs)%run_returns_0.
  pose proof (write_config_Ok _ _ _ _ Hw) as (Henv & Hcfg & Hout & _).
  split; [by rewrite Hcfg|]. split; [by eapply write_config_parent|]. split.
  - intros key Hkey. rewrite print_summary_unfold in Hs.
    repeat (apply elem_of_cons in Hkey as [->|Hkey]); [..|by apply elem_of_nil in Hkey];
      repeat (case_match; simplify_eq/=); by eexists.
  - rewrite Henv.
    apply generate_serverconfig_Ok in Hg as (d1 & o & _ & _ & _ & _ & _ & Hpre).
    destruct (dict_get creative (environ st1)) eqn:Hc.
    + destruct Hpre as [-> _]. apply dict_get_del_eq.
    + destruct Hpre as [-> _]. done.
Qed.

Lemma run_returns_0_facts_witness :
  files (run json_text ["generate-config.py"] (st_full default_output)).2
    !! default_output = Some (File "{}")
  ∧ node_at (files (run json_text ["generate-config.py"] (st_full default_output)).2)
      ["data"; "vintagestory"] = Some Dir.
Proof.
  destruct (run_returns_0_facts json_text ["generate-config.py"] (st_full default_output)
              (run json_text ["generate-config.py"] (st_full default_output)).2)
    as (Hout & Hdir & _).
  - vm_compute. reflexivity.
  - split; [exact Hout | exact Hdir].
Defined.

Lemma run_returns_0_backup (json_dumps : value → string) (args : list string)
    (st st' : state) (prior : string) :
  run json_dumps args st = (0%Z, st') →
  node_at (files st) (resolve_output args (environ st)) = Some (File prior) →
  ∃ b, with_suffix (resolve_output args (environ st)) ".json.backup" = Ok b
       ∧ files st' !! b = Some (File prior).
Proof.
  intros (st1 & st2 & Hb & Hg & Hw & _)%run_returns_0 Hp.
  apply backup_existing_Ok with (prior := prior) in Hb as (b & Hsuf & Hne & Hb); [|done].
  apply generate_serverconfig_Ok in Hg as (_ & _ & _ & _ & Hfiles & _).
  apply write_config_Ok in Hw as (_ & _ & _ & Hkeep).
  exists b. split; [done|]. apply Hkeep; [done|]. by rewrite Hfiles.
Qed.

Lemma init_keeps (yaml_single_document : string → result (option value))
    (env : odict string) (fs : gmap (list string) node) (st : state) :
  init yaml_single_document env fs = Ok st → environ st = env ∧ files st = fs.
Proof.
  unfold init, load_config. munfold. simpl.
  repeat (case_match; simplify_eq/=); intros; simplify_eq/=; done.
Qed.

(** X10: when the script succeeds twice in a row with the same arguments
    and environment, the backup left by the second run is the output
    written by the first. *)
Theorem second_run_backs_up_the_first (json_dumps : value → string)
    (yaml_single_document : string → result (option value))
    (argv : list string) (env : odict string) (fs fs1 fs2 : gmap (list string) node) :
  GenerateConfig.main json_dumps yaml_single_document argv env fs = (0%Z, fs1) →
  GenerateConfig.main json_dumps yaml_single_document argv env fs1 = (0%Z, fs2) →
  ∃ content b,
    fs1 !! resolve_output argv env = Some (File content)
    ∧ with_suffix (resolve_output argv env) ".json.backup" = Ok b
    ∧ fs2 !! b = Some (File content).
Proof.
  unfold GenerateConfig.main. intros H1 H2.
  destruct (init yaml_single_document env fs) as [st|] eqn:Hi1; [|done].
  destruct (run json_dumps argv st) as [code st1] eqn:Hr1. injection H1 as -> <-.
  destruct (init yaml_single_document env (files st1)) as [st'|] eqn:Hi2; [|done].
  destruct (run json_dumps argv st') as [code st2] eqn:Hr2. injection H2 as -> <-.
  apply init_keeps in Hi1 as [He1 _], Hi2 as [He2 Hf2].
  pose proof (run_returns_0 _ _ _ _ Hr1) as (sa & sb & _ & _ & Hw & _).
  apply write_config_Ok in Hw as (_ & _ & Hout & _). rewrite He1 in Hout.
  assert (Hp : node_at (files st') (resolve_output argv (environ st'))
               = Some (File (json_dumps (config sb)))).
  { rewrite He2, Hf2.
    destruct (resolve_output argv env) as [|name parent] eqn:E; [|done].
    apply run_returns_0 in Hr1 as (? & ? & _ & _ & Hw' & _).
    unfold write_config in Hw'. munfold. simpl in Hw'. rewrite He1, E in Hw'.
    simpl in Hw'. by injection Hw'. }
  destruct (run_returns_0_backup _ _ _ _ _ Hr2 Hp) as (b & Hsuf & Hb).
  rewrite He2 in Hsuf. by exists (json_dumps (config sb)), b.
Qed.

Lemma second_run_backs_up_the_first_witness :
  (GenerateConfig.main json_text (λ _, Ok (Some full_defaults)) ["generate-config.py"] []
     (container "ServerName: A" default_output)).2 !! default_output
  = Some (File "{}")
  ∧ (GenerateConfig.main json_text (λ _, Ok (Some full_defaults)) ["generate-config.py"] []
       (GenerateConfig.main json_text (λ _, Ok (Some full_defaults))
          ["generate-config.py"] [] (container "ServerName: A" default_output)).2).2
    !! ["serverconfig.json.backup"; "data"; "vintagestory"] = Some (File "{}").
Proof.
  destruct (second_run_backs_up_the_first json_text (λ _, Ok (Some full_defaults))
              ["generate-config.py"] [] (container "ServerName: A" default_output)
              (GenerateConfig.main json_text (λ _, Ok (Some full_defaults))
                 ["generate-config.py"] [] (container "ServerName: A" default_output)).2
              (GenerateConfig.main json_text (λ _, Ok (Some full_defaults))
                 ["generate-config.py"] []
                 (GenerateConfig.main json_text (λ _, Ok (Some full_defaults))
                    ["generate-config.py"] []
                    (container "ServerName: A" default_output)).2).2)
    as (content & b & Hout & Hsuf & Hb).
  - vm_compute. reflexivity.
  - vm_compute. reflexivity.
  - vm_compute in Hsuf. injection Hsuf as <-.
    assert (content = "{}") as ->.
    { vm_compute in Hout. by injection Hout. }
    split; [exact Hout | exact Hb].
Defined.

End GenerateConfigExtras.


(** * Further properties of the release script *)

Module SemverExtras.
Import Py PyFacts RegexFacts Semver SemverFacts SemverClaims Examples.

#[local] Arguments String.append !_ _ / : simpl nomatch.

(** ** White space *)

Lemma lstrip_idem (s : string) : lstrip (lstrip s) = lstrip s.
Proof.
  induction s as [|c s IH]; simpl; [done|].
  destruct (is_space c) eqn:Hc; [done|]. simpl. by rewrite Hc.
Qed.

Lemma rstrip_idem (s : string) : rstrip (rstrip s) = rstrip s.
Proof.
  induction s as [|c s IH]; simpl; [done|].
  destruct (rstrip s) as [|a r] eqn:Hr.
  - destruct (is_space c) eqn:Hc; [done|]. simpl. by rewrite Hc.
  - change (rstrip (String c (String a r))) with
      (match rstrip (String a r) with
       | EmptyString => if is_space c then EmptyString else String c EmptyString
       | r' => String c r'
       end).
    by rewrite IH.
Qed.

Lemma rstrip_lstrip (t : string) : rstrip t = t → rstrip (lstrip t) = lstrip t.
Proof.
  induction t as [|c t IH]; [done|]. intros Ht. simpl lstrip.
  destruct (is_space c) eqn:Hc; [|done]. apply IH.
  simpl in Ht. rewrite Hc in Ht. destruct (rstrip t); [done|]. by injection Ht.
Qed.

Lemma strip_idem (s : string) : strip (strip s) = strip s.
Proof.
  unfold strip. rewrite (rstrip_lstrip (rstrip s)) by apply rstrip_idem.
  apply lstrip_idem.
Qed.

Lemma all_chars_lstrip (p : ascii → bool) (s : string) :
  all_chars p s = true → all_chars p (lstrip s) = true.
Proof.
  induction s as [|c s IH]; [done|]. simpl lstrip.
  destruct (is_space c); [|done]. simpl. intros [_ ?]%andb_true_iff. auto.
Qed.

Lemma all_chars_rstrip (p : ascii → bool) (s : string) :
  all_chars p s = true → all_chars p (rstrip s) = true.
Proof.
  induction s as [|c s IH]; [done|]. simpl.
  intros [Hc Hs]%andb_true_iff. specialize (IH Hs).
  destruct (rstrip s) as [|a r].
  - destruct (is_space c); [done|]. simpl. by rewrite Hc.
  - simpl in *. by rewrite Hc, IH.
Qed.

Lemma all_chars_strip (p : ascii → bool) (s : string) :
  all_chars p s = true → all_chars p (strip s) = true.
Proof. intros H. by apply all_chars_lstrip, all_chars_rstrip. Qed.

Lemma lstrip_head (s : string) (c : ascii) (t : string) :
  lstrip s = String c t → is_space c = false.
Proof.
  induction s as [|a s IH]; simpl; [done|].
  destruct (is_space a) eqn:Ha; [done|]. by intros [= <- _].
Qed.

(** A text that starts with a character other than white space has a
    first line that is not blank. *)
Lemma split_head_not_blank (c : ascii) (t : string) :
  is_space c = false →
  ∃ w ws, split LF (String c t) = String c w :: ws ∧ strip (String c w) ≠ EmptyString.
Proof.
  intros Hc. simpl.
  assert (Ascii.eqb c LF = false) as ->.
  { apply Ascii.eqb_neq. intros ->. done. }
  assert (Hw : ∀ w, strip (String c w) ≠ EmptyString).
  { intros w. unfold strip. simpl.
    destruct (rstrip w); rewrite ?Hc; simpl; by rewrite Hc. }
  destruct (split LF t) as [|w ws]; eauto.
Qed.

(** ** X11 *)

Lemma commits_since_tag_blank (git_rev_list : string → result string)
    (tag : string) :
  (∀ c, c ∈ get_commits_since_tag git_rev_list tag →
        c ≠ EmptyString ∧ strip c = c ∧ all_chars (no_sep LF) c = true)
  ∧ (get_commits_since_tag git_rev_list tag = [] ↔
     match git_rev_list (if String.eqb tag "0.0.0" then "HEAD" else tag +:+ "..HEAD") with
     | Ok stdout => strip stdout = EmptyString
     | Raise _ => True
     end).
Proof.
  unfold get_commits_since_tag. cbv zeta.
  destruct (git_rev_list _) as [stdout|e]; [|split; [intros c Hc|done]].
  2: by apply elem_of_nil in Hc.
  split.
  - intros c (x & -> & Hx)%list_elem_of_fmap.
    apply list_elem_of_filter in Hx as [Hne Hx].
    split; [done|]. split; [apply strip_idem|].
    by apply all_chars_strip, (split_parts_no_sep LF (strip stdout)).
  - split.
    + intros Hnil. destruct (strip stdout) as [|c t] eqn:Hs; [done|]. exfalso.
      assert (Hc : is_space c = false) by (by eapply lstrip_head).
      destruct (split_head_not_blank c t Hc) as (w & ws & Hsp & Hw).
      rewrite Hsp, filter_cons_True in Hnil by done. done.
    + intros ->. done.
Qed.

(** X11: every entry of the list [get_commits_since_tag] returns is a
    non-empty word of one line without white space at either end; the list
    is empty exactly when [git rev-list] fails or prints white space only.
    The revision asked for is [HEAD] for ['0.0.0'], else [{tag}..HEAD]. *)
Theorem commits_since_tag_entries (git_rev_list : string → result string)
    (tag : string) :
  (∀ c, c ∈ get_commits_since_tag git_rev_list tag →
        c ≠ EmptyString ∧ strip c = c ∧ all_chars (no_sep LF) c = true)
  ∧ (get_commits_since_tag git_rev_list tag = [] ↔
     match git_rev_list (if String.eqb tag "0.0.0" then "HEAD" else tag +:+ "..HEAD") with
     | Ok stdout => strip stdout = EmptyString
     | Raise _ => True
     end).
Proof. apply commits_since_tag_blank. Qed.

(** ** X12 *)

Lemma split1_parts (s : string) :
  (split1 LF s = [s] ∧ all_chars (no_sep LF) s = true)
  ∨ ∃ subject body,
      split1 LF s = [subject; body] ∧ s = subject +:+ String LF body
      ∧ all_chars (no_sep LF) subject = true.
Proof.
  induction s as [|c s IH]; simpl; [by left|].
  destruct (Ascii.eqb c LF) eqn:Hc.
  - right. apply Ascii.eqb_eq in Hc as ->. by exists EmptyString, s.
  - destruct IH as [[-> Hs]|(subject & body & -> & -> & Hs)].
    + left. split; [done|]. unfold no_sep at 1. by rewrite Hc.
    + right. exists (String c subject), body. repeat split; [].
      simpl. unfold no_sep at 1. by rewrite Hc.
Qed.

(** X12: for a commit that [git show] prints, the subject
    [get_commit_message] returns is the first line of the output and the
    body is all that follows the first line feed: the two put the output
    together again, and the body is empty when there is no line feed. *)
Theorem commit_message_parts (git_show : string → result string)
    (commit_hash stdout : string) :
  git_show commit_hash = Ok stdout →
  all_chars (no_sep LF) (get_commit_message git_show commit_hash).1 = true
  ∧ (stdout = (get_commit_message git_show commit_hash).1
               +:+ String LF (get_commit_message git_show commit_hash).2
     ∨ stdout = (get_commit_message git_show commit_hash).1
       ∧ (get_commit_message git_show commit_hash).2 = EmptyString).
Proof.
  intros Hshow. unfold get_commit_message. rewrite Hshow.
  destruct (split1_parts stdout) as [[-> Hs]|(subject & body & -> & -> & Hs)]; simpl.
  - split; [done|]. by right.
  - split; [done|]. by left.
Qed.

Lemma commit_message_parts_witness :
  all_chars (no_sep LF) (get_commit_message subject_only "feat: add X").1 = true
  ∧ ("feat: add X" +:+ String LF (String LF EmptyString)
     = (get_commit_message subject_only "feat: add X").1
       +:+ String LF (get_commit_message subject_only "feat: add X").2
     ∨ "feat: add X" +:+ String LF (String LF EmptyString)
       = (get_commit_message subject_only "feat: add X").1
       ∧ (get_commit_message subject_only "feat: add X").2 = EmptyString).
Proof.
  apply (commit_message_parts subject_only "feat: add X"
           ("feat: add X" +:+ String LF (String LF EmptyString))).
  reflexivity.
Defined.

(** ** X13-X14: the bump *)

Lemma unreadable_commit (git_show : string → result string) (c : string) (e : exn) :
  git_show c = Raise e →
  is_breaking git_show c = false ∧ is_feature git_show c = false.
Proof.
  intros H. unfold is_breaking, is_feature, get_commit_message. rewrite H.
  split; vm_compute; reflexivity.
Qed.

Lemma bump_loop_readable (git_show : string → result string)
    (commits : list string) (m0 : bool) :
  let readable := List.filter (λ c, match git_show c with
                                    | Ok _ => true
                                    | Raise _ => false
                                    end) commits in
  has_major (bump_loop git_show commits m0) = has_major (bump_loop git_show readable m0)
  ∧ has_minor (bump_loop git_show commits m0)
    = has_minor (bump_loop git_show readable m0).
Proof.
  cbv zeta. revert m0. induction commits as [|c rest IH]; intros m0; [done|].
  simpl List.filter. rewrite bump_loop_cons.
  destruct (git_show c) as [stdout|e] eqn:Hc.
  - rewrite bump_loop_cons. destruct (is_breaking git_show c); [done|]. simpl. apply IH.
  - destruct (unreadable_commit _ _ _ Hc) as [-> ->]. simpl.
    rewrite orb_false_r. apply IH.
Qed.

(** X13: a commit whose message [git show] cannot print counts for
    nothing in [determine_bump]: the bump is that of the commits that can
    be read, and ['patch'] when none can. *)
Theorem unreadable_commits_are_skipped :
  (∀ git_show commits,
      determine_bump git_show commits
      = determine_bump git_show
          (List.filter (λ c, match git_show c with
                             | Ok _ => true
                             | Raise _ => false
                             end) commits))
  ∧ (∀ git_show commits,
       (∀ c, c ∈ commits → ∃ e, git_show c = Raise e) →
       determine_bump git_show commits = "patch").
Proof.
  assert (H1 : ∀ git_show commits,
      determine_bump git_show commits
      = determine_bump git_show
          (List.filter (λ c, match git_show c with
                             | Ok _ => true
                             | Raise _ => false
                             end) commits)).
  { intros git_show commits. unfold determine_bump. cbv zeta.
    destruct (bump_loop_readable git_show commits false) as [-> ->]. done. }
  split; [exact H1|]. intros git_show commits Hall. rewrite H1.
  assert (List.filter (λ c, match git_show c with
                            | Ok _ => true
                            | Raise _ => false
                            end) commits = []) as ->; [|done].
  induction commits as [|c rest IH]; [done|]. simpl.
  destruct (Hall c) as [e ->]; [apply elem_of_cons; by left|].
  apply IH. intros x Hx. apply Hall, elem_of_cons. by right.
Qed.

(** X14: the bump depends on which commits are given, not on their order
    or on repetitions, although the loop stops at the first breaking
    commit. *)
Theorem determine_bump_order_independent (git_show : string → result string)
    (commits commits' : list string) :
  (∀ c, c ∈ commits ↔ c ∈ commits') →
  determine_bump git_show commits = determine_bump git_show commits'.
Proof.
  intros Hsame. unfold determine_bump. cbv zeta.
  assert (HM : has_major (bump_loop git_show commits false)
               = has_major (bump_loop git_show commits' false)).
  { apply eq_true_iff_eq. rewrite !has_major_iff.
    split; intros (c & Hc & Hb); exists c; (split; [by apply Hsame|done]). }
  rewrite <- HM. destruct (has_major (bump_loop git_show commits false)) eqn:Hmaj; [done|].
  assert (Hno : ∀ c, c ∈ commits → is_breaking git_show c = false).
  { intros c Hc. apply not_true_iff_false. intros Hb.
    assert (true = false); [|done]. rewrite <- Hmaj. symmetry.
    apply has_major_iff. by exists c. }
  assert (Hm : has_minor (bump_loop git_show commits false)
               = has_minor (bump_loop git_show commits' false)).
  { apply eq_true_iff_eq. rewrite !has_minor_iff.
    - split; (intros [?|(c & Hc & Hf)]; [by left|]); right; exists c;
        (split; [by apply Hsame|done]).
    - intros c Hc. by apply Hno, Hsame.
    - done. }
  by rewrite Hm.
Qed.

Lemma determine_bump_order_independent_witness :
  determine_bump subject_only ["fix: patch Y"; "feat: add X"; "fix!: change API"]
  = determine_bump subject_only ["fix!: change API"; "feat: add X"; "fix: patch Y";
                                 "feat: add X"].
Proof.
  apply determine_bump_order_independent. intros c.
  rewrite !elem_of_cons, !elem_of_nil. tauto.
Defined.

(** ** [str] and [int] of a number *)

Lemma int_digits_step (acc : Z) (prev : bool) (c : ascii) (s : string) :
  is_digit c = true →
  int_digits acc prev (String c s) = int_digits (10 * acc + digit_val c) true s.
Proof. intros H. simpl. by rewrite H. Qed.

Ltac digit_step IH :=
  rewrite int_digits_step by (vm_compute; reflexivity);
  match goal with
  | |- int_digits (10 * _ + digit_val ?c)%Z true _
        = Some (Z.pos (Pos.of_uint_acc _ ?q)) =>
      let v := eval vm_compute in (digit_val c) in
      change (digit_val c) with v;
      match goal with
      | |- int_digits ?z true _ = _ => replace z with (Z.pos q) by lia
      end
  end;
  apply IH; by right.

Lemma int_digits_acc (d : Decimal.uint) (a : positive) (prev : bool) :
  d ≠ Decimal.Nil ∨ prev = true →
  int_digits (Z.pos a) prev (NilEmpty.string_of_uint d)
  = Some (Z.pos (Pos.of_uint_acc d a)).
Proof.
  revert a prev. induction d as [|d IH|d IH|d IH|d IH|d IH|d IH|d IH|d IH|d IH|d IH];
    intros a prev Hne; simpl NilEmpty.string_of_uint; simpl Pos.of_uint_acc.
  1: { destruct Hne as [? | ->]; done. }
  all: digit_step IH.
Qed.

Lemma int_digits_of_uint (d : Decimal.uint) (prev : bool) :
  d ≠ Decimal.Nil ∨ prev = true →
  int_digits 0 prev (NilEmpty.string_of_uint d) = Some (Z.of_N (Pos.of_uint d)).
Proof.
  revert prev. induction d as [|d IH|d IH|d IH|d IH|d IH|d IH|d IH|d IH|d IH|d IH];
    intros prev Hne; simpl NilEmpty.string_of_uint; simpl Pos.of_uint.
  1: { destruct Hne as [? | ->]; done. }
  1: { rewrite int_digits_step by (vm_compute; reflexivity).
       change (10 * 0 + digit_val "0")%Z with 0%Z. apply IH. by right. }
  all: rewrite int_digits_step by (vm_compute; reflexivity);
    apply (int_digits_acc d _ true); by right.
Qed.

Lemma all_digits_of_uint (d : Decimal.uint) :
  all_chars is_digit (NilEmpty.string_of_uint d) = true.
Proof. induction d; simpl; [done|..]; exact IHd. Qed.

(** [str] of a number that is not negative is a word of digits, and [int]
    reads the number back. *)
Lemma str_of_int_digits (z : Z) : (0 ≤ z)%Z → digits (str_of_int z).
Proof.
  intros Hz. unfold str_of_int, digits. destruct z as [|p|p]; [done| |lia].
  simpl. pose proof (Unsigned.to_uint_nonnil p) as Hne.
  assert (NilZero.string_of_uint (Pos.to_uint p)
          = NilEmpty.string_of_uint (Pos.to_uint p)) as ->.
  { by destruct (Pos.to_uint p). }
  split; [|apply all_digits_of_uint]. by destruct (Pos.to_uint p).
Qed.

Lemma int_str_of_int (z : Z) : (0 ≤ z)%Z → int (str_of_int z) = Ok z.
Proof.
  intros Hz. pose proof (str_of_int_digits z Hz) as [Hne Hd].
  unfold int, strip. rewrite rstrip_digits, lstrip_digits by done.
  assert (Hval : int_digits 0 false (str_of_int z) = Some z).
  { unfold str_of_int. destruct z as [|p|p]; [done| |lia]. simpl.
    pose proof (Unsigned.to_uint_nonnil p) as Hnil.
    assert (NilZero.string_of_uint (Pos.to_uint p)
            = NilEmpty.string_of_uint (Pos.to_uint p)) as ->.
    { by destruct (Pos.to_uint p). }
    rewrite int_digits_of_uint by (by left). by rewrite Unsigned.of_to. }
  destruct (str_of_int z) as [|a s]; [done|].
  assert (a ≠ "+"%char ∧ a ≠ "-"%char) as [Hp Hm].
  { simpl in Hd. apply andb_true_iff in Hd as [Ha _]. split; intros ->; done. }
  assert (match String a s with
          | String "+" d => int_digits 0 false d
          | String "-" d => Z.opp <$> int_digits 0 false d
          | _ => int_digits 0 false (String a s)
          end = int_digits 0 false (String a s)) as ->.
  { destruct a as [[] [] [] [] [] [] [] []]; try reflexivity; congruence. }
  by rewrite Hval.
Qed.

Lemma int_digits_nonneg (acc : Z) (prev : bool) (s : string) (z : Z) :
  all_chars is_digit s = true → (0 ≤ acc)%Z →
  int_digits acc prev s = Some z → (0 ≤ z)%Z.
Proof.
  revert acc prev. induction s as [|c s IH]; simpl; intros acc prev Hs Hacc.
  - destruct prev; [|done]. by intros [= <-].
  - apply andb_true_iff in Hs as [Hc Hs]. rewrite Hc. apply IH; [done|].
    unfold is_digit in Hc. apply andb_true_iff in Hc as [Hc _].
    apply Nat.leb_le in Hc. unfold digit_val. lia.
Qed.

Lemma int_digits_value (s : string) :
  digits s → ∃ z, int s = Ok z ∧ (0 ≤ z)%Z.
Proof.
  intros [Hne Hs]. unfold int, strip.
  rewrite rstrip_digits, lstrip_digits by done.
  destruct (int_digits_total 0 false s Hs) as [z Hz]; [by right|].
  pose proof (int_digits_nonneg _ _ _ _ Hs (Z.le_refl 0) Hz) as Hpos.
  destruct s as [|a s]; [done|].
  assert (a ≠ "+"%char ∧ a ≠ "-"%char) as [Hp Hm].
  { simpl in Hs. apply andb_true_iff in Hs as [Ha _]. split; intros ->; done. }
  assert (match String a s with
          | String "+" d => int_digits 0 false d
          | String "-" d => Z.opp <$> int_digits 0 false d
          | _ => int_digits 0 false (String a s)
          end = int_digits 0 false (String a s)) as ->.
  { destruct a as [[] [] [] [] [] [] [] []]; try reflexivity; congruence. }
  rewrite Hz. by exists z.
Qed.

(** A final line feed is white space to [int]. *)
Lemma rstrip_digits_LF (s : string) :
  digits s → rstrip (s +:+ String LF EmptyString) = s.
Proof.
  intros [Hne Hs]. induction s as [|c s IH]; [done|]. simpl in Hs.
  apply andb_true_iff in Hs as [Hc Hs].
  change (String c s +:+ String LF EmptyString)
    with (String c (s +:+ String LF EmptyString)).
  change (rstrip (String c (s +:+ String LF EmptyString)))
    with (match rstrip (s +:+ String LF EmptyString) with
          | EmptyString => if is_space c then EmptyString else String c EmptyString
          | r => String c r
          end).
  destruct s as [|a s].
  - simpl. by rewrite (is_digit_not_space c Hc).
  - rewrite IH by done. done.
Qed.

Lemma int_digits_LF (s : string) :
  digits s → int (s +:+ String LF EmptyString) = int s.
Proof.
  intros Hs. unfold int, strip. rewrite rstrip_digits_LF by done.
  destruct Hs as [_ Hs]. by rewrite rstrip_digits.
Qed.

Lemma digits_no_dot (s : string) : digits s → all_chars (no_sep ".") s = true.
Proof.
  intros [_ Hs]. eapply all_chars_impl; [|done].
  intros ch Hch. unfold no_sep. apply negb_true_iff, Ascii.eqb_neq. intros ->. done.
Qed.

Lemma version_key_words (a b c : string) :
  digits a → digits b → digits c →
  ∃ M m p, version_key (a +:+ "." +:+ b +:+ "." +:+ c) = Ok [M; m; p]
           ∧ (0 ≤ M)%Z ∧ (0 ≤ m)%Z ∧ (0 ≤ p)%Z.
Proof.
  intros Ha Hb Hc. unfold version_key.
  change (a +:+ "." +:+ b +:+ "." +:+ c)
    with (a +:+ String "." (b +:+ String "." c)).
  rewrite !split_append_sep, split_no_sep by auto using digits_no_dot.
  destruct (int_digits_value a Ha) as (M & HM & ?), (int_digits_value b Hb) as (m & Hm & ?),
    (int_digits_value c Hc) as (p & Hp & ?).
  exists M, m, p. rewrite !mapM_cons, HM, Hm, Hp. done.
Qed.

Lemma version_key_words_LF (a b c : string) :
  digits a → digits b → digits c →
  version_key ((a +:+ "." +:+ b +:+ "." +:+ c) +:+ String LF EmptyString)
  = version_key (a +:+ "." +:+ b +:+ "." +:+ c).
Proof.
  intros Ha Hb Hc. unfold version_key.
  change (a +:+ "." +:+ b +:+ "." +:+ c)
    with (a +:+ String "." (b +:+ String "." c)).
  rewrite !append_assoc.
  change (String "." (b +:+ String "." c) +:+ String LF EmptyString)
    with (String "." ((b +:+ String "." c) +:+ String LF EmptyString)).
  rewrite !append_assoc.
  change (String "." c +:+ String LF EmptyString)
    with (String "." (c +:+ String LF EmptyString)).
  assert (HcLF : all_chars (no_sep ".") (c +:+ String LF EmptyString) = true).
  { rewrite all_chars_append, digits_no_dot by done. done. }
  rewrite !split_append_sep, !split_no_sep by auto using digits_no_dot.
  rewrite !mapM_cons. by rewrite int_digits_LF.
Qed.

(** The key of a version that passes the pattern of [get_last_version]. *)
Lemma version_re_key (version : string) :
  re_match version_re version = true →
  ∃ M m p, version_key version = Ok [M; m; p] ∧ (0 ≤ M)%Z ∧ (0 ≤ m)%Z ∧ (0 ≤ p)%Z.
Proof.
  unfold re_match. simpl dollar. cbv iota.
  intros [H|(u & -> & H)]%match_dollar_iff;
    apply matches_version in H as (a & b & c & -> & Ha & Hb & Hc).
  - by apply version_key_words.
  - rewrite version_key_words_LF by done. by apply version_key_words.
Qed.

Lemma matches_Star_Class_intro (p : ascii → bool) (s : string) :
  all_chars p s = true → matches (Star (Class p)) s.
Proof.
  induction s as [|c s IH]; simpl; [intros _; constructor|].
  intros [Hc Hs]%andb_true_iff.
  apply (MStarS _ (String c EmptyString) s); [by constructor|auto].
Qed.

Lemma matches_Plus_digits (s : string) : digits s → matches (Plus digit) s.
Proof.
  intros [Hne Hs]. destruct s as [|c s]; [done|]. simpl in Hs.
  apply andb_true_iff in Hs as [Hc Hs].
  apply (MSeq _ _ (String c EmptyString) s); [by constructor|].
  by apply matches_Star_Class_intro.
Qed.

Lemma version_re_words (a b c : string) :
  digits a → digits b → digits c →
  re_match version_re (a +:+ "." +:+ b +:+ "." +:+ c) = true.
Proof.
  intros Ha Hb Hc. unfold re_match. simpl dollar. cbv iota.
  apply match_dollar_iff. left. simpl body.
  apply MSeq; [by apply matches_Plus_digits|].
  apply (MSeq _ _ "." (b +:+ "." +:+ c)); [by constructor|].
  apply MSeq; [by apply matches_Plus_digits|].
  apply (MSeq _ _ "." c); [by constructor|]. by apply matches_Plus_digits.
Qed.

(** A version put together from three numbers reads back as they are. *)
Lemma format_version_key (M m p : Z) :
  (0 ≤ M)%Z → (0 ≤ m)%Z → (0 ≤ p)%Z →
  re_match version_re (format_version M m p) = true
  ∧ version_key (format_version M m p) = Ok [M; m; p].
Proof.
  intros HM Hm Hp. unfold format_version.
  pose proof (str_of_int_digits M HM) as HdM.
  pose proof (str_of_int_digits m Hm) as Hdm.
  pose proof (str_of_int_digits p Hp) as Hdp.
  split; [by apply version_re_words|]. unfold version_key.
  change (str_of_int M +:+ "." +:+ str_of_int m +:+ "." +:+ str_of_int p)
    with (str_of_int M +:+ String "." (str_of_int m +:+ String "." (str_of_int p))).
  rewrite !split_append_sep, split_no_sep by auto using digits_no_dot.
  by rewrite !mapM_cons, !int_str_of_int.
Qed.

Lemma increment_version_spec (version bump : string) :
  re_match version_re version = true →
  ∃ new_version k k',
    increment_version version bump = Ok new_version
    ∧ re_match version_re new_version = true
    ∧ version_key version = Ok k
    ∧ version_key new_version = Ok k'
    ∧ tuple_lt k k' = true.
Proof.
  intros (M & m & p & Hk & HM & Hm & Hp)%version_re_key.
  rewrite (increment_version_triple _ _ M m p Hk).
  assert (Hlt : ∀ M' m' p',
            (0 ≤ M')%Z → (0 ≤ m')%Z → (0 ≤ p')%Z →
            tuple_lt [M; m; p] [M'; m'; p'] = true →
            ∃ new_version k k',
              Ok (format_version M' m' p') = Ok new_version
              ∧ re_match version_re new_version = true
              ∧ version_key version = Ok k
              ∧ version_key new_version = Ok k'
              ∧ tuple_lt k k' = true).
  { intros M' m' p' ? ? ? Hlt.
    destruct (format_version_key M' m' p') as [Hre Hkey]; [done..|].
    by exists (format_version M' m' p'), [M; m; p], [M'; m'; p']. }
  destruct (String.eqb bump "major"); [|destruct (String.eqb bump "minor")];
    apply Hlt; try lia; simpl; rewrite ?Z.eqb_refl.
  - destruct (Z.eqb_spec M (M + 1)); [lia|]. apply Z.ltb_lt. lia.
  - destruct (Z.eqb_spec m (m + 1)); [lia|]. apply Z.ltb_lt. lia.
  - destruct (Z.eqb_spec p (p + 1)); [lia|]. apply Z.ltb_lt. lia.
Qed.

(** X15: for a version that passes the pattern of [get_last_version],
    [increment_version] returns, whatever the bump; what it returns passes
    the pattern too, and its key [tuple(map(int, v.split('.')))] is above
    the key of the version given. *)
Theorem increment_version_increases (version bump : string) :
  re_match version_re version = true →
  ∃ new_version k k',
    increment_version version bump = Ok new_version
    ∧ re_match version_re new_version = true
    ∧ version_key version = Ok k
    ∧ version_key new_version = Ok k'
    ∧ tuple_lt k k' = true.
Proof. apply increment_version_spec. Qed.

Lemma increment_version_increases_witness :
  ∃ new_version k k',
    increment_version "1.9.9" "minor" = Ok new_version
    ∧ re_match version_re new_version = true
    ∧ version_key "1.9.9" = Ok k
    ∧ version_key new_version = Ok k'
    ∧ tuple_lt k k' = true.
Proof.
  apply (increment_version_increases "1.9.9" "minor"). vm_compute. reflexivity.
Defined.

(** ** X16: the last version and the new one *)

Lemma tuple_le_lt_trans (a b c : list Z) :
  tuple_lt b a = false → tuple_lt b c = true → tuple_lt a c = true.
Proof.
  revert b c. induction a as [|x a IH]; intros [|y b] [|z c]; simpl; try done.
  destruct (Z.eqb_spec y x) as [Hyx|Hyx], (Z.eqb_spec y z) as [Hyz|Hyz],
    (Z.eqb_spec x z) as [Hxz|Hxz]; subst; try done; try apply IH.
  all: rewrite ?Z.ltb_ge, ?Z.ltb_lt; lia.
Qed.

(** The tag [get_last_version] returns is listed, and no listed tag has a
    key above its key. *)
Lemma get_last_version_max (stdout : string) :
  version_tags_of stdout ≠ [] →
  get_last_version (Ok stdout) ∈ version_tags_of stdout
  ∧ ∃ k, version_key (get_last_version (Ok stdout)) = Ok k
         ∧ ∀ tag, tag ∈ version_tags_of stdout →
             ∃ k', version_key tag = Ok k' ∧ tuple_lt k k' = false.
Proof.
  intros Hne.
  destruct (get_last_version_sorted stdout Hne) as (keyed & best & Hrel & Hbest & ->).
  destruct (last_sorted_max _ _ (sort_by_key_sorted keyed) Hbest) as [Hin Hmax].
  apply (proj1 (sort_by_key_elem _ _)) in Hin.
  assert (Hbest_tag : best.2 ∈ version_tags_of stdout ∧ version_key best.2 = Ok best.1).
  { apply list_elem_of_lookup in Hin as [i Hi].
    destruct (Forall2_lookup_r _ _ _ _ _ Hrel Hi) as (v & Hv & Hk & <-).
    split; [|done]. apply list_elem_of_lookup. by exists i. }
  destruct Hbest_tag as [Hbt Hbk]. split; [done|].
  exists best.1. split; [done|]. intros tag Htag.
  apply list_elem_of_lookup in Htag as [i Hi].
  destruct (Forall2_lookup_l _ _ _ _ _ Hrel Hi) as (kv & Hkv & Hk & Hv).
  exists kv.1. split; [done|].
  apply Hmax, sort_by_key_elem, list_elem_of_lookup. by exists i.
Qed.

Lemma version_tag_re (stdout tag : string) :
  tag ∈ version_tags_of stdout → re_match version_re tag = true.
Proof. by intros (_ & _ & ?)%version_tags_of_elem. Qed.

Lemma new_version_spec (git_show : string → result string)
    (git_tag_l : result string) (commits : list string) :
  ∃ o,
    determine_new_version git_show (get_last_version git_tag_l) commits = Ok o
    ∧ (o = None ↔ commits = [])
    ∧ ∀ new_version, o = Some new_version →
        re_match version_re new_version = true
        ∧ ∀ stdout tag,
            git_tag_l = Ok stdout → tag ∈ version_tags_of stdout →
            ∃ k k', version_key tag = Ok k ∧ version_key new_version = Ok k'
                    ∧ tuple_lt k k' = true.
Proof.
  destruct commits as [|c commits]; [by exists None|].
  assert (Hcur : ∃ k,
            re_match version_re (get_last_version git_tag_l) = true
            ∧ version_key (get_last_version git_tag_l) = Ok k
            ∧ ∀ stdout tag,
                git_tag_l = Ok stdout → tag ∈ version_tags_of stdout →
                ∃ k', version_key tag = Ok k' ∧ tuple_lt k k' = false).
  { destruct git_tag_l as [stdout|e].
    - destruct (decide (version_tags_of stdout = [])) as [Hnil|Hne].
      + rewrite get_last_version_unfold, Hnil. exists [0; 0; 0]%Z.
        split; [done|]. split; [done|]. intros ? tag [= <-]. rewrite Hnil.
        intros H. by apply elem_of_nil in H.
      + destruct (get_last_version_max stdout Hne) as (Hin & k & Hk & Hmax).
        exists k. split; [by eapply version_tag_re|]. split; [done|].
        intros ? tag [= <-]. apply Hmax.
    - exists [0; 0; 0]%Z. split; [done|]. split; [done|]. done. }
  destruct Hcur as (k & Hre & Hk & Hmax).
  assert (Hnew : ∃ new_version k',
            determine_new_version git_show (get_last_version git_tag_l) (c :: commits)
            = Ok (Some new_version)
            ∧ re_match version_re new_version = true
            ∧ version_key new_version = Ok k'
            ∧ tuple_lt k k' = true).
  { unfold determine_new_version.
    destruct (String.eqb (get_last_version git_tag_l) "0.0.0") eqn:Hzero.
    - apply String.eqb_eq in Hzero. rewrite Hzero in Hk. injection Hk as <-.
      by exists "0.0.1", [0; 0; 1]%Z.
    - destruct (increment_version_spec (get_last_version git_tag_l)
                  (determine_bump git_show (c :: commits)) Hre)
        as (new_version & k0 & k' & -> & Hre' & Hk0 & Hk' & Hlt).
      rewrite Hk in Hk0. injection Hk0 as <-. by exists new_version, k'. }
  destruct Hnew as (new_version & k' & -> & Hre' & Hk' & Hlt).
  exists (Some new_version). split; [done|]. split; [done|].
  intros ? [= <-]. split; [done|]. intros stdout tag Hout Htag.
  destruct (Hmax stdout tag Hout Htag) as (kt & Hkt & Hle).
  exists kt, k'. split; [done|]. split; [done|]. by eapply tuple_le_lt_trans.
Qed.

(** X16: with the version [get_last_version] returns, whatever
    [git tag -l] did, [determine_new_version] raises no exception; it
    returns [None] exactly when there are no commits; and a version it
    returns passes the pattern of version tags and has a key above the key
    of every version tag listed (the interpreter's limit on the length of
    an integer literal aside). *)
Theorem new_version_above_all_tags (git_show : string → result string)
    (git_tag_l : result string) (commits : list string) :
  ∃ o,
    determine_new_version git_show (get_last_version git_tag_l) commits = Ok o
    ∧ (o = None ↔ commits = [])
    ∧ ∀ new_version, o = Some new_version →
        re_match version_re new_version = true
        ∧ ∀ stdout tag,
            git_tag_l = Ok stdout → tag ∈ version_tags_of stdout →
            ∃ k k', version_key tag = Ok k ∧ version_key new_version = Ok k'
                    ∧ tuple_lt k k' = true.
Proof. apply new_version_spec. Qed.

(** ** X17: the archive *)

Lemma zip_filename_parts (repo_name version : string) :
  all_chars (no_sep "/") (repo_name +:+ "-" +:+ version +:+ ".zip") = true →
  filter (λ c, c ≠ EmptyString ∧ c ≠ ".")
         (split "/" (repo_name +:+ "-" +:+ version +:+ ".zip"))
  = [repo_name +:+ "-" +:+ version +:+ ".zip"].
Proof.
  intros Hno. rewrite split_no_sep by done.
  assert (Hlen : (2 ≤ String.length (repo_name +:+ "-" +:+ version +:+ ".zip"))%nat).
  { rewrite !GenerateConfigFacts.length_append. simpl. lia. }
  rewrite filter_cons_True; [done|].
  split; intros Heq; rewrite Heq in Hlen; simpl in Hlen; lia.
Qed.

Lemma create_file_top (name : string) (top : list (string * tree)) :
  match dict_get name top with
  | Some (TDir _) => create_file [name] top = Raise IsADirectoryError
  | _ => ∃ top', create_file [name] top = Ok top'
                 ∧ lookup_path [name] (TDir top') = Some TFile
  end.
Proof.
  simpl. destruct (dict_get name top) as [[|sub]|] eqn:Hname; [|done|].
  - exists top. by rewrite Hname.
  - exists (top ++ [(name, TFile)]). split; [done|].
    assert (dict_get name (top ++ [(name, TFile)]) = Some TFile) as ->; [|done].
    clear -Hname. induction top as [|[k v] top IH]; simpl in *.
    + by rewrite String.eqb_refl.
    + destruct (String.eqb name k); [done|]. by apply IH.
Qed.

Lemma archive_name_top (repo_name version name : string) :
  archive_name repo_name version [name]
  = repo_name +:+ "-" +:+ version +:+ "/" +:+ name.
Proof. reflexivity. Qed.

Lemma create_zip_top (zf_write : list string → string → result ())
    (repo_name version : string) (top : list (string * tree)) :
  all_chars (no_sep "/") (repo_name +:+ "-" +:+ version +:+ ".zip") = true →
  match dict_get (repo_name +:+ "-" +:+ version +:+ ".zip") top with
  | Some (TDir _) =>
      create_zip zf_write repo_name version top = ([], Raise IsADirectoryError)
  | _ =>
      ∃ calls r,
        create_zip zf_write repo_name version top = (calls, r)
        ∧ (∀ zip_filename, r = Ok zip_filename →
             zip_filename = repo_name +:+ "-" +:+ version +:+ ".zip"
             ∧ ([zip_filename],
                repo_name +:+ "-" +:+ version +:+ "/" +:+ zip_filename) ∈ calls
             ∧ zf_write [zip_filename]
                 (repo_name +:+ "-" +:+ version +:+ "/" +:+ zip_filename) = Ok ())
        ∧ (∀ e, r = Raise e →
             ∃ file_path,
               last calls = Some (file_path, archive_name repo_name version file_path)
               ∧ zf_write file_path (archive_name repo_name version file_path)
                 = Raise e)
        ∧ ((∀ file_path arcname,
              file_path ≠ [repo_name +:+ "-" +:+ version +:+ ".zip"] →
              zf_write file_path arcname = Ok ()) →
           ([repo_name +:+ "-" +:+ version +:+ ".zip"],
            repo_name +:+ "-" +:+ version +:+ "/"
            +:+ (repo_name +:+ "-" +:+ version +:+ ".zip")) ∈ calls
           ∧ r = match zf_write [repo_name +:+ "-" +:+ version +:+ ".zip"]
                         (repo_name +:+ "-" +:+ version +:+ "/"
                          +:+ (repo_name +:+ "-" +:+ version +:+ ".zip")) with
                 | Ok _ => Ok (repo_name +:+ "-" +:+ version +:+ ".zip")
                 | Raise e => Raise e
                 end)
  end.
Proof.
  intros Hno.
  pose proof (create_file_top (repo_name +:+ "-" +:+ version +:+ ".zip") top) as Hopen.
  assert (Hwalk : ∀ top',
            create_file [repo_name +:+ "-" +:+ version +:+ ".zip"] top = Ok top' →
            lookup_path [repo_name +:+ "-" +:+ version +:+ ".zip"] (TDir top')
            = Some TFile →
            ∃ calls r,
              create_zip zf_write repo_name version top = (calls, r)
              ∧ (∀ zip_filename, r = Ok zip_filename →
                   zip_filename = repo_name +:+ "-" +:+ version +:+ ".zip"
                   ∧ ([zip_filename],
                      repo_name +:+ "-" +:+ version +:+ "/" +:+ zip_filename) ∈ calls
                   ∧ zf_write [zip_filename]
                       (repo_name +:+ "-" +:+ version +:+ "/" +:+ zip_filename) = Ok ())
              ∧ (∀ e, r = Raise e →
                   ∃ file_path,
                     last calls
                     = Some (file_path, archive_name repo_name version file_path)
                     ∧ zf_write file_path (archive_name repo_name version file_path)
                       = Raise e)
              ∧ ((∀ file_path arcname,
                    file_path ≠ [repo_name +:+ "-" +:+ version +:+ ".zip"] →
                    zf_write file_path arcname = Ok ()) →
                 ([repo_name +:+ "-" +:+ version +:+ ".zip"],
                  repo_name +:+ "-" +:+ version +:+ "/"
                  +:+ (repo_name +:+ "-" +:+ version +:+ ".zip")) ∈ calls
                 ∧ r = match zf_write [repo_name +:+ "-" +:+ version +:+ ".zip"]
                               (repo_name +:+ "-" +:+ version +:+ "/"
                                +:+ (repo_name +:+ "-" +:+ version +:+ ".zip")) with
                       | Ok _ => Ok (repo_name +:+ "-" +:+ version +:+ ".zip")
                       | Raise e => Raise e
                       end)).
  { intros top' Hcreate Hfile.
    assert (Hself : [repo_name +:+ "-" +:+ version +:+ ".zip"] ∈ walk_files top').
    { apply (walk_tree_complete _ top' []); [done|constructor]. }
    unfold create_zip. cbv zeta. rewrite zip_filename_parts, Hcreate by done.
    destruct (write_files zf_write repo_name version (walk_files top'))
      as [calls r'] eqn:Hloop.
    exists calls, (match r' with
                   | Ok _ => Ok (repo_name +:+ "-" +:+ version +:+ ".zip")
                   | Raise e => Raise e
                   end).
    split; [done|]. split; [|split].
    - intros zip_filename Hr. destruct r' as [[]|e]; [|done]. injection Hr as <-.
      apply write_files_Ok in Hloop as [-> Hall]. split; [done|].
      rewrite <- archive_name_top. split; [|by apply Hall].
      apply list_elem_of_fmap. by exists [repo_name +:+ "-" +:+ version +:+ ".zip"].
    - intros e Hr. destruct r' as [[]|e']; [done|]. injection Hr as ->.
      apply write_files_Raise in Hloop as (file_path & _ & Hlast & Hraise).
      by exists file_path.
    - intros Hothers. rewrite <- archive_name_top.
      pose proof (write_files_reaches zf_write repo_name version (walk_files top')
                    [repo_name +:+ "-" +:+ version +:+ ".zip"] Hself) as Hreach.
      rewrite Hloop in Hreach. split; [apply Hreach; auto|].
      destruct r' as [[]|e].
      + apply write_files_Ok in Hloop as [_ Hall]. by rewrite (Hall _ Hself).
      + apply write_files_Raise in Hloop as (file_path & _ & _ & Hraise).
        destruct (decide (file_path = [repo_name +:+ "-" +:+ version +:+ ".zip"]))
          as [->|Hne]; [by rewrite Hraise|].
        by rewrite (Hothers _ _ Hne) in Hraise. }
  destruct (dict_get _ top) as [[|sub]|].
  - destruct Hopen as (top' & Hcreate & Hfile). by apply (Hwalk top').
  - unfold create_zip. cbv zeta. by rewrite zip_filename_parts, Hopen.
  - destruct Hopen as (top' & Hcreate & Hfile). by apply (Hwalk top').
Qed.

(** X17: for an archive name without [/], [create_zip] ends with
    [IsADirectoryError], before any file is written, when the working
    directory holds a directory of that name.  Otherwise the archive, which
    is open in the working directory while the tree is walked, is itself
    among the files of the walk: [create_zip] returns only if [zf.write]
    has been called on the archive and has returned; an exception it ends
    with is that of the call of [zf.write] made last; and when the calls
    for all other files return, the archive is handed to [zf.write] and
    that call decides how [create_zip] ends. *)
Theorem create_zip_packs_itself (zf_write : list string → string → result ())
    (repo_name version : string) (top : list (string * tree)) :
  all_chars (no_sep "/") (repo_name +:+ "-" +:+ version +:+ ".zip") = true →
  match dict_get (repo_name +:+ "-" +:+ version +:+ ".zip") top with
  | Some (TDir _) =>
      create_zip zf_write repo_name version top = ([], Raise IsADirectoryError)
  | _ =>
      ∃ calls r,
        create_zip zf_write repo_name version top = (calls, r)
        ∧ (∀ zip_filename, r = Ok zip_filename →
             zip_filename = repo_name +:+ "-" +:+ version +:+ ".zip"
             ∧ ([zip_filename],
                repo_name +:+ "-" +:+ version +:+ "/" +:+ zip_filename) ∈ calls
             ∧ zf_write [zip_filename]
                 (repo_name +:+ "-" +:+ version +:+ "/" +:+ zip_filename) = Ok ())
        ∧ (∀ e, r = Raise e →
             ∃ file_path,
               last calls = Some (file_path, archive_name repo_name version file_path)
               ∧ zf_write file_path (archive_name repo_name version file_path)
                 = Raise e)
        ∧ ((∀ file_path arcname,
              file_path ≠ [repo_name +:+ "-" +:+ version +:+ ".zip"] →
              zf_write file_path arcname = Ok ()) →
           ([repo_name +:+ "-" +:+ version +:+ ".zip"],
            repo_name +:+ "-" +:+ version +:+ "/"
            +:+ (repo_name +:+ "-" +:+ version +:+ ".zip")) ∈ calls
           ∧ r = match zf_write [repo_name +:+ "-" +:+ version +:+ ".zip"]
                         (repo_name +:+ "-" +:+ version +:+ "/"
                          +:+ (repo_name +:+ "-" +:+ version +:+ ".zip")) with
                 | Ok _ => Ok (repo_name +:+ "-" +:+ version +:+ ".zip")
                 | Raise e => Raise e
                 end)
  end.
Proof. apply create_zip_top. Qed.

(** Every call returns: the archive is one of its own members. *)
Lemma create_zip_packs_itself_witness :
  ∃ members,
    create_zip every_write_returns "repo" "1.0.0" tree_with_metadata
    = (members, Ok "repo-1.0.0.zip")
    ∧ (["repo-1.0.0.zip"], "repo-1.0.0/repo-1.0.0.zip") ∈ members.
Proof.
  pose proof (create_zip_packs_itself every_write_returns "repo" "1.0.0"
                tree_with_metadata eq_refl) as H.
  change (dict_get _ tree_with_metadata) with (@None tree) in H. cbv beta iota in H.
  destruct H as (calls & r & Hrun & _ & _ & Hreach).
  destruct Hreach as [Hin Hr]; [done|].
  exists calls. split; [|exact Hin]. rewrite Hrun, Hr. reflexivity.
Defined.

(** ** X18-X19: the workflow *)

Lemma digits_no_slash (s : string) : digits s → all_chars (no_sep "/") s = true.
Proof.
  intros [_ Hs]. eapply all_chars_impl; [|done].
  intros ch Hch. unfold no_sep. apply negb_true_iff, Ascii.eqb_neq. intros ->. done.
Qed.

Lemma version_re_no_slash (version : string) :
  re_match version_re version = true → all_chars (no_sep "/") version = true.
Proof.
  unfold re_match. simpl dollar. cbv iota.
  intros [H|(u & -> & H)]%match_dollar_iff;
    apply matches_version in H as (a & b & c & -> & Ha & Hb & Hc);
    rewrite !all_chars_append, (digits_no_slash a), (digits_no_slash b),
      (digits_no_slash c) by done; reflexivity.
Qed.

Lemma version_re_not_empty (version : string) :
  re_match version_re version = true → String.eqb version EmptyString = false.
Proof. intros H. apply String.eqb_neq. intros ->. done. Qed.

Lemma last_split_no_sep (sep : ascii) (s : string) :
  all_chars (no_sep sep) (List.last (split sep s) EmptyString) = true.
Proof.
  destruct (split sep s) as [|w ws] eqn:Hsp; [done|].
  apply (split_parts_no_sep sep s). rewrite Hsp.
  apply list_elem_of_In. destruct (exists_last (l := w :: ws)) as (l' & a & Heq); [done|].
  rewrite Heq, last_last. apply in_or_app. right. by left.
Qed.

Lemma zip_filename_no_slash (github_repository : option string) (version : string) :
  re_match version_re version = true →
  all_chars (no_sep "/")
    (List.last (split "/" (match github_repository with
                           | Some v => v
                           | None => "unknown/repo"
                           end)) EmptyString
     +:+ "-" +:+ version +:+ ".zip") = true.
Proof.
  intros Hre.
  rewrite !all_chars_append, last_split_no_sep, (version_re_no_slash version Hre).
  reflexivity.
Qed.

(** X18: [main] starts no command of its own exactly when [git rev-list],
    asked for the commits since the last version, fails or prints white
    space only; then it writes no archive and ends without an exception. *)
Theorem main_without_commits (subprocess_run : list string → result string)
    (zf_write : list string → string → result ())
    (github_repository : option string) (top : list (string * tree)) :
  (commands (Semver.main subprocess_run zf_write github_repository top) = [] ↔
   match subprocess_run
           ["git"; "rev-list";
            if String.eqb (get_last_version (subprocess_run ["git"; "tag"; "-l"])) "0.0.0"
            then "HEAD"
            else get_last_version (subprocess_run ["git"; "tag"; "-l"]) +:+ "..HEAD"] with
   | Ok stdout => strip stdout = EmptyString
   | Raise _ => True
   end)
  ∧ (commands (Semver.main subprocess_run zf_write github_repository top) = [] →
     Semver.main subprocess_run zf_write github_repository top
     = mkReport [] None (Ok ())).
Proof.
  pose proof (proj2 (commits_since_tag_blank
                       (λ revision, subprocess_run ["git"; "rev-list"; revision])
                       (get_last_version (subprocess_run ["git"; "tag"; "-l"]))))
    as Hblank.
  cbv beta in Hblank. rewrite <- Hblank. clear Hblank.
  destruct (new_version_spec
              (λ commit_hash,
                 subprocess_run ["git"; "show"; "-s"; "--format=%s%n%b"; commit_hash])
              (subprocess_run ["git"; "tag"; "-l"])
              (get_commits_since_tag
                 (λ revision, subprocess_run ["git"; "rev-list"; revision])
                 (get_last_version (subprocess_run ["git"; "tag"; "-l"]))))
    as (o & Hnew & Hnone & Hsome).
  unfold Semver.main. cbv zeta.
  rewrite Hnew. destruct o as [new_version|].
  - destruct (Hsome new_version eq_refl) as [Hre _].
    rewrite (version_re_not_empty _ Hre).
    assert (Hne : get_commits_since_tag
                    (λ revision, subprocess_run ["git"; "rev-list"; revision])
                    (get_last_version (subprocess_run ["git"; "tag"; "-l"])) ≠ []).
    { intros Hnil. by apply Hnone in Hnil. }
    assert (Hstarted : commands
              (match create_git_tag subprocess_run new_version with
               | (started, Raise e) => mkReport started None (Raise e)
               | (started, Ok _) =>
                   match create_zip zf_write
                           (List.last (split "/" (match github_repository with
                                                  | Some v => v
                                                  | None => "unknown/repo"
                                                  end)) EmptyString)
                           new_version top with
                   | (_, Raise e) => mkReport started None (Raise e)
                   | (members, Ok zip_filename) =>
                       let '(released, r) :=
                         create_github_release subprocess_run new_version zip_filename in
                       mkReport (started ++ released) (Some (zip_filename, members)) r
                   end
               end) ≠ []).
    { unfold create_git_tag. cbv zeta.
      destruct (subprocess_run ["git"; "tag"; new_version]); [|done].
      destruct (subprocess_run ["git"; "push"; "origin"; new_version]); [|done].
      destruct (create_zip zf_write _ new_version top) as [members [zip_filename|]];
        [|done].
      unfold create_github_release. cbv zeta.
      by destruct (subprocess_run ("gh" :: _)). }
    split; [|done]. split; done.
  - split; [|done]. split; [intros _; by apply Hnone|done].
Qed.

(** X19: [main] either does nothing, or works on one new version, which
    passes the pattern of version tags and has a key above the key of
    every version tag [git tag -l] lists.  For that version the steps run
    in the order tag, push, archive, release: the push only after the tag
    was made, the archive only after the push.  [create_zip] then ends with
    [IsADirectoryError] when the working directory holds a directory of
    the archive's name, or with the exception of a call of [zf.write], or
    it returns, and then [zf.write] has been called on the archive itself
    and has returned.  The release is started only when [create_zip] has
    returned, with the archive [{repo_name}-{version}.zip].  [main] ends
    with the exception of the first step that fails, and without one when
    the release is made. *)
Theorem main_releases_in_order (subprocess_run : list string → result string)
    (zf_write : list string → string → result ())
    (github_repository : option string) (top : list (string * tree)) :
  let repo_name :=
    List.last (split "/" (match github_repository with
                          | Some v => v
                          | None => "unknown/repo"
                          end)) EmptyString in
  Semver.main subprocess_run zf_write github_repository top = mkReport [] None (Ok ())
  ∨ ∃ new_version,
      let tag_command := ["git"; "tag"; new_version] in
      let push_command := ["git"; "push"; "origin"; new_version] in
      let zip_filename := repo_name +:+ "-" +:+ new_version +:+ ".zip" in
      let release_command :=
        ["gh"; "release"; "create"; new_version; zip_filename;
         "--title"; "Release " +:+ new_version;
         "--notes"; "Automated release for version " +:+ new_version] in
      re_match version_re new_version = true
      ∧ (∀ stdout tag,
           subprocess_run ["git"; "tag"; "-l"] = Ok stdout →
           tag ∈ version_tags_of stdout →
           ∃ k k', version_key tag = Ok k ∧ version_key new_version = Ok k'
                   ∧ tuple_lt k k' = true)
      ∧ ((∃ e, subprocess_run tag_command = Raise e
               ∧ Semver.main subprocess_run zf_write github_repository top
                 = mkReport [tag_command] None (Raise e))
         ∨ (∃ out e, subprocess_run tag_command = Ok out
                     ∧ subprocess_run push_command = Raise e
                     ∧ Semver.main subprocess_run zf_write github_repository top
                       = mkReport [tag_command; push_command] None (Raise e))
         ∨ (∃ out out', subprocess_run tag_command = Ok out
                        ∧ subprocess_run push_command = Ok out'
                        ∧ ((∃ sub, dict_get zip_filename top = Some (TDir sub)
                                   ∧ Semver.main subprocess_run zf_write
                                       github_repository top
                                     = mkReport [tag_command; push_command] None
                                         (Raise IsADirectoryError))
                           ∨ (∃ calls file_path e,
                                create_zip zf_write repo_name new_version top
                                = (calls, Raise e)
                                ∧ last calls
                                  = Some (file_path,
                                          archive_name repo_name new_version file_path)
                                ∧ zf_write file_path
                                    (archive_name repo_name new_version file_path)
                                  = Raise e
                                ∧ Semver.main subprocess_run zf_write
                                    github_repository top
                                  = mkReport [tag_command; push_command] None (Raise e))
                           ∨ ∃ members,
                               create_zip zf_write repo_name new_version top
                               = (members, Ok zip_filename)
                               ∧ ([zip_filename],
                                  repo_name +:+ "-" +:+ new_version +:+ "/"
                                  +:+ zip_filename) ∈ members
                               ∧ zf_write [zip_filename]
                                   (repo_name +:+ "-" +:+ new_version +:+ "/"
                                    +:+ zip_filename) = Ok ()
                               ∧ Semver.main subprocess_run zf_write
                                   github_repository top
                                 = mkReport [tag_command; push_command; release_command]
                                     (Some (zip_filename, members))
                                     (match subprocess_run release_command with
                                      | Ok _ => Ok ()
                                      | Raise e => Raise e
                                      end)))).
Proof.
  cbv zeta.
  destruct (new_version_spec
              (λ commit_hash,
                 subprocess_run ["git"; "show"; "-s"; "--format=%s%n%b"; commit_hash])
              (subprocess_run ["git"; "tag"; "-l"])
              (get_commits_since_tag
                 (λ revision, subprocess_run ["git"; "rev-list"; revision])
                 (get_last_version (subprocess_run ["git"; "tag"; "-l"]))))
    as (o & Hnew & _ & Hsome).
  unfold Semver.main. cbv zeta. rewrite Hnew. destruct o as [new_version|]; [|by left].
  destruct (Hsome new_version eq_refl) as [Hre Habove].
  rewrite (version_re_not_empty _ Hre). right. exists new_version.
  split; [done|]. split; [done|].
  unfold create_git_tag. cbv zeta.
  destruct (subprocess_run ["git"; "tag"; new_version]) as [out|e]; [|left; by exists e].
  right.
  destruct (subprocess_run ["git"; "push"; "origin"; new_version]) as [out'|e];
    [|left; by exists out, e].
  right. exists out, out'. split; [done|]. split; [done|].
  pose proof (create_zip_top zf_write _ new_version top
                (zip_filename_no_slash github_repository new_version Hre)) as Hzip.
  destruct (dict_get _ top) as [[|sub]|] eqn:Hdir.
  - right. destruct Hzip as (calls & r & Hrun & HOk & HRaise & _).
    rewrite Hrun. destruct r as [zip_filename|e].
    + right. destruct (HOk zip_filename eq_refl) as (-> & Hself & Hwritten).
      exists calls. split; [done|]. split; [done|]. split; [done|].
      unfold create_github_release. cbv zeta.
      by destruct (subprocess_run ("gh" :: _)).
    + left. destruct (HRaise e eq_refl) as (file_path & Hlast & Hfail).
      by exists calls, file_path, e.
  - left. exists sub. by rewrite Hzip.
  - right. destruct Hzip as (calls & r & Hrun & HOk & HRaise & _).
    rewrite Hrun. destruct r as [zip_filename|e].
    + right. destruct (HOk zip_filename eq_refl) as (-> & Hself & Hwritten).
      exists calls. split; [done|]. split; [done|]. split; [done|].
      unfold create_github_release. cbv zeta.
      by destruct (subprocess_run ("gh" :: _)).
    + left. destruct (HRaise e eq_refl) as (file_path & Hlast & Hfail).
      by exists calls, file_path, e.
Qed.

(** ** X20: tags with the same key *)

Lemma insert_sorted_not_nil (kx : list Z * string) (l : list (list Z * string)) :
  insert_sorted kx l ≠ [].
Proof. destruct l as [|ky l]; simpl; [done|]. by destruct (tuple_lt ky.1 kx.1). Qed.

Lemma last_cons_not_nil {A} (x : A) (l : list A) : l ≠ [] → last (x :: l) = last l.
Proof. by destruct l. Qed.

Lemma last_insert_sorted (kx : list Z * string) (l : list (list Z * string)) :
  StronglySorted key_le l →
  last (insert_sorted kx l)
  = match last l with
    | None => Some kx
    | Some m => if tuple_lt m.1 kx.1 then Some kx else Some m
    end.
Proof.
  induction 1 as [|ky l Hl IH Hky]; [done|]. simpl insert_sorted.
  destruct (tuple_lt ky.1 kx.1) eqn:Hlt.
  - rewrite last_cons_not_nil by apply insert_sorted_not_nil. rewrite IH.
    destruct l as [|kz l]; [simpl; by rewrite Hlt|].
    by rewrite (last_cons_not_nil ky (kz :: l)).
  - change (last (kx :: ky :: l)) with (last (ky :: l)).
    destruct (last (ky :: l)) as [m|] eqn:Hm; [|by apply last_None in Hm].
    destruct (last_sorted_max (ky :: l) m) as [Hin Hmax]; [by constructor|done|].
    assert (Hle : key_le ky m) by (apply Hmax, elem_of_cons; by left).
    by rewrite (tuple_le_trans kx.1 ky.1 m.1 Hlt Hle).
Qed.

(** The sort is stable: of the entries with the greatest key, the one that
    comes last in the list ends up last. *)
Lemma last_sort_by_key (l : list (list Z * string)) (m : list Z * string) :
  last (sort_by_key l) = Some m →
  ∃ before after,
    l = before ++ m :: after ∧ ∀ x, x ∈ after → tuple_lt x.1 m.1 = true.
Proof.
  revert m. induction l as [|x l IH]; intros m; [done|]. simpl sort_by_key.
  rewrite last_insert_sorted by apply sort_by_key_sorted.
  destruct (last (sort_by_key l)) as [m'|] eqn:Hlast.
  - destruct (tuple_lt m'.1 x.1) eqn:Hlt; intros [= <-].
    + exists [], l. split; [done|]. intros y Hy.
      destruct (last_sorted_max _ _ (sort_by_key_sorted l) Hlast) as [_ Hmax].
      apply (tuple_le_lt_trans _ m'.1); [|done]. by apply Hmax, sort_by_key_elem.
    + destruct (IH m' eq_refl) as (before & after & -> & Hafter).
      by exists (x :: before), after.
  - intros [= <-]. exists [], l. split; [done|]. intros y Hy.
    apply sort_by_key_elem in Hy. apply last_None in Hlast. rewrite Hlast in Hy.
    by apply elem_of_nil in Hy.
Qed.

(** X20: when several listed version tags have the greatest key, as
    [1.0.0] and [01.0.0] have, [get_last_version] returns the one listed
    last: every version tag listed after the tag it returns has a key that
    is lower. *)
Theorem get_last_version_ties (stdout : string) :
  version_tags_of stdout ≠ [] →
  ∃ before after k,
    version_tags_of stdout = before ++ get_last_version (Ok stdout) :: after
    ∧ version_key (get_last_version (Ok stdout)) = Ok k
    ∧ ∀ tag, tag ∈ after →
        ∃ k', version_key tag = Ok k' ∧ tuple_lt k' k = true.
Proof.
  intros Hne.
  destruct (get_last_version_sorted stdout Hne) as (keyed & best & Hrel & Hbest & ->).
  destruct (last_sort_by_key keyed best Hbest) as (before & after & -> & Hafter).
  apply Forall2_app_inv_r in Hrel as (tb & ta & Hb & Ha & ->).
  apply Forall2_cons_inv_r in Ha as (t & ta' & [Hk <-] & Ha & ->).
  exists tb, ta', best.1. split; [done|]. split; [done|].
  intros tag Htag. apply list_elem_of_lookup in Htag as [i Hi].
  destruct (Forall2_lookup_l _ _ _ _ _ Ha Hi) as (kv & Hkv & Hkey & _).
  exists kv.1. split; [done|]. apply Hafter, list_elem_of_lookup. by exists i.
Qed.

Lemma get_last_version_ties_witness :
  ∃ before after k,
    ["1.0.0"; "01.0.0"; "0.9.0"] = before ++ "01.0.0" :: after
    ∧ version_key "01.0.0" = Ok k
    ∧ ∀ tag, tag ∈ after → ∃ k', version_key tag = Ok k' ∧ tuple_lt k' k = true.
Proof.
  apply (get_last_version_ties
           ("1.0.0" +:+ String LF ("01.0.0" +:+ String LF "0.9.0"))).
  vm_compute. discriminate.
Defined.

End SemverExtras.
